(** * Accessible linearization of a Blockly workspace

    A shallow embedding of [Blockly.Linearization] and of its helper
    [Blockly.Linearization.BlockJoiner], with the properties of the
    design document stated over it. *)

From Equations Require Import Equations.
From Stdlib Require Import List ZArith Lia Bool String Ascii Arith DecimalString.
Import ListNotations.
Local Open Scope Z_scope.

Set Implicit Arguments.

(** ** JavaScript strings, as far as the stack markers need them *)

Module JSString.

  (** A JavaScript string is a sequence of UTF-16 code units. *)
Definition jsstring := list Z.

Fixpoint of_string (s : string) : jsstring :=
    match s with
    | EmptyString => []
    | String c s' => Z.of_nat (nat_of_ascii c) :: of_string s'
    end.

Definition length (s : jsstring) : Z := Z.of_nat (List.length s).

  (** [s.charCodeAt(i)]: [None] stands for NaN (index out of range). *)
Definition charCodeAt (s : jsstring) (i : Z) : option Z :=
    if (i <? 0) || (length s <=? i) then None else nth_error s (Z.to_nat i).

  (** [s.slice(0, e)]: a negative end counts from the end of the string. *)
Definition slice0 (s : jsstring) (e : Z) : jsstring :=
    let e' := if e <? 0 then Z.max (length s + e) 0 else Z.min e (length s) in
    firstn (Z.to_nat e') s.

  (** [String.fromCharCode(n)]: ToUint16 of the argument, NaN giving 0. *)
Definition fromCharCode (n : option Z) : jsstring :=
    match n with
    | None => [0]
    | Some c => [c mod 65536]
    end.

  (** The order of [<] on JavaScript strings: code unit by code unit, a
      proper prefix first. *)
Fixpoint lex_lt (a b : jsstring) : bool :=
    match a, b with
    | [], [] => false
    | [], _ :: _ => true
    | _ :: _, [] => false
    | x :: a', y :: b' => (x <? y) || ((x =? y) && lex_lt a' b')
    end.

  (** Shorter strings first, strings of one length in the order above. *)
Definition shortlex_lt (a b : jsstring) : bool :=
    (List.length a <? List.length b)%nat
    || ((List.length a =? List.length b)%nat && lex_lt a b).

Definition upper (c : Z) : Prop := 65 <= c <= 90.

End JSString.

Import JSString.

(** ** [Blockly.Linearization.nextStackMarker] *)

Lemma slice0_pred_length (m : jsstring) :
  m <> [] -> (List.length (slice0 m (length m - 1)) < List.length m)%nat.
Proof.
  intros Hm. unfold slice0, length.
  destruct m as [|c m]; [congruence|].
  rewrite length_firstn.
  set (n := List.length (c :: m)).
  assert (Hn : (0 < n)%nat) by (subst n; cbn; lia).
  destruct (Z.of_nat n - 1 <? 0) eqn:E.
  - apply Z.ltb_lt in E. lia.
  - apply Z.ltb_ge in E. lia.
Qed.

Lemma charCodeAt_some_nonempty (m : jsstring) (i c : Z) :
  charCodeAt m i = Some c -> m <> [].
Proof.
  unfold charCodeAt. intros H ->. cbn in H.
  destruct ((i <? 0) || (0 <=? i)) eqn:E; [discriminate|].
  apply orb_false_iff in E. lia.
Qed.

Definition inspect {A} (a : A) : { b : A | a = b } := exist _ a eq_refl.

Equations? nextStackMarker (marker : jsstring) : jsstring
  by wf (List.length marker) lt :=
  nextStackMarker marker with inspect (charCodeAt marker (length marker - 1)) => {
    | exist _ (Some c) Hc with inspect (c =? 90) => {
        | exist _ true _ with inspect (slice0 marker (length marker - 1)) => {
            | exist _ [] _ => of_string "A" ++ of_string "A"
            | exist _ (p :: ps) _ => nextStackMarker (p :: ps) ++ of_string "A" }
        | exist _ false _ =>
            slice0 marker (length marker - 1) ++ fromCharCode (Some (c + 1)) }
    | exist _ None _ =>
        slice0 marker (length marker - 1) ++ fromCharCode None }.
Proof.
  change (S (List.length ps)) with (List.length (p :: ps)).
  rewrite <- e0. apply slice0_pred_length.
  eapply charCodeAt_some_nonempty; eauto.
Qed.

Example nextStackMarker_A : nextStackMarker (of_string "A") = of_string "B".
Proof. reflexivity. Qed.

(** ** Values of the JavaScript runtime that the code inspects *)

(** [Blockly.ASTNode.types]. *)
Inductive ASTNodeType :=
| WORKSPACE | STACK | BLOCK | INPUT | FIELD | NEXT | PREVIOUS | OUTPUT.

Definition ASTNodeType_eqb (a b : ASTNodeType) : bool :=
  match a, b with
  | WORKSPACE, WORKSPACE | STACK, STACK | BLOCK, BLOCK | INPUT, INPUT
  | FIELD, FIELD | NEXT, NEXT | PREVIOUS, PREVIOUS | OUTPUT, OUTPUT => true
  | _, _ => false
  end.

(** What [node.getLocation()] returns: the entity under the cursor. *)
Inductive Location (Block Connection : Type) :=
| LBlock (b : Block)
| LConnection (c : Connection)
| LOther.
Arguments LBlock {Block Connection} b.
Arguments LConnection {Block Connection} c.
Arguments LOther {Block Connection}.

(** How a statement completes: normally, or by a thrown exception. *)
Inductive Exn := TypeError | HostError | OutOfFuel.

Inductive Completion (A : Type) :=
| Normal (a : A)
| Throw (e : Exn).
Arguments Throw {A} e.

Definition bind {A B} (c : Completion A) (k : A -> Completion B) : Completion B :=
  match c with
  | Normal a => k a
  | Throw e => Throw e
  end.

Notation "x <- c ;; k" := (bind c (fun x => k))
  (at level 61, c at next level, right associativity).

(** [o.m()] on a possibly null [o]. *)
Definition deref {A} (o : option A) : Completion A :=
  match o with
  | Some a => Normal a
  | None => Throw TypeError
  end.

Fixpoint mapM {A B} (f : A -> Completion B) (l : list A) : Completion (list B) :=
  match l with
  | [] => Normal []
  | a :: l' => b <- f a ;; bs <- mapM f l' ;; Normal (b :: bs)
  end.

(** Calls that change the host, in the order they are made. *)
Inductive HostCall (Block Connection : Type) :=
| HDisconnect (receiver : Location Block Connection)
| HBumpNeighbours (receiver : Location Block Connection)
| HConnect (receiver target : Location Block Connection)
| HSetHighlighted (receiver : Location Block Connection) (on : bool)
| HReload.
Arguments HDisconnect {Block Connection} receiver.
Arguments HBumpNeighbours {Block Connection} receiver.
Arguments HConnect {Block Connection} receiver target.
Arguments HSetHighlighted {Block Connection} receiver on.
Arguments HReload {Block Connection}.

(** How the host answers such a call. *)
Inductive Outcome := Returns | ThrowsError | ThrowsDOMException.

(** ** The host interface *)

(** Modelled from the spec: [Blockly.ASTNode], [Blockly.Block],
    [Blockly.Connection] and the workspace are the external collaborators of
    section 6 ("step to next/previous sibling, step into first child, step
    out to parent, report current type, report the concrete entity at this
    position, produce an ancestor chain"); their code is not part of the
    linearization sources.  A cursor move that finds nothing returns null.
    [depth] and [size] express that the block tree is acyclic: [ascend]
    and [out] climb, the forward moves [next], [nextBlock], [in] and [inBlock]
    advance in document order. *)
Record Host (Node Block Connection : Type) := {
  node_eq_dec : forall a b : Node, {a = b} + {a <> b};
  block_eq_dec : forall a b : Block, {a = b} + {a <> b};
  (* the cursor *)
  getType : Node -> ASTNodeType;
  getLocation : Node -> Location Block Connection;
  next : Node -> option Node;
  prev : Node -> option Node;
  in_ : Node -> option Node;
  out : Node -> option Node;
  ascend : Node -> option Node;
  nextBlock : Node -> option Node;
  inBlock : Node -> option Node;
  ancestors : bool -> Node -> list Node;
  nodeParentInputType : Node -> option Z;
  createWorkspaceNode : Node;
  createBlockNode : Block -> Node;
  createConnectionNode : Connection -> Node;
  (* the workspace *)
  getAllBlocks : list Block;
  getBlockById : jsstring -> option Block;
  (* blocks *)
  block_id : Block -> jsstring;
  block_type : Block -> jsstring;
  outputConnection : Block -> option Connection;
  getParent : Block -> option Block;
  getRootBlock : Block -> Block;
  getSurroundParent : Block -> option Block;
  makeAriaLabel : Block -> jsstring;
  getHue : Block -> Z;
  isShadow : Block -> bool;
  hasMutator : Block -> bool;
  warningText : Block -> option jsstring;
  whileUntilMode : Block -> jsstring;
  (* connections *)
  conn_id : Connection -> jsstring;
  getSourceBlock : Connection -> Block;
  connParentInputType : Connection -> option Z;
  checkConnection_ : Connection -> Connection -> bool;
  (* answers to the mutating calls, given the calls made before *)
  respond : list (HostCall Block Connection) -> HostCall Block Connection -> Outcome;
  (* the tree is acyclic *)
  depth : Node -> nat;
  size : Node -> nat;
  ascend_depth : forall n m, ascend n = Some m -> (depth m < depth n)%nat;
  out_depth : forall n m, out n = Some m -> (depth m < depth n)%nat;
  next_size : forall n m, next n = Some m -> (size m < size n)%nat;
  nextBlock_size : forall n m, nextBlock n = Some m -> (size m < size n)%nat;
  in_size : forall n m, in_ n = Some m -> (size m < size n)%nat;
  inBlock_size : forall n m, inBlock n = Some m -> (size m < size n)%nat
}.

(** Modelled from the spec: [node.collect(fn)], a cursor method that is not
    in the linearization sources.  It returns the node itself, then [fn]
    applied again and again until it returns null ("produce an ancestor
    chain" for [fn = ascend], the stacks in canvas order for [fn = next]). *)
Fixpoint collect_fuel {Node} (fuel : nat) (fn : Node -> option Node) (n : Node)
  : list Node :=
  match fuel with
  | O => []
  | S k => n :: match fn n with
                | None => []
                | Some m => collect_fuel k fn m
                end
  end.

Definition collect {Node} (measure : Node -> nat) (fn : Node -> option Node)
  (n : Node) : list Node :=
  collect_fuel (S (measure n)) fn n.

(** ** [Blockly.Linearization.BlockJoiner] *)

Section BlockJoiner.

Context {Node Block Connection : Type}.
Variable h : Host Node Block Connection.

Let Loc := Location Block Connection.
Let Call := HostCall Block Connection.

  (** The two slots: the block to move and the connection to attach to. *)
Record BlockJoiner := {
    blockNode : option Node;
    connectionNode : option Node
  }.

Definition emptyJoiner : BlockJoiner :=
    {| blockNode := None; connectionNode := None |}.

  (** [advance] and [back] of [attemptConnection_]; only [back] is used.
      [None] is the [default] case of the switch. *)
Definition back (t : ASTNodeType) : option (Node -> option Node) :=
    match t with
    | NEXT | INPUT => Some (prev h)
    | PREVIOUS | OUTPUT => Some (next h)
    | _ => None
    end.

  (** The first [try] block: disconnect any old connection of the block. *)
Definition detachOld (provided : Node) : list Call :=
    match prev h provided with
    | None => []
    | Some p =>
        match prev h p with
        | None => []
        | Some _ =>
            if ASTNodeType_eqb (getType h p) PREVIOUS
               || ASTNodeType_eqb (getType h p) OUTPUT
            then
              let c := HDisconnect (getLocation h p) in
              match respond h [] c with
              | Returns => [c; HBumpNeighbours (getLocation h p)]
              | _ => [c]
              end
            else []
        end
    end.

  (** The second [try] block: connect, and reload on a [DOMException]. *)
Definition connectTo (before : list Call) (target providedBlock : Loc)
    : list Call :=
    let c := HConnect target providedBlock in
    match respond h before c with
    | ThrowsDOMException => [c; HReload]
    | _ => [c]
    end.

Definition attemptConnection_ (j : BlockJoiner)
    : Completion unit * BlockJoiner * list Call :=
    match blockNode j, connectionNode j with
    | Some provided, Some cnode =>
        match back (getType h cnode) with
        | None => (Normal tt, j, [])
        | Some backfn =>
            match backfn provided with
            | None => (Throw TypeError, j, [])
            | Some b =>
                let providedBlock := getLocation h b in
                let calls := detachOld provided in
                (Normal tt, emptyJoiner,
                 calls ++ connectTo calls (getLocation h cnode) providedBlock)
            end
        end
    | _, _ => (Normal tt, j, [])
    end.

Definition push (j : BlockJoiner) (item : Node)
    : Completion bool * BlockJoiner * list Call :=
    match getLocation h item with
    | LBlock _ =>
        let '(c, j', calls) :=
          attemptConnection_ {| blockNode := Some item;
                                connectionNode := connectionNode j |} in
        (_ <- c ;; Normal true, j', calls)
    | LConnection _ =>
        let '(c, j', calls) :=
          attemptConnection_ {| blockNode := blockNode j;
                                connectionNode := Some item |} in
        (_ <- c ;; Normal true, j', calls)
    | LOther => (Normal false, j, [])
    end.

  (** [Blockly.Linearization.checkConnection].  The host's test is handed a
      connection; any other target (a block, null) makes it throw, and so
      does a null [conn].  [includes] compares the blocks by identity. *)
Definition parentBlocks (conn : Node) : list Loc :=
    map (getLocation h)
      (filter (fun n => ASTNodeType_eqb (getType h n) BLOCK)
         (collect (depth h) (ascend h) conn)).

Definition includesBlock (l : list Loc) (b : Block) : bool :=
    existsb (fun x => match x with
                      | LBlock b' => if block_eq_dec h b' b then true else false
                      | _ => false
                      end) l.

Definition checkConnection (conn blockConn : option Node) : bool :=
    match conn, blockConn with
    | Some c, Some bc =>
        match getLocation h c, getLocation h bc with
        | LConnection cc, LConnection bcc =>
            if checkConnection_ h cc bcc
            then negb (includesBlock (parentBlocks c) (getSourceBlock h bcc))
            else false
        | _, _ => false
        end
    | _, _ => false
    end.

End BlockJoiner.

(** ** Strings and numbers in labels *)

Definition str : string -> jsstring := of_string.

Fixpoint js_eqb (a b : jsstring) : bool :=
  match a, b with
  | [], [] => true
  | x :: a', y :: b' => (x =? y) && js_eqb a' b'
  | _, _ => false
  end.

(** An integer in a string concatenation, as [14 + 'pt']. *)
Definition Z_to_js (z : Z) : jsstring :=
  str (DecimalString.NilZero.string_of_int (Z.to_int z)).

(** An undefined value in a string concatenation. *)
Definition orUndefined (o : option jsstring) : jsstring :=
  match o with
  | Some s => s
  | None => str "undefined"
  end.

Fixpoint isPrefix (pat s : jsstring) : bool :=
  match pat, s with
  | [], _ => true
  | _ :: _, [] => false
  | x :: pat', y :: s' => (x =? y) && isPrefix pat' s'
  end.

(** [s.slice(0, s.lastIndexOf(pat))] where [pat] occurs in [s]. *)
Fixpoint cutAtLast (pat s : jsstring) : option jsstring :=
  match s with
  | [] => if isPrefix pat [] then Some [] else None
  | c :: s' =>
      match cutAtLast pat s' with
      | Some r => Some (c :: r)
      | None => if isPrefix pat s then Some [] else None
      end
  end.

(** [Blockly.INPUT_VALUE]. *)
Definition INPUT_VALUE : Z := 1.

(** ** The rendered tree *)

Section Dom.

Context {Node Block Connection : Type}.

  (** One arm of an if block, as [getIfBranches] builds it.  The fields of
      the condition are undefined on an else branch. *)
Record Branch := {
    key : Z;
    branch_type : Z;
    text : jsstring;
    condIndex : option Z;
    condConnection : option (Location Block Connection);
    condNode : option Node;
    bodyIndex : Z;
    bodyConnection : Location Block Connection;
    bodyNode : option Node
  }.

  (** The click listeners that the linearization attaches; each constructor
      stands for one closure of the source. *)
Inductive Handler :=
  | ListItemOnclick (node : option Node) (branch : option Branch)
  | MoveItemOnclick (node : Node)
  | CancelMove
  | DeleteMoving (blockNode : Node)
  | StartNewStack.

  (** DOM nodes: text nodes, and elements with a tag, their attributes and
      style properties, their listeners and their children. *)
#[warnings="-register-all"] Inductive Elem :=
  | TextNode (t : jsstring)
  | Element (tag : jsstring) (attrs : list (jsstring * jsstring))
      (listeners : list Handler) (children : list Elem).

Fixpoint setKey (k v : jsstring) (l : list (jsstring * jsstring))
    : list (jsstring * jsstring) :=
    match l with
    | [] => [(k, v)]
    | (k', v') :: l' =>
        if js_eqb k k' then (k, v) :: l' else (k', v') :: setKey k v l'
    end.

Definition setAttribute (k v : jsstring) (e : Elem) : Elem :=
    match e with
    | TextNode t => TextNode t
    | Element tag attrs ls cs => Element tag (setKey k v attrs) ls cs
    end.

  (** [elem.style[k] = z + unit] for a length: the style object parses what
      it is given and leaves the property as it was when the value is not a
      valid one, and of a font size or a padding a negative length is not. *)
Definition setStyleLength (k : jsstring) (z : Z) (unit : jsstring)
    (l : list (jsstring * jsstring)) : list (jsstring * jsstring) :=
    if 0 <=? z then setKey k (Z_to_js z ++ unit) l else l.

Definition addEventListener (hd : Handler) (e : Elem) : Elem :=
    match e with
    | TextNode t => TextNode t
    | Element tag attrs ls cs => Element tag attrs (ls ++ [hd]) cs
    end.

Definition append (new : list Elem) (e : Elem) : Elem :=
    match e with
    | TextNode t => TextNode t
    | Element tag attrs ls cs => Element tag attrs ls (cs ++ new)
    end.

Definition appendChild (c : Elem) (e : Elem) : Elem := append [c] e.

  (** [e.firstChild] updated in place. *)
Definition onFirstChild (f : Elem -> Elem) (e : Elem) : Elem :=
    match e with
    | Element tag attrs ls (c :: cs) => Element tag attrs ls (f c :: cs)
    | _ => e
    end.

Fixpoint textContent (e : Elem) : jsstring :=
    match e with
    | TextNode t => t
    | Element _ _ _ cs => flat_map textContent cs
    end.

Definition firstChildText (e : Elem) : jsstring :=
    match e with
    | Element _ _ _ (c :: _) => textContent c
    | _ => []
    end.

Definition setTextContent (t : jsstring) (e : Elem) : Elem :=
    match e with
    | TextNode _ => TextNode t
    | Element tag attrs ls _ => Element tag attrs ls [TextNode t]
    end.

Definition tagName (e : Elem) : option jsstring :=
    match e with
    | TextNode _ => None
    | Element tag _ _ _ => Some tag
    end.

Definition childrenOf (e : Elem) : list Elem :=
    match e with
    | TextNode _ => []
    | Element _ _ _ cs => cs
    end.

End Dom.

Arguments Branch : clear implicits.
Arguments Handler : clear implicits.
Arguments Elem : clear implicits.

(** ** Events and the state of a [Blockly.Linearization] *)

(** [Blockly.Events]: the types that [alterSelectedWithEvent_] tells apart;
    every other type falls through its switch. *)
Inductive EventType :=
| BLOCK_MOVE | BLOCK_CREATE | UI | BLOCK_DELETE | FINISHED_LOADING | OTHER_EVENT.

(** A workspace event.  [ev_ref] is the identity of the event object:
    [===] on two events compares it. *)
Record Event := {
  ev_ref : nat;
  ev_type : EventType;
  ev_blockId : option jsstring;
  ev_element : option jsstring
}.

(** [a === b] for two possibly null events. *)
Definition sameEvent (a b : option Event) : bool :=
  match a, b with
  | None, None => true
  | Some x, Some y => Nat.eqb (ev_ref x) (ev_ref y)
  | _, _ => false
  end.

(** The values that [this.cooldown_] takes: a number or a boolean. *)
Inductive JSValue :=
| VNum (z : Z)
| VBool (b : bool).

Definition truthy (v : JSValue) : bool :=
  match v with
  | VNum z => negb (z =? 0)
  | VBool b => b
  end.

(** [v < now], with the boolean converted to a number. *)
Definition lessThan (v : JSValue) (now : Z) : bool :=
  match v with
  | VNum z => z <? now
  | VBool true => 1 <? now
  | VBool false => 0 <? now
  end.

Section Linearization.

Context {Node Block Connection : Type}.
Variable h : Host Node Block Connection.

Let Loc := Location Block Connection.
Let Call := HostCall Block Connection.
Let Br := Branch Node Block Connection.
Let El := Elem Node Block Connection.

(** The fields of a [Blockly.Linearization].  [selected] holds the selected
    node together with the [branch] property set on it; [parentNav] and
    [mainNavList] hold the children of the breadcrumb element and the list
    element; [hostCalls] logs the calls that change the host. *)
Record State := {
  blockJoiner : BlockJoiner (Node := Node);
  selected : option (Node * option Br);
  pendingRenderEvent_ : option Event;
  cooldown_ : JSValue;
  fontSize_ : Z;
  indentPixels_ : Z;
  enforceDefaultCss : bool;
  marker : option jsstring;
  lastHighlighted : option Loc;
  parentNav : list El;
  mainNavList : El;
  hostCalls : list Call
}.

Definition blankText_ : jsstring := str "NOTHING".
Definition returnText_ : jsstring := str "return ".

Definition selectedNode (s : State) : option Node := option_map fst (selected s).

Definition loc_id (l : Loc) : option jsstring :=
  match l with
  | LBlock b => Some (block_id h b)
  | LConnection c => Some (conn_id h c)
  | LOther => None
  end.

(** [a === b] for two possibly undefined strings. *)
Definition sameId (a b : option jsstring) : bool :=
  match a, b with
  | None, None => true
  | Some x, Some y => js_eqb x y
  | _, _ => false
  end.

Definition createElement (s : State) (tag : jsstring) : El :=
  Element tag
    (setStyleLength (str "style.font-size") (fontSize_ s) (str "pt") []) [] [].

Definition makeTextItem (s : State) (t : jsstring) : El :=
  appendChild (appendChild (TextNode t) (createElement s (str "span")))
    (createElement s (str "li")).

(** [Blockly.Linearization.getNestingBlockName], on whatever the cursor
    points to. *)
Definition getNestingBlockName (block : Loc) : option jsstring :=
  match block with
  | LBlock b =>
      let ty := block_type h b in
      if js_eqb ty (str "controls_if") then Some (str "if")
      else if js_eqb ty (str "controls_repeat_ext") then Some (str "repeat")
      else if js_eqb ty (str "controls_forEach") then Some (str "for each")
      else if js_eqb ty (str "controls_for") then Some (str "for")
      else if js_eqb ty (str "procedures_defnoreturn") then Some (str "function")
      else if js_eqb ty (str "procedures_defreturn") then Some (str "function")
      else if js_eqb ty (str "controls_whileUntil") then
        if js_eqb (whileUntilMode h b) (str "until")
        then Some (str "repeat until") else Some (str "repeat while")
      else None
  | _ => None
  end.

(** [Blockly.Linearization.makeNodeLabel]. *)
Definition makeNodeLabel (node : option Node) : jsstring :=
  match node with
  | Some n =>
      match getLocation h n with
      | LBlock b => makeAriaLabel h b
      | _ => str "workspace"
      end
  | None => str "workspace"
  end.

(** [Blockly.Linearization.nextInlineInput]. *)
Definition nextInlineInput (node : Node) : option Node :=
  match next h node with
  | Some nx =>
      if ASTNodeType_eqb (getType h nx) FIELD then Some nx
      else match in_ h nx with
           | Some i => if negb (ASTNodeType_eqb (getType h i) PREVIOUS)
                       then Some nx else None
           | None => None
           end
  | None => None
  end.

(** [Blockly.Linearization.getIfBranches]: the loop over the children, two
    at a time; [i] is the index of the first child of [children]. *)
Definition nodeAfterIn (c : Node) : option Node :=
  match in_ h c with
  | Some it => next h it
  | None => None
  end.

Fixpoint branchesFrom (i : Z) (children : list Node) : list Br :=
  match children with
  | [] => []
  | [c] =>
      [ {| key := i / 2; branch_type := 3; text := str "else";
           condIndex := None; condConnection := None; condNode := None;
           bodyIndex := i; bodyConnection := getLocation h c;
           bodyNode := nodeAfterIn c |} ]
  | c :: b :: rest =>
      {| key := i / 2;
         branch_type := if i =? 0 then 1 else 2;
         text := if i =? 0 then str "if" else str "else if";
         condIndex := Some i; condConnection := Some (getLocation h c);
         condNode := nodeAfterIn c;
         bodyIndex := i + 1; bodyConnection := getLocation h b;
         bodyNode := nodeAfterIn b |}
      :: branchesFrom (i + 2) rest
  end.

Definition getIfBranches (ifNode : Node) : Completion (list Br) :=
  first <- deref (in_ h ifNode) ;;
  Normal (branchesFrom 0 (collect (size h) (next h) first)).

(** [makeConnectionItem_]. *)
Definition makeConnectionItem_ (s : State) (node : Node) (t : jsstring) : El :=
  let connection := getLocation h node in
  addEventListener (MoveItemOnclick node)
    (setAttribute (str "style.color") (str "hsl(0, 0%, 0%)")
       (setAttribute (str "blockId") (orUndefined (loc_id connection))
          (setAttribute (str "id") (str "li" ++ orUndefined (loc_id connection))
             (makeTextItem s t)))).

(** [makeBlockItem_]: the location of [node] has to be a block. *)
Definition makeBlockItem_ (s : State) (node : Node) (branch : option Br)
  : Completion El :=
  match getLocation h node with
  | LBlock block =>
      let moving :=
        match blockNode (blockJoiner s) with
        | Some bn => sameId (loc_id (getLocation h bn)) (Some (block_id h block))
        | None => false
        end in
      let t := makeAriaLabel h block
               ++ (if moving then str " (moving me...)" else []) in
      Normal
        (setAttribute (str "style.color")
           (str "hsl(" ++ Z_to_js (getHue h block) ++ str ", 40%, 40%)")
           (addEventListener (ListItemOnclick (Some node) branch)
              (setAttribute (str "blockId") (block_id h block)
                 (setAttribute (str "id") (str "li" ++ block_id h block)
                    (onFirstChild (setAttribute (str "role") (str "button"))
                       (makeTextItem s t))))))
  | _ => Throw TypeError
  end.

(** [makePrevConnectionItem_] and [makeNextConnectionItem_];
    [blockNode !== node] compares the two cursor objects. *)
Definition displayFor (s : State) (node : Node) : option Node :=
  match blockNode (blockJoiner s) with
  | Some bn => if node_eq_dec h bn node then None else Some bn
  | None => None
  end.

Definition typeIs (o : option Node) (t : ASTNodeType) : bool :=
  match o with
  | Some n => ASTNodeType_eqb (getType h n) t
  | None => false
  end.

Definition makePrevConnectionItem_ (s : State) (node : Node) : option El :=
  match displayFor s node, prev h node with
  | Some bn, Some prevConn =>
      let displayPrev := negb (typeIs (prev h prevConn) NEXT) in
      if displayPrev && checkConnection h (Some prevConn) (next h bn) then
        match prev h prevConn with
        | Some pp =>
            if ASTNodeType_eqb (getType h pp) INPUT
            then Some (makeConnectionItem_ s pp (str "Insert above"))
            else Some (makeConnectionItem_ s prevConn (str "Insert above"))
        | None => Some (makeConnectionItem_ s prevConn (str "Insert above"))
        end
      else None
  | _, _ => None
  end.

Definition makeNextConnectionItem_ (s : State) (node : Node) : option El :=
  match displayFor s node, next h node with
  | Some bn, Some nextConn =>
      if checkConnection h (Some nextConn) (prev h bn) then
        let last := negb (typeIs (next h nextConn) PREVIOUS) in
        Some (makeConnectionItem_ s nextConn
                (if last then str "Insert below" else str "Insert between"))
      else None
  | _, _ => None
  end.

(** The array that [makeNodeItems_] returns, with its properties [first],
    [main] and [final]. *)
Record NodeItems := {
  first : option El;
  main : El;
  final : option El
}.

Definition optList {A} (o : option A) : list A :=
  match o with
  | Some a => [a]
  | None => []
  end.

Definition itemsOf (ni : NodeItems) : list El :=
  optList (first ni) ++ [main ni] ++ optList (final ni).

Definition makeNodeItems_ (s : State) (node : Node) : Completion NodeItems :=
  let prevConnectionItem := makePrevConnectionItem_ s node in
  m <- makeBlockItem_ s node None ;;
  Normal {| first := prevConnectionItem; main := m;
            final := makeNextConnectionItem_ s node |}.

(** [makeInnerInputList_]; the two counters of [tracker] are threaded
    through the final [map]. *)
Definition hasInputParent (n : Node) : bool :=
  match nodeParentInputType h n with
  | Some t => t =? INPUT_VALUE
  | None => false
  end.

Fixpoint innerInputItems (s : State) (inlines withins : nat)
  (tackVal insertVal : Z) (l : list Node) : list El :=
  match l with
  | [] => []
  | n :: l' =>
      if hasInputParent n then
        if (inlines <=? 1)%nat
        then makeConnectionItem_ s n (str "Tack on side")
             :: innerInputItems s inlines withins tackVal insertVal l'
        else makeConnectionItem_ s n
               (str "Tack on side" ++ str " " ++ Z_to_js tackVal)
             :: innerInputItems s inlines withins (tackVal + 1) insertVal l'
      else
        if (withins <=? 1)%nat
        then makeConnectionItem_ s n (str "Insert within")
             :: innerInputItems s inlines withins tackVal insertVal l'
        else makeConnectionItem_ s n
               (str "Insert within" ++ str " " ++ Z_to_js insertVal)
             :: innerInputItems s inlines withins tackVal (insertVal + 1) l'
  end.

Definition isSome {A} (o : option A) : bool :=
  match o with
  | Some _ => true
  | None => false
  end.

Definition makeInnerInputList_ (s : State) (rootNode : Node)
  : Completion (list El) :=
  match blockNode (blockJoiner s) with
  | None => Normal []
  | Some bn =>
      firstIn <- deref (in_ h rootNode) ;;
      let inNodeSeq := collect (size h) (next h) firstIn in
      let inlines := List.length (filter hasInputParent inNodeSeq) in
      let withins := (List.length inNodeSeq - inlines)%nat in
      Normal
        (innerInputItems s inlines withins 1 1
           (filter (fun n => checkConnection h (Some n) (prev h bn))
              (filter (fun n => isSome (selected s) || negb (hasInputParent n))
                 inNodeSeq)))
  end.

(** [makeReturnItem_]. *)
Fixpoint findReturnNode (l : list Node) : Completion (option Node) :=
  match l with
  | [] => Normal None
  | n :: l' =>
      match getLocation h n with
      | LConnection c =>
          match connParentInputType h c with
          | Some t => if t =? 1 then Normal (Some n) else findReturnNode l'
          | None => findReturnNode l'
          end
      | _ => Throw TypeError
      end
  end.

Definition makeReturnItem_ (s : State) (rootNode : Node) : Completion El :=
  let inNode :=
    match in_ h rootNode with
    | Some i => find (fun n => ASTNodeType_eqb (getType h n) INPUT)
                  (collect (size h) (next h) i)
    | None => None
    end in
  i <- deref inNode ;;
  found <- findReturnNode (collect (size h) (next h) i) ;;
  returnNode <- deref found ;;
  match nodeAfterIn returnNode with
  | Some returnBlock =>
      item <- makeBlockItem_ s returnBlock None ;;
      Normal (onFirstChild
                (fun sp => setTextContent (returnText_ ++ textContent sp) sp) item)
  | None =>
      match blockNode (blockJoiner s) with
      | Some bn =>
          if checkConnection h (Some returnNode) (prev h bn)
          then Normal (makeConnectionItem_ s returnNode (str "Insert in return"))
          else Normal (makeTextItem s (returnText_ ++ blankText_))
      | None => Normal (makeTextItem s (returnText_ ++ blankText_))
      end
  end.

(** [makeIfBracketItem_]. *)
Definition connectionNodeOf (l : option Loc) : option Node :=
  match l with
  | Some (LConnection c) => Some (createConnectionNode h c)
  | _ => None
  end.

Definition makeIfBracketItem_ (s : State) (node : Node) (branch : Br)
  : Completion El :=
  t <- (if branch_type branch =? 3 then Normal (text branch)
        else
          match condNode branch with
          | Some cn =>
              match getLocation h cn with
              | LBlock b =>
                  Normal (text branch ++ str " " ++ makeAriaLabel h b ++ str " do")
              | _ => Throw TypeError
              end
          | None => Normal (text branch ++ str " " ++ blankText_ ++ str " do")
          end) ;;
  let asBlockItem :=
    item <- makeBlockItem_ s node (Some branch) ;;
    Normal (onFirstChild (setTextContent t) item) in
  match blockNode (blockJoiner s) with
  | None => asBlockItem
  | Some bn =>
      let condConnectionNode := connectionNodeOf (condConnection branch) in
      match condConnectionNode with
      | Some ccn =>
          if checkConnection h condConnectionNode (prev h bn)
          then Normal (makeConnectionItem_ s ccn (t ++ str " (click to fill)"))
          else asBlockItem
      | None => asBlockItem
      end
  end.

(** [makeIfList_]; [nodeBranch] is the [branch] property of [node]. *)
Definition ifBranchBody (s : State) (branch : Br) : Completion (list El) :=
  match bodyNode branch with
  | Some bn =>
      items <- mapM (makeNodeItems_ s) (collect (size h) (nextBlock h) bn) ;;
      Normal (flat_map itemsOf items)
  | None =>
      match blockNode (blockJoiner s) with
      | Some _ =>
          match bodyConnection branch with
          | LConnection c =>
              Normal [makeConnectionItem_ s (createConnectionNode h c)
                        (str "Insert within " ++ text branch)]
          | _ => Throw TypeError
          end
      | None => Normal [makeTextItem s blankText_]
      end
  end.

Definition ifBranchItems (s : State) (node : Node) (branch : Br)
  : Completion (list El) :=
  header <- makeIfBracketItem_ s node branch ;;
  body <- ifBranchBody s branch ;;
  Normal [header; append body (createElement s (str "ul"))].

(** The arms that [makeIfList_] shows: the selected arm, or all of them. *)
Definition shownBranches (node : Node) (nodeBranch : option Br)
  : Completion (list Br) :=
  match nodeBranch with
  | Some b => Normal [b]
  | None => getIfBranches node
  end.

Definition makeIfList_ (s : State) (node : Node) (nodeBranch : option Br)
  : Completion (list El) :=
  branches <- shownBranches node nodeBranch ;;
  cond <- match nodeBranch with
          | Some {| condNode := Some cn |} =>
              item <- makeBlockItem_ s cn None ;; Normal [item]
          | _ =>
              match branches with
              | [ {| condNode := Some cn |} ] =>
                  item <- makeBlockItem_ s cn None ;; Normal [item]
              | _ => Normal []
              end
          end ;;
  sections <- mapM (ifBranchItems s node) branches ;;
  viewAll <- match nodeBranch with
             | Some _ =>
                 item <- makeBlockItem_ s node None ;;
                 Normal [match item with
                         | Element tag attrs ls _ =>
                             Element tag attrs ls
                               [TextNode (str "View all branches...")]
                         | TextNode t => TextNode t
                         end]
             | None => Normal []
             end ;;
  Normal (cond ++ List.concat sections ++ viewAll).

(** [makeBlockList_].  The recursion of the source follows the cursor into
    the nested blocks; [fuel] bounds its depth. *)
Definition alterAriaLabel (block : Block) (item : El) : El :=
  let labelled :=
    match getSurroundParent h block with
    | Some parent =>
        let nestingName := getNestingBlockName (LBlock parent) in
        onFirstChild
          (setAttribute (str "aria-label")
             (firstChildText item ++ str ", inside " ++ orUndefined nestingName))
          item
    | None => item
    end in
  onFirstChild (setAttribute (str "role") (str "button")) labelled.

Definition endLabelOf (s : State) (block : Loc) : option El :=
  option_map
    (fun nestedName =>
       onFirstChild (setAttribute (str "role") (str "text"))
         (makeTextItem s (str "end " ++ nestedName)))
    (getNestingBlockName block).

(** The third test of the guard: [block.getRootBlock() !== rootBlock]. *)
Definition isRootBlock (rootBlock : Loc) (b : Block) : bool :=
  match rootBlock with
  | LBlock r => if block_eq_dec h (getRootBlock h b) r then true else false
  | _ => false
  end.

(** [mainElem.innerHTML = mainElem.innerHTML.slice(0, endIndex)]: the label
    is cut at the last occurrence of [returnText_], when there is one. *)
Definition cutReturnText (item : El) : El :=
  onFirstChild
    (fun sp => match cutAtLast returnText_ (textContent sp) with
               | Some t => setTextContent t sp
               | None => sp
               end) item.

(** The body of an arm without blocks, in the whole-workspace view: an
    insert control while a block is being moved, if the check lets it. *)
Definition emptyBranchBody (s : State) (branch : Br) : El :=
  let ul := createElement s (str "ul") in
  match blockNode (blockJoiner s) with
  | Some moving =>
      let bodyNode' := connectionNodeOf (Some (bodyConnection branch)) in
      match bodyNode' with
      | Some bn' =>
          if checkConnection h bodyNode' (Some moving)
          then appendChild
                 (makeConnectionItem_ s bn' (str "Insert within " ++ text branch))
                 ul
          else ul
      | None => ul
      end
  | None => ul
  end.

(** [generateInnerBody]; [expand] is [makeBlockList_] on the nested nodes. *)
Definition generateInnerBody (s : State) (expand : Node -> Completion (list El))
  (n : Node) : Completion El :=
  items <- mapM expand (collect (size h) (nextBlock h) n) ;;
  Normal (append (List.concat items) (createElement s (str "ul"))).

(** One turn of the loop over the branches of an if block. *)
Definition ifSection (s : State) (expand : Node -> Completion (list El))
  (node : Node) (b : Block) (branch : Br) : Completion (list El) :=
  headerItem <- makeIfBracketItem_ s node branch ;;
  body <- match bodyNode branch with
          | Some bn => generateInnerBody s expand bn
          | None => Normal (emptyBranchBody s branch)
          end ;;
  Normal [alterAriaLabel b headerItem; body].

(** What [makeBlockList_] does with a node that passed its guard. *)
Definition expandBlock (s : State) (expand : Node -> Completion (list El))
  (node : Node) (b : Block) (endLabel : option El) : Completion (list El) :=
  basicNodeItems <- makeNodeItems_ s node ;;
  middle <-
    (if js_eqb (block_type h b) (str "controls_if") then
       branches <- getIfBranches node ;;
       sections <- mapM (ifSection s expand node b) branches ;;
       Normal (List.concat sections)
     else
       let mainElem := alterAriaLabel b (main basicNodeItems) in
       match inBlock h node with
       | Some firstNested =>
           body <- generateInnerBody s expand firstNested ;;
           if js_eqb (block_type h b) (str "procedures_defreturn") then
             ret <- makeReturnItem_ s node ;;
             Normal [cutReturnText mainElem; append [ret] body]
           else Normal [mainElem; body]
       | None =>
           if isSome (blockNode (blockJoiner s)) && isSome (in_ h node)
           then
             inner <- makeInnerInputList_ s node ;;
             Normal [mainElem; append inner (createElement s (str "ul"))]
           else Normal [mainElem]
       end) ;;
  Normal (optList (first basicNodeItems) ++ middle
          ++ optList endLabel ++ optList (final basicNodeItems)).

(** The guard of [makeBlockList_], for a node of type block on block [b]:
    the block is plugged into a parent by its output, or belongs to
    another stack. *)
Definition notRootOwned (rootBlock : Loc) (b : Block) : bool :=
  (isSome (outputConnection h b) && isSome (getParent h b))
  || negb (isRootBlock rootBlock b).

Fixpoint makeBlockList_ (fuel : nat) (s : State) (node : Node) (rootBlock : Loc)
  : Completion (list El) :=
  match fuel with
  | O => Throw OutOfFuel
  | S fuel' =>
      let block := getLocation h node in
      let endLabel := endLabelOf s block in
      if negb (ASTNodeType_eqb (getType h node) BLOCK) then Normal (optList endLabel)
      else
        match block with
        | LBlock b =>
            if notRootOwned rootBlock b then Normal (optList endLabel)
            else expandBlock s (fun m => makeBlockList_ fuel' s m rootBlock)
                   node b endLabel
        | _ => Throw TypeError
        end
  end.

Definition setMarker (s : State) (m : option jsstring) : State :=
  {| blockJoiner := blockJoiner s; selected := selected s;
     pendingRenderEvent_ := pendingRenderEvent_ s;
     cooldown_ := cooldown_ s; fontSize_ := fontSize_ s;
     indentPixels_ := indentPixels_ s;
     enforceDefaultCss := enforceDefaultCss s;
     marker := m;
     lastHighlighted := lastHighlighted s;
     parentNav := parentNav s; mainNavList := mainNavList s;
     hostCalls := hostCalls s |}.

(** [makeStackItem_]: the label takes the current marker, which advances.
    The result comes with the new value of [this.marker]. *)
Definition makeStackItem_ (s : State) (stackNode : Node)
  : Completion (El * State) :=
  let stackElem := makeTextItem s (str "Stack " ++ orUndefined (marker s)) in
  m <- deref (marker s) ;;
  let s' := setMarker s (Some (nextStackMarker m)) in
  firstIn <- deref (in_ h stackNode) ;;
  blockNode <- (if negb (ASTNodeType_eqb (getType h firstIn) BLOCK)
                then deref (nextBlock h firstIn) else Normal firstIn) ;;
  let rootBlock := getLocation h blockNode in
  lists <- mapM (fun n => makeBlockList_ (S (size h n)) s' n rootBlock)
             (collect (size h) (nextBlock h) blockNode) ;;
  Normal (append [stackElem; append (List.concat lists) (createElement s' (str "ul"))]
            (createElement s (str "li")),
          s').

(** [makeWorkspaceView_]: [stacks.map(stack => this.makeStackItem_(stack))]
    is the loop below. *)
Fixpoint makeStackItems (s : State) (stacks : list Node)
  : Completion (list El * State) :=
  match stacks with
  | [] => Normal ([], s)
  | stack :: rest =>
      r <- makeStackItem_ s stack ;;
      rs <- makeStackItems (snd r) rest ;;
      Normal (fst r :: fst rs, snd rs)
  end.

Definition makeWorkspaceView_ (s : State) : Completion (El * State) :=
  let wsNode := createWorkspaceNode h in
  let list := createElement s (str "ul") in
  firstStack <- deref (in_ h wsNode) ;;
  let stacks := collect (size h) (next h) firstStack in
  r <- makeStackItems (setMarker s (Some (str "A"))) stacks ;;
  Normal (append (fst r) list, snd r).

(** Updates of single fields. *)
Definition setSelected (s : State) (v : option (Node * option Br)) : State :=
  {| blockJoiner := blockJoiner s; selected := v;
     pendingRenderEvent_ := pendingRenderEvent_ s;
     cooldown_ := cooldown_ s; fontSize_ := fontSize_ s;
     indentPixels_ := indentPixels_ s;
     enforceDefaultCss := enforceDefaultCss s; marker := marker s;
     lastHighlighted := lastHighlighted s;
     parentNav := parentNav s; mainNavList := mainNavList s;
     hostCalls := hostCalls s |}.

Definition setBlockJoiner (s : State) (v : BlockJoiner) : State :=
  {| blockJoiner := v; selected := selected s;
     pendingRenderEvent_ := pendingRenderEvent_ s;
     cooldown_ := cooldown_ s; fontSize_ := fontSize_ s;
     indentPixels_ := indentPixels_ s;
     enforceDefaultCss := enforceDefaultCss s; marker := marker s;
     lastHighlighted := lastHighlighted s;
     parentNav := parentNav s; mainNavList := mainNavList s;
     hostCalls := hostCalls s |}.

Definition setPendingRenderEvent_ (s : State) (v : option Event) : State :=
  {| blockJoiner := blockJoiner s; selected := selected s;
     pendingRenderEvent_ := v;
     cooldown_ := cooldown_ s; fontSize_ := fontSize_ s;
     indentPixels_ := indentPixels_ s;
     enforceDefaultCss := enforceDefaultCss s; marker := marker s;
     lastHighlighted := lastHighlighted s;
     parentNav := parentNav s; mainNavList := mainNavList s;
     hostCalls := hostCalls s |}.

Definition setCooldown_ (s : State) (v : JSValue) : State :=
  {| blockJoiner := blockJoiner s; selected := selected s;
     pendingRenderEvent_ := pendingRenderEvent_ s;
     cooldown_ := v; fontSize_ := fontSize_ s;
     indentPixels_ := indentPixels_ s;
     enforceDefaultCss := enforceDefaultCss s; marker := marker s;
     lastHighlighted := lastHighlighted s;
     parentNav := parentNav s; mainNavList := mainNavList s;
     hostCalls := hostCalls s |}.

Definition setLastHighlighted (s : State) (v : option Loc) : State :=
  {| blockJoiner := blockJoiner s; selected := selected s;
     pendingRenderEvent_ := pendingRenderEvent_ s;
     cooldown_ := cooldown_ s; fontSize_ := fontSize_ s;
     indentPixels_ := indentPixels_ s;
     enforceDefaultCss := enforceDefaultCss s; marker := marker s;
     lastHighlighted := v;
     parentNav := parentNav s; mainNavList := mainNavList s;
     hostCalls := hostCalls s |}.

Definition setParentNav (s : State) (v : list El) : State :=
  {| blockJoiner := blockJoiner s; selected := selected s;
     pendingRenderEvent_ := pendingRenderEvent_ s;
     cooldown_ := cooldown_ s; fontSize_ := fontSize_ s;
     indentPixels_ := indentPixels_ s;
     enforceDefaultCss := enforceDefaultCss s; marker := marker s;
     lastHighlighted := lastHighlighted s;
     parentNav := v; mainNavList := mainNavList s;
     hostCalls := hostCalls s |}.

Definition setMainNavList (s : State) (v : El) : State :=
  {| blockJoiner := blockJoiner s; selected := selected s;
     pendingRenderEvent_ := pendingRenderEvent_ s;
     cooldown_ := cooldown_ s; fontSize_ := fontSize_ s;
     indentPixels_ := indentPixels_ s;
     enforceDefaultCss := enforceDefaultCss s; marker := marker s;
     lastHighlighted := lastHighlighted s;
     parentNav := parentNav s; mainNavList := v;
     hostCalls := hostCalls s |}.

Definition logCalls (s : State) (cs : list Call) : State :=
  {| blockJoiner := blockJoiner s; selected := selected s;
     pendingRenderEvent_ := pendingRenderEvent_ s;
     cooldown_ := cooldown_ s; fontSize_ := fontSize_ s;
     indentPixels_ := indentPixels_ s;
     enforceDefaultCss := enforceDefaultCss s; marker := marker s;
     lastHighlighted := lastHighlighted s;
     parentNav := parentNav s; mainNavList := mainNavList s;
     hostCalls := hostCalls s ++ cs |}.

(** The item makers for fields, inline inputs, mutators and duplication
    ([makeInputItem_], [makeMutatorList_], [makeDuplicateItem_]) build
    editable controls from the host's fields; the views take their results
    as they come. *)
Record Controls := {
  makeInputItem_ : State -> Node -> option El;
  makeMutatorList_ : State -> Node -> list El;
  makeDuplicateItem_ : State -> option Node -> option El
}.

Variable ctl : Controls.

(** [makeGoBackItem_]: climb to the nearest node of type block. *)
Definition makeGoBackItem_ (s : State) (node : Node) : El :=
  let outNode :=
    match out h node with
    | Some o => find (fun n => ASTNodeType_eqb (getType h n) BLOCK)
                  (collect (depth h) (out h) o)
    | None => None
    end in
  addEventListener (ListItemOnclick outNode None)
    (makeTextItem s (str "Go back to " ++ makeNodeLabel outNode)).

(** [makeMoveItem_]. *)
Definition makeMoveItem_ (s : State) (node : Node) : El :=
  addEventListener (MoveItemOnclick node)
    (makeTextItem s
       (if isSome (blockNode (blockJoiner s)) then str "Move me instead"
        else str "Move me and blocks below")).

(** [makeBlockSpecificView_]; [rootNode] is [this.selected] and
    [rootBranch] its [branch] property. *)
Definition makeBlockSpecificView_ (s : State) (rootNode : Node)
  (rootBranch : option Br) : Completion El :=
  match getLocation h rootNode with
  | LBlock b =>
      let showOnBranch :=
        match rootBranch with
        | Some br => key br =? 0
        | None => true
        end in
      let isIfNode := js_eqb (block_type h b) (str "controls_if") in
      let inline :=
        match in_ h rootNode with
        | Some i => if ASTNodeType_eqb (getType h i) PREVIOUS then None else Some i
        | None => None
        end in
      body <- (if isIfNode then makeIfList_ s rootNode rootBranch
               else
                 match inBlock h rootNode with
                 | Some firstNested =>
                     items <- mapM (makeNodeItems_ s)
                                (collect (size h) (nextBlock h) firstNested) ;;
                     Normal (flat_map itemsOf items)
                 | None =>
                     if isSome (connectionNode (blockJoiner s)) then Normal []
                     else makeInnerInputList_ s rootNode
                 end) ;;
      ret <- (if js_eqb (block_type h b) (str "procedures_defreturn")
              then r <- makeReturnItem_ s rootNode ;; Normal [r]
              else Normal []) ;;
      Normal
        (append
           ([makeGoBackItem_ s rootNode]
            ++ (if showOnBranch && negb (isShadow h b)
                then [makeMoveItem_ s rootNode] else [])
            ++ match warningText h b with
               | Some w => [setAttribute (str "style.color")
                              (str "rgb(250, 50, 50)") (makeTextItem s w)]
               | None => []
               end
            ++ match inline with
               | Some i =>
                   if isIfNode then []
                   else flat_map (fun n => optList (makeInputItem_ ctl s n))
                          (collect (size h) nextInlineInput i)
               | None => []
               end
            ++ (if hasMutator h b && (negb isIfNode || showOnBranch)
                then makeMutatorList_ ctl s rootNode else [])
            ++ body ++ ret)
           (createElement s (str "ul")))
  | _ => Throw TypeError
  end.

(** [makeParentItem_]. *)
Definition makeParentItem_ (s : State) (node : option Node) : Completion El :=
  let labelText :=
    makeNodeLabel node
    ++ match node, selected s with
       | None, None => if isSome (blockNode (blockJoiner s))
                       then str " (move mode)" else str " (summary)"
       | _, _ => []
       end in
  let item :=
    appendChild (TextNode (labelText ++ str " > ")) (createElement s (str "b")) in
  coloured <- match node with
              | Some n =>
                  match getLocation h n with
                  | LBlock b =>
                      Normal (setAttribute (str "style.color")
                                (str "hsl(" ++ Z_to_js (getHue h b) ++ str ", 40%, 40%)")
                                item)
                  | _ => Throw TypeError
                  end
              | None => Normal item
              end ;;
  Normal (addEventListener (ListItemOnclick node None)
            (setAttribute (str "aria-label") (str "Jump to " ++ labelText) coloured)).

(** [generateParentNav_]: the new children of the breadcrumb element. *)
Definition boldItem (s : State) (t : jsstring) (hd : Handler Node Block Connection)
  : El :=
  addEventListener hd (appendChild (TextNode t) (createElement s (str "b"))).

Definition generateParentNav_ (s : State) (rootNode : option Node)
  : Completion (list El) :=
  wsItem <- makeParentItem_ s None ;;
  crumbs <- match rootNode with
            | Some r =>
                mapM (fun n => makeParentItem_ s (Some n))
                  (filter (fun n => ASTNodeType_eqb (getType h n) BLOCK)
                     (rev (ancestors h true r)))
            | None => Normal []
            end ;;
  let br := createElement s (str "br") in
  let joiner := blockJoiner s in
  Normal
    ([wsItem] ++ crumbs
     ++ (if isSome (connectionNode joiner) || isSome (blockNode joiner)
         then [br; boldItem s (str "Cancel Move") CancelMove] else [])
     ++ match blockNode joiner, selected s with
        | Some bn, None =>
            [br]
            ++ (if isSome (prev h bn)
                then [boldItem s (str "Delete me") (DeleteMoving bn); br;
                      boldItem s (str "Start new stack") StartNewStack]
                else [])
            ++ match makeDuplicateItem_ ctl s (Some bn) with
               | Some d => [br; d]
               | None => []
               end
        | _, _ => []
        end).

(** [applyNavStyle_]: every element below the list except the spans. *)
Definition navStyle (pixels : Z) (tag : jsstring)
  (attrs : list (jsstring * jsstring)) : list (jsstring * jsstring) :=
  if js_eqb tag (str "span") then attrs
  else setStyleLength (str "style.padding-inline-start") pixels (str "px")
         (setKey (str "style.list-style-type") (str "none") attrs).

Fixpoint styleNav (pixels : Z) (e : Elem Node Block Connection)
  : Elem Node Block Connection :=
  match e with
  | TextNode t => TextNode t
  | Element tag attrs ls cs =>
      Element tag (navStyle pixels tag attrs) ls (map (styleNav pixels) cs)
  end.

Definition applyNavStyle_ (s : State) : State :=
  let pixels := indentPixels_ s in
  setMainNavList s
    match mainNavList s with
    | TextNode t => TextNode t
    | Element tag attrs ls cs => Element tag attrs ls (map (styleNav pixels) cs)
    end.

(** A call that changes the host: logged, and an exception if the host
    answers with one. *)
Definition hostCall (s : State) (c : Call) : Completion unit * State :=
  match respond h (hostCalls s) c with
  | Returns => (Normal tt, logCalls s [c])
  | _ => (Throw HostError, logCalls s [c])
  end.

(** [clearHighlighted] and [highlightBlock]. *)
Definition clearHighlighted (s : State) : Completion unit * State :=
  match lastHighlighted s with
  | Some l => hostCall s (HSetHighlighted l false)
  | None => (Normal tt, s)
  end.

Definition highlightBlock (s : State) (block : option Loc)
  : Completion unit * State :=
  match clearHighlighted s with
  | (Normal _, s1) =>
      match block with
      | Some l =>
          match hostCall s1 (HSetHighlighted l true) with
          | (Normal _, s2) => (Normal tt, setLastHighlighted s2 block)
          | (Throw e, s2) => (Throw e, s2)
          end
      | None => (Normal tt, setLastHighlighted s1 block)
      end
  | (Throw e, s1) => (Throw e, s1)
  end.

(** The part of [generateList_] after the event has been dealt with:
    breadcrumbs, then the view, swapped in at once. *)
Definition renderViews (s : State) : Completion unit * State :=
  match generateParentNav_ s (selectedNode s) with
  | Throw e =>
      (Throw e, setParentNav s match makeParentItem_ s None with
                               | Normal w => [w]
                               | Throw _ => []
                               end)
  | Normal nav =>
      let s1 := setParentNav s nav in
      let view :=
        match selected s1 with
        | Some (n, br) =>
            v <- makeBlockSpecificView_ s1 n br ;; Normal (v, s1)
        | None => makeWorkspaceView_ s1
        end in
      match view with
      | Throw e => (Throw e, s1)
      | Normal (newDiv, s2) =>
          let s3 := setMainNavList s2
                      (setAttribute (str "id") (str "mainNavList") newDiv) in
          (Normal tt, if enforceDefaultCss s3 then applyNavStyle_ s3 else s3)
      end
  end.

(** The branch of [generateList_] for an empty workspace. *)
Definition showEmptyWorkspace (s : State) : State :=
  setMainNavList (setParentNav s [TextNode (str "(empty workspace)")])
    match mainNavList s with
    | TextNode t => TextNode t
    | Element tag attrs ls _ => Element tag attrs ls []
    end.

Definition workspaceIsEmpty : bool :=
  match getAllBlocks h with
  | [] => true
  | _ :: _ => false
  end.

(** [generateList_()] without an event, as the click handlers call it. *)
Definition generateList_0 (s : State) : Completion unit * State :=
  if workspaceIsEmpty then (Normal tt, showEmptyWorkspace s)
  else renderViews s.

(** [listItemOnclick_]. *)
Definition listItemOnclick_ (s : State) (node : option Node) (branch : option Br)
  : Completion unit * State :=
  match highlightBlock s (option_map (getLocation h) node) with
  | (Normal _, s1) =>
      generateList_0 (setSelected s1 (option_map (fun n => (n, branch)) node))
  | (Throw e, s1) => (Throw e, s1)
  end.

(** [startEventCooldown_]; [now] is what [new Date().getTime()] returns. *)
Definition startEventCooldown_ (s : State) (now : Z) : State :=
  setCooldown_ s (VNum (now + 100)).

(** [alterSelectedWithEvent_].  The clock is read once on entry ([now]) and
    once more when a cooldown starts ([now']).  A click on a block that the
    workspace no longer has hands null to [createBlockNode], which the host
    refuses. *)
Definition blockNodeById (id : option jsstring) : option Node :=
  match id with
  | Some i => option_map (createBlockNode h) (getBlockById h i)
  | None => None
  end.

Definition falsyString (o : option jsstring) : bool :=
  match o with
  | None | Some [] => true
  | Some (_ :: _) => false
  end.

Definition alterSelectedWithEvent_ (s : State) (e : Event) (now now' : Z)
  : Completion unit * State :=
  let s1 :=
    setCooldown_ s
      (if truthy (cooldown_ s) then VBool (lessThan (cooldown_ s) now)
       else cooldown_ s) in
  match ev_type e with
  | BLOCK_MOVE =>
      if truthy (cooldown_ s1) then (Normal tt, s1)
      else listItemOnclick_ s1 (blockNodeById (ev_blockId e)) None
  | BLOCK_CREATE =>
      let node := blockNodeById (ev_blockId e) in
      listItemOnclick_ (if isSome node then startEventCooldown_ s1 now' else s1)
        node None
  | UI =>
      let isSelection :=
        sameId (ev_element e) (Some (str "selected"))
        || sameId (ev_element e) (Some (str "click")) in
      if negb isSelection then listItemOnclick_ s1 (selectedNode s1) None
      else if falsyString (ev_blockId e) then listItemOnclick_ s1 None None
      else
        match blockNodeById (ev_blockId e) with
        | Some node => listItemOnclick_ s1 (Some node) None
        | None => (Throw HostError, s1)
        end
  | BLOCK_DELETE | FINISHED_LOADING => listItemOnclick_ s1 None None
  | OTHER_EVENT => listItemOnclick_ s1 None None
  end.

(** [generateList_]. *)
Definition generateList_ (s : State) (e : option Event) (now now' : Z)
  : Completion unit * State :=
  if workspaceIsEmpty then (Normal tt, showEmptyWorkspace s)
  else
    match e with
    | Some ev =>
        match alterSelectedWithEvent_ s ev now now' with
        | (Normal _, s1) => renderViews s1
        | (Throw x, s1) => (Throw x, s1)
        end
    | None => renderViews s
    end.

(** [moveItemOnclick_]: whatever is thrown is caught and logged. *)
Definition moveItemOnclick_ (s : State) (node : Node) : State :=
  let '(c, j, calls) := push h (blockJoiner s) node in
  let s1 := logCalls (setBlockJoiner s j) calls in
  match c with
  | Normal true => snd (generateList_0 (setSelected s1 None))
  | _ => s1
  end.

(** [onChange]: the event becomes the pending one and a timer is started;
    [timerFired] is the callback that the timer runs 100 ms later.  The
    promise is resolved with the event, rejected, or left pending when the
    render throws. *)
Inductive PromiseState :=
| Resolved (e : option Event)
| Rejected (reason : jsstring)
| Pending.

Definition onChange (s : State) (e : option Event) : State :=
  setPendingRenderEvent_ s e.

Definition timerFired (s : State) (e : option Event) (now now' : Z)
  : PromiseState * State :=
  if sameEvent (pendingRenderEvent_ s) e then
    match generateList_ (setPendingRenderEvent_ s None) e now now' with
    | (Normal _, s1) => (Resolved e, s1)
    | (Throw _, s1) => (Pending, s1)
    end
  else (Rejected (str "skipped render"), s).

End Linearization.

Arguments State : clear implicits.
Arguments Controls : clear implicits.
Arguments BlockJoiner : clear implicits.

(** ** The event loop around [onChange] *)

Section EventLoop.

Context {Node Block Connection : Type}.

(** The workspace as the host presents it at each time. *)
Variable world : Z -> Host Node Block Connection.
Variable ctl : Controls Node Block Connection.

Let St := State Node Block Connection.

(** Modelled from the spec: [setTimeout], "a notification schedules a
    callback to fire after a fixed delay"; the callbacks run one at a time,
    in the order of their due times, each to completion. *)
Record Timer := {
  due : Z;
  timer_event : option Event
}.

(** The linearization, the timers that wait, and the promises settled so
    far, oldest first. *)
Record Loop := {
  lin : St;
  timers : list Timer;
  settled : list PromiseState
}.

Definition fire (l : Loop) (t : Timer) : Loop :=
  let '(p, s') := timerFired (world (due t)) ctl (lin l) (timer_event t)
                    (due t) (due t) in
  {| lin := s'; timers := timers l; settled := settled l ++ [p] |}.

(** Run the callbacks that are due at time [now], oldest first. *)
Fixpoint fireDue (now : Z) (queue : list Timer) (l : Loop) : Loop :=
  match queue with
  | [] => {| lin := lin l; timers := []; settled := settled l |}
  | t :: rest =>
      if due t <=? now then fireDue now rest (fire l t)
      else {| lin := lin l; timers := t :: rest; settled := settled l |}
  end.

(** A change notification at time [now]: [onChange] runs after the
    callbacks that were due. *)
Definition notify (l : Loop) (now : Z) (e : option Event) : Loop :=
  let l1 := fireDue now (timers l) l in
  {| lin := onChange (lin l1) e;
     timers := timers l1 ++ [ {| due := now + 100; timer_event := e |} ];
     settled := settled l1 |}.

Fixpoint notifyAll (l : Loop) (burst : list (Z * Event)) : Loop :=
  match burst with
  | [] => l
  | (t, e) :: rest => notifyAll (notify l t (Some e)) rest
  end.

(** Let every waiting callback run. *)
Definition drain (l : Loop) : Loop :=
  fold_left fire (timers l)
    {| lin := lin l; timers := []; settled := settled l |}.

(** A burst that follows a notification at time [prev]: each notification
    arrives less than 100 ms after the one before it. *)
Fixpoint withinWindow (prev : Z) (burst : list (Z * Event)) : Prop :=
  match burst with
  | [] => True
  | (t, _) :: rest => prev <= t < prev + 100 /\ withinWindow t rest
  end.

End EventLoop.

(** ** A workspace to run the code on

    Three stacks.  The first is a repeat block [A] around a repeat block [B]
    around a print block [C]; the second an if block [I] with an else-if and
    an else arm, every condition and body empty; the third a function
    definition [F], which has no previous and no next connection. *)

Module Demo.

Inductive ENode :=
| ws | st1 | st2 | st3
| A_prev | A_blk | A_do | A_next
| B_prev | B_blk | B_do | B_next
| C_prev | C_blk | C_next
| I_prev | I_blk | I_if0 | I_do0 | I_if1 | I_do1 | I_else | I_next
| F_blk | F_do.

Inductive EBlock := bA | bB | bC | bI | bF.

Inductive EConn :=
| cA_prev | cA_do | cA_next
| cB_prev | cB_do | cB_next
| cC_prev | cC_next
| cI_prev | cI_if0 | cI_do0 | cI_if1 | cI_do1 | cI_else | cI_next
| cF_do.

Definition ENode_eq_dec (a b : ENode) : {a = b} + {a <> b}.
Proof. decide equality. Defined.

Definition EBlock_eq_dec (a b : EBlock) : {a = b} + {a <> b}.
Proof. decide equality. Defined.

Definition EConn_eq_dec (a b : EConn) : {a = b} + {a <> b}.
Proof. decide equality. Defined.

Definition e_getType (n : ENode) : ASTNodeType :=
  match n with
  | ws => WORKSPACE
  | st1 | st2 | st3 => STACK
  | A_prev | B_prev | C_prev | I_prev => PREVIOUS
  | A_blk | B_blk | C_blk | I_blk | F_blk => BLOCK
  | A_do | B_do | I_if0 | I_do0 | I_if1 | I_do1 | I_else | F_do => INPUT
  | A_next | B_next | C_next | I_next => NEXT
  end.

Definition e_getLocation (n : ENode) : Location EBlock EConn :=
  match n with
  | ws => LOther
  | st1 => LBlock bA | st2 => LBlock bI | st3 => LBlock bF
  | A_prev => LConnection cA_prev | A_blk => LBlock bA
  | A_do => LConnection cA_do | A_next => LConnection cA_next
  | B_prev => LConnection cB_prev | B_blk => LBlock bB
  | B_do => LConnection cB_do | B_next => LConnection cB_next
  | C_prev => LConnection cC_prev | C_blk => LBlock bC
  | C_next => LConnection cC_next
  | I_prev => LConnection cI_prev | I_blk => LBlock bI
  | I_if0 => LConnection cI_if0 | I_do0 => LConnection cI_do0
  | I_if1 => LConnection cI_if1 | I_do1 => LConnection cI_do1
  | I_else => LConnection cI_else | I_next => LConnection cI_next
  | F_blk => LBlock bF | F_do => LConnection cF_do
  end.

Definition e_next (n : ENode) : option ENode :=
  match n with
  | st1 => Some st2 | st2 => Some st3
  | A_prev => Some A_blk | A_blk => Some A_next
  | B_prev => Some B_blk | B_blk => Some B_next
  | C_prev => Some C_blk | C_blk => Some C_next
  | I_prev => Some I_blk | I_blk => Some I_next
  | I_if0 => Some I_do0 | I_do0 => Some I_if1
  | I_if1 => Some I_do1 | I_do1 => Some I_else
  | _ => None
  end.

Definition e_prev (n : ENode) : option ENode :=
  match n with
  | st2 => Some st1 | st3 => Some st2
  | A_blk => Some A_prev | A_next => Some A_blk
  | B_prev => Some A_do | B_blk => Some B_prev | B_next => Some B_blk
  | C_prev => Some B_do | C_blk => Some C_prev | C_next => Some C_blk
  | I_blk => Some I_prev | I_next => Some I_blk
  | I_do0 => Some I_if0 | I_if1 => Some I_do0
  | I_do1 => Some I_if1 | I_else => Some I_do1
  | _ => None
  end.

Definition e_in (n : ENode) : option ENode :=
  match n with
  | ws => Some st1
  | st1 => Some A_prev | st2 => Some I_prev | st3 => Some F_blk
  | A_blk => Some A_do | A_do => Some B_prev
  | B_blk => Some B_do | B_do => Some C_prev
  | I_blk => Some I_if0
  | F_blk => Some F_do
  | _ => None
  end.

Definition e_out (n : ENode) : option ENode :=
  match n with
  | ws => None
  | st1 | st2 | st3 => Some ws
  | A_prev | A_blk | A_next => Some st1
  | A_do => Some A_blk
  | B_prev | B_blk | B_next => Some A_do
  | B_do => Some B_blk
  | C_prev | C_blk | C_next => Some B_do
  | I_prev | I_blk | I_next => Some st2
  | I_if0 | I_do0 | I_if1 | I_do1 | I_else => Some I_blk
  | F_blk => Some st3
  | F_do => Some F_blk
  end.

Definition e_nextBlock (n : ENode) : option ENode :=
  match n with
  | A_prev => Some A_blk | B_prev => Some B_blk
  | C_prev => Some C_blk | I_prev => Some I_blk
  | _ => None
  end.

Definition e_inBlock (n : ENode) : option ENode :=
  match n with
  | A_blk => Some B_blk
  | B_blk => Some C_blk
  | _ => None
  end.

Definition e_depth (n : ENode) : nat :=
  match n with
  | ws => 0
  | st1 | st2 | st3 => 1
  | A_blk | I_blk | F_blk => 2
  | A_prev | A_do | A_next | I_prev | I_if0 | I_do0 | I_if1 | I_do1 | I_else
  | I_next | F_do => 3
  | B_blk => 4
  | B_prev | B_do | B_next => 5
  | C_blk => 6
  | C_prev | C_next => 7
  end%nat.

(** The nodes in document order, counted from the end. *)
Definition e_size (n : ENode) : nat :=
  match n with
  | ws => 24 | st1 => 23 | A_prev => 22 | A_blk => 21 | A_do => 20
  | B_prev => 19 | B_blk => 18 | B_do => 17 | C_prev => 16 | C_blk => 15
  | C_next => 14 | B_next => 13 | A_next => 12 | st2 => 11 | I_prev => 10
  | I_blk => 9 | I_if0 => 8 | I_do0 => 7 | I_if1 => 6 | I_do1 => 5
  | I_else => 4 | I_next => 3 | st3 => 2 | F_blk => 1 | F_do => 0
  end%nat.

Definition e_nodeOfBlock (b : EBlock) : ENode :=
  match b with
  | bA => A_blk | bB => B_blk | bC => C_blk | bI => I_blk | bF => F_blk
  end.

Definition e_nodeOfConn (c : EConn) : ENode :=
  match c with
  | cA_prev => A_prev | cA_do => A_do | cA_next => A_next
  | cB_prev => B_prev | cB_do => B_do | cB_next => B_next
  | cC_prev => C_prev | cC_next => C_next
  | cI_prev => I_prev | cI_if0 => I_if0 | cI_do0 => I_do0
  | cI_if1 => I_if1 | cI_do1 => I_do1 | cI_else => I_else | cI_next => I_next
  | cF_do => F_do
  end.

Definition e_source (c : EConn) : EBlock :=
  match c with
  | cA_prev | cA_do | cA_next => bA
  | cB_prev | cB_do | cB_next => bB
  | cC_prev | cC_next => bC
  | cI_prev | cI_if0 | cI_do0 | cI_if1 | cI_do1 | cI_else | cI_next => bI
  | cF_do => bF
  end.

Definition e_block_id (b : EBlock) : jsstring :=
  match b with
  | bA => str "a" | bB => str "b" | bC => str "c" | bI => str "i" | bF => str "f"
  end.

Definition e_getBlockById (id : jsstring) : option EBlock :=
  find (fun b => js_eqb (e_block_id b) id) [bA; bB; bC; bI; bF].

Definition e_block_type (b : EBlock) : jsstring :=
  match b with
  | bA | bB => str "controls_repeat_ext"
  | bC => str "text_print"
  | bI => str "controls_if"
  | bF => str "procedures_defnoreturn"
  end.

Definition e_getParent (b : EBlock) : option EBlock :=
  match b with
  | bB => Some bA
  | bC => Some bB
  | _ => None
  end.

Definition e_getRootBlock (b : EBlock) : EBlock :=
  match b with
  | bA | bB | bC => bA
  | bI => bI
  | bF => bF
  end.

Definition e_makeAriaLabel (b : EBlock) : jsstring :=
  match b with
  | bA => str "repeat 10 times"
  | bB => str "repeat 3 times"
  | bC => str "print abc"
  | bI => str "if, else if, else"
  | bF => str "function do something"
  end.

Definition e_conn_id (c : EConn) : jsstring :=
  match c with
  | cA_prev => str "a0" | cA_do => str "a1" | cA_next => str "a2"
  | cB_prev => str "b0" | cB_do => str "b1" | cB_next => str "b2"
  | cC_prev => str "c0" | cC_next => str "c2"
  | cI_prev => str "i0" | cI_if0 => str "i1" | cI_do0 => str "i2"
  | cI_if1 => str "i3" | cI_do1 => str "i4" | cI_else => str "i5"
  | cI_next => str "i6"
  | cF_do => str "f1"
  end.

(** Value inputs have type 1, statement inputs type 3. *)
Definition e_connParentInputType (c : EConn) : option Z :=
  match c with
  | cI_if0 | cI_if1 => Some 1
  | cA_do | cB_do | cI_do0 | cI_do1 | cI_else | cF_do => Some 3
  | _ => None
  end.

Definition isPrevious (c : EConn) : bool :=
  match c with
  | cA_prev | cB_prev | cC_prev | cI_prev => true
  | _ => false
  end.

Definition isStatementSource (c : EConn) : bool :=
  match c with
  | cA_do | cA_next | cB_do | cB_next | cC_next
  | cI_do0 | cI_do1 | cI_else | cI_next | cF_do => true
  | _ => false
  end.

(** The host's test: a statement input or next connection fits a previous
    connection of another block. *)
Definition e_checkConnection_ (a b : EConn) : bool :=
  (if EBlock_eq_dec (e_source a) (e_source b) then false else true)
  && ((isStatementSource a && isPrevious b) || (isPrevious a && isStatementSource b)).

(** [encloses x y]: block [y] is [x] or sits inside [x]. *)
Definition encloses (x y : EBlock) : bool :=
  match x, y with
  | bA, (bA | bB | bC) | bB, (bB | bC) | bC, bC | bI, bI | bF, bF => true
  | _, _ => false
  end.

(** Connecting a block below one of the blocks it encloses makes the host
    build a circular DOM, which throws a DOMException. *)
Definition e_respond (before : list (HostCall EBlock EConn))
  (c : HostCall EBlock EConn) : Outcome :=
  match c with
  | HConnect (LConnection a) (LConnection b) =>
      if encloses (e_source b) (e_source a) then ThrowsDOMException
      else if e_checkConnection_ a b then Returns else ThrowsError
  | HConnect _ _ => ThrowsError
  | _ => Returns
  end.

Lemma e_out_depth n m : e_out n = Some m -> (e_depth m < e_depth n)%nat.
Proof. destruct n; cbn; intros H; try discriminate; injection H as <-; cbn; lia. Qed.

Lemma e_next_size n m : e_next n = Some m -> (e_size m < e_size n)%nat.
Proof. destruct n; cbn; intros H; try discriminate; injection H as <-; cbn; lia. Qed.

Lemma e_nextBlock_size n m : e_nextBlock n = Some m -> (e_size m < e_size n)%nat.
Proof. destruct n; cbn; intros H; try discriminate; injection H as <-; cbn; lia. Qed.

Lemma e_in_size n m : e_in n = Some m -> (e_size m < e_size n)%nat.
Proof. destruct n; cbn; intros H; try discriminate; injection H as <-; cbn; lia. Qed.

Lemma e_inBlock_size n m : e_inBlock n = Some m -> (e_size m < e_size n)%nat.
Proof. destruct n; cbn; intros H; try discriminate; injection H as <-; cbn; lia. Qed.

Definition host : Host ENode EBlock EConn :=
  {| node_eq_dec := ENode_eq_dec;
     block_eq_dec := EBlock_eq_dec;
     getType := e_getType;
     getLocation := e_getLocation;
     next := e_next;
     prev := e_prev;
     in_ := e_in;
     out := e_out;
     ascend := e_out;
     nextBlock := e_nextBlock;
     inBlock := e_inBlock;
     ancestors := fun _ n => collect e_depth e_out n;
     nodeParentInputType := fun n =>
       match e_getLocation n with
       | LConnection c => e_connParentInputType c
       | _ => None
       end;
     createWorkspaceNode := ws;
     createBlockNode := e_nodeOfBlock;
     createConnectionNode := e_nodeOfConn;
     getAllBlocks := [bA; bB; bC; bI; bF];
     getBlockById := e_getBlockById;
     block_id := e_block_id;
     block_type := e_block_type;
     outputConnection := fun _ => None;
     getParent := e_getParent;
     getRootBlock := e_getRootBlock;
     getSurroundParent := e_getParent;
     makeAriaLabel := e_makeAriaLabel;
     getHue := fun _ => 120;
     isShadow := fun _ => false;
     hasMutator := fun b => match b with bI => true | _ => false end;
     warningText := fun _ => None;
     whileUntilMode := fun _ => [];
     conn_id := e_conn_id;
     getSourceBlock := e_source;
     connParentInputType := e_connParentInputType;
     checkConnection_ := e_checkConnection_;
     respond := e_respond;
     depth := e_depth;
     size := e_size;
     ascend_depth := e_out_depth;
     out_depth := e_out_depth;
     next_size := e_next_size;
     nextBlock_size := e_nextBlock_size;
     in_size := e_in_size;
     inBlock_size := e_inBlock_size |}.

(** The same workspace after every block has been deleted. *)
Definition emptied : Host ENode EBlock EConn :=
  {| node_eq_dec := ENode_eq_dec;
     block_eq_dec := EBlock_eq_dec;
     getType := e_getType;
     getLocation := e_getLocation;
     next := fun _ => None;
     prev := fun _ => None;
     in_ := fun _ => None;
     out := e_out;
     ascend := e_out;
     nextBlock := fun _ => None;
     inBlock := fun _ => None;
     ancestors := fun _ n => collect e_depth e_out n;
     nodeParentInputType := fun _ => None;
     createWorkspaceNode := ws;
     createBlockNode := e_nodeOfBlock;
     createConnectionNode := e_nodeOfConn;
     getAllBlocks := [];
     getBlockById := fun _ => None;
     block_id := e_block_id;
     block_type := e_block_type;
     outputConnection := fun _ => None;
     getParent := e_getParent;
     getRootBlock := e_getRootBlock;
     getSurroundParent := e_getParent;
     makeAriaLabel := e_makeAriaLabel;
     getHue := fun _ => 120;
     isShadow := fun _ => false;
     hasMutator := fun _ => false;
     warningText := fun _ => None;
     whileUntilMode := fun _ => [];
     conn_id := e_conn_id;
     getSourceBlock := e_source;
     connParentInputType := e_connParentInputType;
     checkConnection_ := e_checkConnection_;
     respond := e_respond;
     depth := e_depth;
     size := e_size;
     ascend_depth := e_out_depth;
     out_depth := e_out_depth;
     next_size := fun n m (H : None = Some m) =>
                    match H in (_ = o) return match o with
                                              | Some _ => (e_size m < e_size n)%nat
                                              | None => True
                                              end with eq_refl => I end;
     nextBlock_size := fun n m (H : None = Some m) =>
                    match H in (_ = o) return match o with
                                              | Some _ => (e_size m < e_size n)%nat
                                              | None => True
                                              end with eq_refl => I end;
     in_size := fun n m (H : None = Some m) =>
                    match H in (_ = o) return match o with
                                              | Some _ => (e_size m < e_size n)%nat
                                              | None => True
                                              end with eq_refl => I end;
     inBlock_size := fun n m (H : None = Some m) =>
                    match H in (_ = o) return match o with
                                              | Some _ => (e_size m < e_size n)%nat
                                              | None => True
                                              end with eq_refl => I end |}.

(** No editable controls. *)
Definition controls : Controls ENode EBlock EConn :=
  {| makeInputItem_ := fun _ _ => None;
     makeMutatorList_ := fun _ _ => [];
     makeDuplicateItem_ := fun _ _ => None |}.

(** A freshly constructed linearization, and one with a block picked up. *)
Definition fresh : State ENode EBlock EConn :=
  {| blockJoiner := emptyJoiner;
     selected := None;
     pendingRenderEvent_ := None;
     cooldown_ := VNum 0;
     fontSize_ := 14;
     indentPixels_ := 8;
     enforceDefaultCss := true;
     marker := None;
     lastHighlighted := None;
     parentNav := [];
     mainNavList := Element (str "ul") [] [] [];
     hostCalls := [] |}.

Definition moving (n : ENode) : State ENode EBlock EConn :=
  setBlockJoiner fresh {| blockNode := Some n; connectionNode := None |}.

End Demo.

(** ** A workspace with an if block inside a loop *)

(** One stack: the repeat block [R], and in its body the if block [I] with
    a single arm, whose condition and body are empty. *)

Module Nested.

Inductive ENode :=
| ws | st
| R_prev | R_blk | R_do | R_next
| I_prev | I_blk | I_if0 | I_do0 | I_next.

Inductive EBlock := bR | bI.

Inductive EConn :=
| cR_prev | cR_do | cR_next
| cI_prev | cI_if0 | cI_do0 | cI_next.

Definition ENode_eq_dec (a b : ENode) : {a = b} + {a <> b}.
Proof. decide equality. Defined.

Definition EBlock_eq_dec (a b : EBlock) : {a = b} + {a <> b}.
Proof. decide equality. Defined.

Definition EConn_eq_dec (a b : EConn) : {a = b} + {a <> b}.
Proof. decide equality. Defined.

Definition e_getType (n : ENode) : ASTNodeType :=
  match n with
  | ws => WORKSPACE
  | st => STACK
  | R_prev | I_prev => PREVIOUS
  | R_blk | I_blk => BLOCK
  | R_do | I_if0 | I_do0 => INPUT
  | R_next | I_next => NEXT
  end.

Definition e_getLocation (n : ENode) : Location EBlock EConn :=
  match n with
  | ws => LOther
  | st => LBlock bR
  | R_prev => LConnection cR_prev | R_blk => LBlock bR
  | R_do => LConnection cR_do | R_next => LConnection cR_next
  | I_prev => LConnection cI_prev | I_blk => LBlock bI
  | I_if0 => LConnection cI_if0 | I_do0 => LConnection cI_do0
  | I_next => LConnection cI_next
  end.

Definition e_next (n : ENode) : option ENode :=
  match n with
  | R_prev => Some R_blk | R_blk => Some R_next
  | I_prev => Some I_blk | I_blk => Some I_next
  | I_if0 => Some I_do0
  | _ => None
  end.

Definition e_prev (n : ENode) : option ENode :=
  match n with
  | R_blk => Some R_prev | R_next => Some R_blk
  | I_prev => Some R_do | I_blk => Some I_prev | I_next => Some I_blk
  | I_do0 => Some I_if0
  | _ => None
  end.

Definition e_in (n : ENode) : option ENode :=
  match n with
  | ws => Some st
  | st => Some R_prev
  | R_blk => Some R_do | R_do => Some I_prev
  | I_blk => Some I_if0
  | _ => None
  end.

Definition e_out (n : ENode) : option ENode :=
  match n with
  | ws => None
  | st => Some ws
  | R_prev | R_blk | R_next => Some st
  | R_do => Some R_blk
  | I_prev | I_blk | I_next => Some R_do
  | I_if0 | I_do0 => Some I_blk
  end.

Definition e_nextBlock (n : ENode) : option ENode :=
  match n with
  | R_prev => Some R_blk | I_prev => Some I_blk
  | _ => None
  end.

Definition e_inBlock (n : ENode) : option ENode :=
  match n with
  | R_blk => Some I_blk
  | _ => None
  end.

Definition e_depth (n : ENode) : nat :=
  match n with
  | ws => 0
  | st => 1
  | R_blk => 2
  | R_prev | R_do | R_next => 3
  | I_blk => 4
  | I_prev | I_if0 | I_do0 | I_next => 5
  end%nat.

(** The nodes in document order, counted from the end. *)
Definition e_size (n : ENode) : nat :=
  match n with
  | ws => 10 | st => 9 | R_prev => 8 | R_blk => 7 | R_do => 6
  | I_prev => 5 | I_blk => 4 | I_if0 => 3 | I_do0 => 2 | I_next => 1
  | R_next => 0
  end%nat.

Definition e_nodeOfBlock (b : EBlock) : ENode :=
  match b with
  | bR => R_blk | bI => I_blk
  end.

Definition e_nodeOfConn (c : EConn) : ENode :=
  match c with
  | cR_prev => R_prev | cR_do => R_do | cR_next => R_next
  | cI_prev => I_prev | cI_if0 => I_if0 | cI_do0 => I_do0 | cI_next => I_next
  end.

Definition e_source (c : EConn) : EBlock :=
  match c with
  | cR_prev | cR_do | cR_next => bR
  | cI_prev | cI_if0 | cI_do0 | cI_next => bI
  end.

Definition e_block_id (b : EBlock) : jsstring :=
  match b with
  | bR => str "r" | bI => str "i"
  end.

Definition e_getBlockById (id : jsstring) : option EBlock :=
  find (fun b => js_eqb (e_block_id b) id) [bR; bI].

Definition e_block_type (b : EBlock) : jsstring :=
  match b with
  | bR => str "controls_repeat_ext"
  | bI => str "controls_if"
  end.

Definition e_getParent (b : EBlock) : option EBlock :=
  match b with
  | bI => Some bR
  | bR => None
  end.

Definition e_makeAriaLabel (b : EBlock) : jsstring :=
  match b with
  | bR => str "repeat 10 times"
  | bI => str "if"
  end.

Definition e_conn_id (c : EConn) : jsstring :=
  match c with
  | cR_prev => str "r0" | cR_do => str "r1" | cR_next => str "r2"
  | cI_prev => str "i0" | cI_if0 => str "i1" | cI_do0 => str "i2"
  | cI_next => str "i3"
  end.

(** Value inputs have type 1, statement inputs type 3. *)
Definition e_connParentInputType (c : EConn) : option Z :=
  match c with
  | cI_if0 => Some 1
  | cR_do | cI_do0 => Some 3
  | _ => None
  end.

Definition isPrevious (c : EConn) : bool :=
  match c with
  | cR_prev | cI_prev => true
  | _ => false
  end.

Definition isStatementSource (c : EConn) : bool :=
  match c with
  | cR_do | cR_next | cI_do0 | cI_next => true
  | _ => false
  end.

(** The host's test: a statement input or next connection fits a previous
    connection of another block. *)
Definition e_checkConnection_ (a b : EConn) : bool :=
  (if EBlock_eq_dec (e_source a) (e_source b) then false else true)
  && ((isStatementSource a && isPrevious b) || (isPrevious a && isStatementSource b)).

(** [encloses x y]: block [y] sits inside [x]. *)
Definition encloses (x y : EBlock) : bool :=
  match x, y with
  | bR, bI => true
  | _, _ => false
  end.

(** Connecting a block below a block that sits inside it makes the host
    build a circular DOM, which throws a DOMException. *)
Definition e_respond (before : list (HostCall EBlock EConn))
  (c : HostCall EBlock EConn) : Outcome :=
  match c with
  | HConnect (LConnection a) (LConnection b) =>
      if encloses (e_source b) (e_source a) then ThrowsDOMException
      else if e_checkConnection_ a b then Returns else ThrowsError
  | HConnect _ _ => ThrowsError
  | _ => Returns
  end.

Lemma n_out_depth n m : e_out n = Some m -> (e_depth m < e_depth n)%nat.
Proof. destruct n; cbn; intros H; try discriminate; injection H as <-; cbn; lia. Qed.

Lemma n_next_size n m : e_next n = Some m -> (e_size m < e_size n)%nat.
Proof. destruct n; cbn; intros H; try discriminate; injection H as <-; cbn; lia. Qed.

Lemma n_nextBlock_size n m : e_nextBlock n = Some m -> (e_size m < e_size n)%nat.
Proof. destruct n; cbn; intros H; try discriminate; injection H as <-; cbn; lia. Qed.

Lemma n_in_size n m : e_in n = Some m -> (e_size m < e_size n)%nat.
Proof. destruct n; cbn; intros H; try discriminate; injection H as <-; cbn; lia. Qed.

Lemma n_inBlock_size n m : e_inBlock n = Some m -> (e_size m < e_size n)%nat.
Proof. destruct n; cbn; intros H; try discriminate; injection H as <-; cbn; lia. Qed.

Definition host : Host ENode EBlock EConn :=
  {| node_eq_dec := ENode_eq_dec;
     block_eq_dec := EBlock_eq_dec;
     getType := e_getType;
     getLocation := e_getLocation;
     next := e_next;
     prev := e_prev;
     in_ := e_in;
     out := e_out;
     ascend := e_out;
     nextBlock := e_nextBlock;
     inBlock := e_inBlock;
     ancestors := fun _ n => collect e_depth e_out n;
     nodeParentInputType := fun n =>
       match e_getLocation n with
       | LConnection c => e_connParentInputType c
       | _ => None
       end;
     createWorkspaceNode := ws;
     createBlockNode := e_nodeOfBlock;
     createConnectionNode := e_nodeOfConn;
     getAllBlocks := [bR; bI];
     getBlockById := e_getBlockById;
     block_id := e_block_id;
     block_type := e_block_type;
     outputConnection := fun _ => None;
     getParent := e_getParent;
     getRootBlock := fun _ => bR;
     getSurroundParent := e_getParent;
     makeAriaLabel := e_makeAriaLabel;
     getHue := fun _ => 120;
     isShadow := fun _ => false;
     hasMutator := fun b => match b with bI => true | _ => false end;
     warningText := fun _ => None;
     whileUntilMode := fun _ => [];
     conn_id := e_conn_id;
     getSourceBlock := e_source;
     connParentInputType := e_connParentInputType;
     checkConnection_ := e_checkConnection_;
     respond := e_respond;
     depth := e_depth;
     size := e_size;
     ascend_depth := n_out_depth;
     out_depth := n_out_depth;
     next_size := n_next_size;
     nextBlock_size := n_nextBlock_size;
     in_size := n_in_size;
     inBlock_size := n_inBlock_size |}.

(** No editable controls. *)
Definition controls : Controls ENode EBlock EConn :=
  {| makeInputItem_ := fun _ _ => None;
     makeMutatorList_ := fun _ _ => [];
     makeDuplicateItem_ := fun _ _ => None |}.

(** A freshly constructed linearization. *)
Definition fresh : State ENode EBlock EConn :=
  {| blockJoiner := emptyJoiner;
     selected := None;
     pendingRenderEvent_ := None;
     cooldown_ := VNum 0;
     fontSize_ := 14;
     indentPixels_ := 8;
     enforceDefaultCss := true;
     marker := None;
     lastHighlighted := None;
     parentNav := [];
     mainNavList := Element (str "ul") [] [] [];
     hostCalls := [] |}.

(** The arm of [I], as [getIfBranches] describes it. *)
Definition arm : Branch ENode EBlock EConn :=
  {| key := 0; branch_type := 1; text := str "if";
     condIndex := Some 0; condConnection := Some (LConnection cI_if0);
     condNode := None; bodyIndex := 1;
     bodyConnection := LConnection cI_do0; bodyNode := None |}.

(** Four clicks: the list is rendered, the user opens [R], clicks its
    "Move me", opens the arm of [I], and is shown its view. *)
Definition rendered : State ENode EBlock EConn :=
  snd (generateList_0 host controls fresh).

Definition openedR : State ENode EBlock EConn :=
  snd (listItemOnclick_ host controls rendered (Some R_blk) None).

Definition heldR : State ENode EBlock EConn :=
  moveItemOnclick_ host controls openedR R_blk.

Definition openedI : State ENode EBlock EConn :=
  snd (listItemOnclick_ host controls heldR (Some I_blk) (Some arm)).

End Nested.

(** * The vocabulary of the properties *)

(** ** Walks of the cursor *)

Section Walks.

Context {Node : Type}.
Variable fn : Node -> option Node.

(** [Reaches n k]: [k] is [n] or comes after it under [fn]. *)
Inductive Reaches : Node -> Node -> Prop :=
| reaches_here n : Reaches n n
| reaches_step n m k : fn n = Some m -> Reaches m k -> Reaches n k.

End Walks.

(** ** The controls of a view *)

Section ViewControls.

Context {Node Block Connection : Type}.

(** The handlers bound in a piece of the page, in document order. *)
Fixpoint listenersIn (e : Elem Node Block Connection)
  : list (Handler Node Block Connection) :=
  match e with
  | TextNode _ => []
  | Element _ _ ls cs => ls ++ flat_map listenersIn cs
  end.

End ViewControls.

(** ** The block joiner and the compatibility check *)

Section JoinerVocabulary.

Context {Node Block Connection : Type}.
Variable h : Host Node Block Connection.

(** The ancestor chain of a node: the node and what [ascend] leads to. *)
Definition Ancestor : Node -> Node -> Prop := Reaches (ascend h).

(** The first statement of [checkConnection], inside its [try]: what is
    left when the host's test returns without throwing, the target node and
    the source block of the candidate connection. *)
Definition hostTestPasses (conn blockConn : option Node)
  : option (Node * Block) :=
  match conn, blockConn with
  | Some c, Some bc =>
      match getLocation h c, getLocation h bc with
      | LConnection cc, LConnection bcc =>
          if checkConnection_ h cc bcc then Some (c, getSourceBlock h bcc)
          else None
      | _, _ => None
      end
  | _, _ => None
  end.

Definition callsOf {A} (r : A * BlockJoiner Node * list (HostCall Block Connection))
  : list (HostCall Block Connection) := snd r.

Definition joinerOf {A} (r : A * BlockJoiner Node * list (HostCall Block Connection))
  : BlockJoiner Node := snd (fst r).

Definition isConnect (c : HostCall Block Connection) : bool :=
  match c with
  | HConnect _ _ => true
  | _ => false
  end.

(** The moving block is among the ancestor blocks of the target. *)
Definition movesOntoDescendant (j : BlockJoiner Node) : Prop :=
  exists provided cnode b,
    blockNode j = Some provided /\ connectionNode j = Some cnode /\
    getLocation h provided = LBlock b /\
    includesBlock h (parentBlocks h cnode) b = true.

(** What the design asks of the service step: such a move is a no-op, and
    no connect call reaches the host. *)
Definition cycleRejected (j : BlockJoiner Node) : Prop :=
  movesOntoDescendant j ->
  existsb isConnect (callsOf (attemptConnection_ h j)) = false.

End JoinerVocabulary.

(** ** A creation followed by a move *)

Module Cooldown.

(** The block [F] is created and the event is handled at time 1000. *)
Definition createF : Event :=
  {| ev_ref := 1; ev_type := BLOCK_CREATE;
     ev_blockId := Some (str "f"); ev_element := None |}.

(** The block [C] is moved. *)
Definition moveC : Event :=
  {| ev_ref := 2; ev_type := BLOCK_MOVE;
     ev_blockId := Some (str "c"); ev_element := None |}.

Definition afterCreate : State Demo.ENode Demo.EBlock Demo.EConn :=
  snd (alterSelectedWithEvent_ Demo.host Demo.controls Demo.fresh createF 1000 1000).

End Cooldown.

(** ** Stack markers *)

(** A marker: one or more capital letters. *)
Definition isMarker (m : jsstring) : Prop := m <> [] /\ Forall upper m.

(** The marker of the stack at position [k], counting from 0. *)
Definition markerAt (k : nat) : jsstring := Nat.iter k nextStackMarker (str "A").

(** What the design says of the markers: each one comes before the next in
    the order of [<] on strings. *)
Definition markersLexIncreasing : Prop :=
  forall k, lex_lt (markerAt k) (markerAt (S k)) = true.

(** ** Insert controls of the arms of an if block *)

Section IfArmVocabulary.

Context {Node Block Connection : Type}.
Variable h : Host Node Block Connection.

Let St := State Node Block Connection.
Let Br := Branch Node Block Connection.
Let El := Elem Node Block Connection.

(** The insert control bound to the body connection [c] of [branch]. *)
Definition insertControl (s : St) (branch : Br) (c : Connection) : El :=
  makeConnectionItem_ h s (createConnectionNode h c)
    (str "Insert within " ++ text branch).

(** What the design says of the whole-workspace view: while a block is
    being moved, the list of every empty arm holds the insert control of
    that arm. *)
Definition insertOfferedInWorkspaceView (s : St) (node : Node)
  (rootBlock : Location Block Connection) : Prop :=
  forall fuel items branches branch c,
    isSome (blockNode (blockJoiner s)) = true ->
    makeBlockList_ h fuel s node rootBlock = Normal items ->
    getIfBranches h node = Normal branches ->
    In branch branches -> bodyNode branch = None ->
    bodyConnection branch = LConnection c ->
    exists ul, In ul items /\ In (insertControl s branch c) (childrenOf ul).

End IfArmVocabulary.

(** ** Bursts of notifications *)

Section BurstVocabulary.

Context {Node Block Connection : Type}.

Definition skipped : PromiseState := Rejected (str "skipped render").

Definition refs (burst : list (Z * Event)) : list nat :=
  map (fun x => ev_ref (snd x)) burst.

(** A waiting callback whose event is none of the events in [avoid]. *)
Definition stale (avoid : list nat) (t : Timer) : Prop :=
  exists e0, timer_event t = Some e0 /\ ~ In (ev_ref e0) avoid.

End BurstVocabulary.

Module Burst.

(** Three notifications, 60 and 70 ms apart: [A] is moved twice, then [C]
    is clicked. *)
Definition e1 : Event :=
  {| ev_ref := 1; ev_type := BLOCK_MOVE;
     ev_blockId := Some (str "a"); ev_element := None |}.

Definition e2 : Event :=
  {| ev_ref := 2; ev_type := BLOCK_MOVE;
     ev_blockId := Some (str "a"); ev_element := None |}.

Definition e3 : Event :=
  {| ev_ref := 3; ev_type := UI;
     ev_blockId := Some (str "c"); ev_element := Some (str "click") |}.

Definition start : Loop (Node := Demo.ENode) :=
  {| lin := Demo.fresh; timers := []; settled := [] |}.

Definition world (t : Z) : Host Demo.ENode Demo.EBlock Demo.EConn := Demo.host.

End Burst.

(** ** The tree that the cursor presents *)

Section PresentedTree.

Context {Node Block Connection : Type}.
Variable h : Host Node Block Connection.

Let St := State Node Block Connection.
Let El := Elem Node Block Connection.
Let Loc := Location Block Connection.

(** Modelled from the spec: the block tree below a cursor position, "each
    block has statement/value connections to siblings and children".  A
    position holds a block that is listed, with the positions of all its
    nested bodies below it in document order, or it holds something that the
    guard of [makeBlockList_] turns away. *)
#[warnings="-register-all"] Inductive BlockTree :=
| Listed (node : Node) (block : Block) (nested : list BlockTree)
| Skipped (node : Node).


(** The siblings from [n] on, in forward order. *)
Definition chain (n : Node) : list Node := collect (size h) (nextBlock h) n.

(** The positions nested in the block [b] at [n]: the body chain of every
    arm of an if block, the one body chain of any other block. *)
Definition nestedPositions (n : Node) (b : Block) : list Node :=
  if js_eqb (block_type h b) (str "controls_if") then
    match getIfBranches h n with
    | Normal branches =>
        flat_map (fun br => match bodyNode br with
                            | Some bn => chain bn
                            | None => []
                            end) branches
    | Throw _ => []
    end
  else
    match inBlock h n with
    | Some firstNested => chain firstNested
    | None => []
    end.








End PresentedTree.

Module Forest.

(** The demo workspace as the cursor presents it. *)
Definition stacks : list (Demo.ENode * list (@BlockTree Demo.ENode Demo.EBlock)) :=
  [ (Demo.st1,
     [Listed Demo.A_blk Demo.bA
        [Listed Demo.B_blk Demo.bB [Listed Demo.C_blk Demo.bC []]]]);
    (Demo.st2, [Listed Demo.I_blk Demo.bI []]);
    (Demo.st3, [Listed Demo.F_blk Demo.bF []]) ].

End Forest.

(** ** Blocks listed in the whole-workspace view *)

Section ListedBlocks.

Context {Node Block Connection : Type}.
Variable h : Host Node Block Connection.

Let St := State Node Block Connection.
Let El := Elem Node Block Connection.
Let Br := Branch Node Block Connection.













End ListedBlocks.

(** * More of the linearization *)

(** ** [disconnectBlock], the listeners of the breadcrumb controls and
       the two setters *)

Section JoinerControls.

Context {Node Block Connection : Type}.
Variable h : Host Node Block Connection.
Variable ctl : Controls Node Block Connection.

(** [BlockJoiner.prototype.disconnectBlock]: the two calls and the
    assignment are inside one [try]; whatever is thrown, by a null
    dereference or by the host, is dropped. *)
Definition disconnectBlock (j : BlockJoiner Node)
  : BlockJoiner Node * list (HostCall Block Connection) :=
  match blockNode j with
  | None => (j, [])
  | Some bn =>
      match prev h bn with
      | None => (j, [])
      | Some p =>
          let c := HDisconnect (getLocation h p) in
          match respond h [] c with
          | Returns =>
              let c' := HBumpNeighbours (getLocation h bn) in
              match respond h [c] c' with
              | Returns =>
                  ({| blockNode := None; connectionNode := connectionNode j |},
                   [c; c'])
              | _ => (j, [c; c'])
              end
          | _ => (j, [c])
          end
      end
  end.

(** The click listener of the "Cancel Move" item of [generateParentNav_]. *)
Definition cancelMoveOnclick_ (s : State Node Block Connection)
  : Completion unit * State Node Block Connection :=
  let j := blockJoiner s in
  generateList_0 h ctl
    (setBlockJoiner s
       (if isSome (connectionNode j)
        then {| blockNode := blockNode j; connectionNode := None |}
        else {| blockNode := None; connectionNode := connectionNode j |})).

(** The click listener of the "Start new stack" item. *)
Definition startNewStackOnclick_ (s : State Node Block Connection)
  : State Node Block Connection :=
  let '(j, calls) := disconnectBlock (blockJoiner s) in
  logCalls (setBlockJoiner s j) calls.

Definition withFontSize (s : State Node Block Connection) (v : Z)
  : State Node Block Connection :=
  {| blockJoiner := blockJoiner s; selected := selected s;
     pendingRenderEvent_ := pendingRenderEvent_ s;
     cooldown_ := cooldown_ s; fontSize_ := v;
     indentPixels_ := indentPixels_ s;
     enforceDefaultCss := enforceDefaultCss s; marker := marker s;
     lastHighlighted := lastHighlighted s;
     parentNav := parentNav s; mainNavList := mainNavList s;
     hostCalls := hostCalls s |}.

Definition withIndentPixels (s : State Node Block Connection) (v : Z)
  : State Node Block Connection :=
  {| blockJoiner := blockJoiner s; selected := selected s;
     pendingRenderEvent_ := pendingRenderEvent_ s;
     cooldown_ := cooldown_ s; fontSize_ := fontSize_ s;
     indentPixels_ := v;
     enforceDefaultCss := enforceDefaultCss s; marker := marker s;
     lastHighlighted := lastHighlighted s;
     parentNav := parentNav s; mainNavList := mainNavList s;
     hostCalls := hostCalls s |}.

(** [setFontSize] and [setIndentPixels]. *)
Definition setFontSize (s : State Node Block Connection) (size : Z)
  : Completion unit * State Node Block Connection :=
  generateList_0 h ctl (withFontSize s size).

Definition setIndentPixels (s : State Node Block Connection) (pixels : Z)
  : State Node Block Connection :=
  applyNavStyle_ (withIndentPixels s pixels).

End JoinerControls.

(** ** The earlier [BlockJoiner] *)

Module Legacy.

Section BlockJoiner.

Context {Node Block Connection : Type}.
Variable h : Host Node Block Connection.

(** [back] of [service_]: the switch has no case for an output
    connection. *)
Definition back (t : ASTNodeType) : option (Node -> option Node) :=
  match t with
  | NEXT | INPUT => Some (prev h)
  | PREVIOUS => Some (next h)
  | _ => None
  end.

(** [service_]: nothing is disconnected first, and [connect] is called
    outside any [try]: what the host throws leaves the function before the
    slots are cleared. *)
Definition service_ (j : BlockJoiner Node)
  : Completion unit * BlockJoiner Node * list (HostCall Block Connection) :=
  match blockNode j, connectionNode j with
  | Some provided, Some insertPointNode =>
      match back (getType h insertPointNode) with
      | None => (Normal tt, j, [])
      | Some backfn =>
          match backfn provided with
          | None => (Throw TypeError, j, [])
          | Some b =>
              let c := HConnect (getLocation h insertPointNode) (getLocation h b) in
              match respond h [] c with
              | Returns => (Normal tt, emptyJoiner, [c])
              | _ => (Throw HostError, j, [c])
              end
          end
      end
  | _, _ => (Normal tt, j, [])
  end.

End BlockJoiner.

End Legacy.

(** * More vocabulary *)

(** A marker read as a numeral in the bijective base 26, ['A'] for 1 up to
    ['Z'] for 26. *)
Definition markerValue (m : jsstring) : Z :=
  fold_left (fun acc c => 26 * acc + (c - 64)) m 0.

Definition allZ (m : jsstring) : bool := forallb (fun c => c =? 90) m.

Section RenderVocabulary.

Context {Node Block Connection : Type}.
Variable h : Host Node Block Connection.

(** Everything in a linearization but the page (the breadcrumbs and the
    list) and the stack marker. *)
Definition keptByRender (s : State Node Block Connection) :=
  (blockJoiner s, selected s, pendingRenderEvent_ s, cooldown_ s,
   (fontSize_ s, indentPixels_ s, enforceDefaultCss s),
   lastHighlighted s, hostCalls s).

(** Whether block [b] is highlighted after the calls [calls], none being
    highlighted before: the last [setHighlighted] on [b] decides. *)
Definition highlightedAfter (calls : list (HostCall Block Connection))
  (b : Block) : bool :=
  fold_left
    (fun on c =>
       match c with
       | HSetHighlighted (LBlock b') on' =>
           if block_eq_dec h b' b then on' else on
       | _ => on
       end) calls false.

(** At most one block is highlighted, the one in [lastHighlighted]. *)
Definition oneHighlight (s : State Node Block Connection) : Prop :=
  forall b, highlightedAfter (hostCalls s) b = true ->
            lastHighlighted s = Some (LBlock b).

End RenderVocabulary.

Section PageVocabulary.

Context {Node Block Connection : Type}.

(** [e.getElementsByTagName('*')]: the elements below [e], in document
    order. *)
Fixpoint descendants (e : Elem Node Block Connection)
  : list (Elem Node Block Connection) :=
  match e with
  | TextNode _ => []
  | Element _ _ _ cs =>
      flat_map (fun c => match c with
                         | TextNode _ => []
                         | Element _ _ _ _ => c :: descendants c
                         end) cs
  end.

(** The value of an attribute or style property, if it is set. *)
Fixpoint getKey (k : jsstring) (l : list (jsstring * jsstring))
  : option jsstring :=
  match l with
  | [] => None
  | (k', v) :: l' => if js_eqb k k' then Some v else getKey k l'
  end.

Definition getAttribute (k : jsstring) (e : Elem Node Block Connection)
  : option jsstring :=
  match e with
  | TextNode _ => None
  | Element _ attrs _ _ => getKey k attrs
  end.

(** An element that carries the indent [padding] and no bullet, or a span. *)
Definition indented (padding : jsstring) (e : Elem Node Block Connection)
  : Prop :=
  tagName e = Some (str "span")
  \/ (getAttribute (str "style.padding-inline-start") e = Some padding
      /\ getAttribute (str "style.list-style-type") e = Some (str "none")).

End PageVocabulary.

Section ControlVocabulary.

Context {Node Block Connection : Type}.

(** A listener that navigates: it changes the selection and nothing else. *)
Definition isNavigation (hd : Handler Node Block Connection) : Prop :=
  match hd with
  | ListItemOnclick _ _ => True
  | _ => False
  end.

(** A piece of the page all of whose listeners satisfy [Q]. *)
Definition allListeners (Q : Handler Node Block Connection -> Prop)
  (e : Elem Node Block Connection) : Prop :=
  Forall Q (listenersIn e).

(** A piece of the page whose listeners all navigate. *)
Definition navigationOnly (e : Elem Node Block Connection) : Prop :=
  allListeners isNavigation e.

End ControlVocabulary.

(** A computation that throws nothing but the exceptions in [E]. *)
Definition throwsOnly {A} (E : Exn -> Prop) (c : Completion A) : Prop :=
  forall e, c = Throw e -> E e.

Definition isTypeError (e : Exn) : Prop := e = TypeError.

(** The types of the branches of an if block whose inputs make [n]
    children: an if, then else-ifs, one for each further pair, and an else
    for a child left over. *)
Definition branchTypes (n : nat) : list Z :=
  match Nat.div2 n with
  | O => []
  | S q => 1 :: repeat 2 q
  end ++ (if Nat.odd n then [3] else []).

Definition branchText (t : Z) : jsstring :=
  if t =? 1 then str "if" else if t =? 2 then str "else if" else str "else".

Section EventVocabulary.

Context {Node Block Connection : Type}.
Variable h : Host Node Block Connection.
Variable ctl : Controls Node Block Connection.

(** Events dealt with one after the other by [alterSelectedWithEvent_],
    each at the time that comes with it. *)
Fixpoint handleEvents (s : State Node Block Connection) (l : list (Event * Z))
  : State Node Block Connection :=
  match l with
  | [] => s
  | (e, now) :: l' =>
      handleEvents (snd (alterSelectedWithEvent_ h ctl s e now now)) l'
  end.

End EventVocabulary.

Section SizeVocabulary.

Context {Node Block Connection : Type}.

(** An element and the elements below it. *)
Definition elementsOf (e : Elem Node Block Connection)
  : list (Elem Node Block Connection) :=
  match e with
  | TextNode _ => []
  | Element _ _ _ _ => e :: descendants e
  end.

Definition hasFontSize (size : Z) (e : Elem Node Block Connection) : Prop :=
  getAttribute (str "style.font-size") e = Some (Z_to_js size ++ str "pt").

(** A piece of the page all of whose elements have the font size [size]. *)
Definition sizedAt (size : Z) (e : Elem Node Block Connection) : Prop :=
  Forall (hasFontSize size) (elementsOf e).

End SizeVocabulary.

(** * Properties *)

(** ** Strings and completions *)

Lemma js_eqb_eq (a b : jsstring) : js_eqb a b = true <-> a = b.
Proof.
  revert b. induction a as [|x a IH]; intros [|y b]; cbn;
    try (split; [discriminate|discriminate]); [split; reflexivity|].
  rewrite andb_true_iff, Z.eqb_eq, IH. split.
  - intros [-> ->]. reflexivity.
  - intros H. injection H as -> ->. split; reflexivity.
Qed.

Lemma js_eqb_refl (a : jsstring) : js_eqb a a = true.
Proof. apply js_eqb_eq. reflexivity. Qed.

Lemma Normal_inj {A} (a b : A) : Normal a = Normal b -> a = b.
Proof. intros H. injection H as ->. reflexivity. Qed.

(** ** The cursor walks end *)

Section CollectFacts.

Context {Node : Type}.
Variable measure : Node -> nat.
Variable fn : Node -> option Node.
Hypothesis fn_decreases : forall n m, fn n = Some m -> (measure m < measure n)%nat.

Lemma collect_fuel_stable (f1 f2 : nat) (n : Node) :
  (measure n < f1)%nat -> (measure n < f2)%nat ->
  collect_fuel f1 fn n = collect_fuel f2 fn n.
Proof.
  revert f2 n. induction f1 as [|f1 IH]; intros f2 n H1 H2; [lia|].
  destruct f2 as [|f2]; [lia|]. cbn.
  destruct (fn n) as [m|] eqn:E; [|reflexivity].
  apply fn_decreases in E. f_equal. apply IH; lia.
Qed.

(** With the measure as fuel the walk never stops early. *)
Lemma collect_unfold (n : Node) :
  collect measure fn n =
  n :: match fn n with
       | None => []
       | Some m => collect measure fn m
       end.
Proof.
  unfold collect.
  change (collect_fuel (S (measure n)) fn n)
    with (n :: match fn n with
               | None => []
               | Some m => collect_fuel (measure n) fn m
               end).
  destruct (fn n) as [m|] eqn:E; [|reflexivity].
  f_equal. apply collect_fuel_stable; [|lia].
  apply fn_decreases in E. lia.
Qed.

Lemma in_collect_iff (n k : Node) :
  In k (collect measure fn n) <-> Reaches fn n k.
Proof.
  remember (measure n) as d eqn:Hd. revert n Hd.
  induction d as [d IH] using lt_wf_ind. intros n ->.
  rewrite collect_unfold. split.
  - intros [<-|H]; [constructor|].
    destruct (fn n) as [m|] eqn:E; [|contradiction].
    eapply reaches_step; eauto.
    eapply IH; eauto.
  - intros H. inversion H as [|? m ? E R]; subst; [left; reflexivity|].
    right. rewrite E. eapply IH; eauto.
Qed.

End CollectFacts.

(** ** The connection-compatibility check *)

Section CheckConnection.

Context {Node Block Connection : Type}.
Variable h : Host Node Block Connection.

Lemma includesBlock_true_iff (l : list (Location Block Connection)) (b : Block) :
  includesBlock h l b = true <-> In (LBlock b) l.
Proof.
  unfold includesBlock. rewrite existsb_exists. split.
  - intros [x [Hin Hx]]. destruct x as [b'| |]; try discriminate.
    destruct (block_eq_dec h b' b); [subst; assumption|discriminate].
  - intros Hin. exists (LBlock b). split; [assumption|].
    destruct (block_eq_dec h b b); [reflexivity|congruence].
Qed.

Lemma in_parentBlocks_iff (c : Node) (l : Location Block Connection) :
  In l (parentBlocks h c) <->
  exists k, Ancestor h c k /\ getType h k = BLOCK /\ getLocation h k = l.
Proof.
  unfold parentBlocks. rewrite in_map_iff. split.
  - intros [k [Hl Hin]]. apply filter_In in Hin. destruct Hin as [Hin Ht].
    exists k. repeat split; auto.
    + eapply in_collect_iff; [apply ascend_depth|exact Hin].
    + destruct (getType h k); cbn in Ht; congruence.
  - intros [k [Ha [Ht Hl]]]. exists k. split; [assumption|].
    apply filter_In. split.
    + eapply in_collect_iff; [apply ascend_depth|exact Ha].
    + rewrite Ht. reflexivity.
Qed.

(** C10.  [checkConnection] returns a boolean for every pair of nodes, null
    included, and no exception leaves it.  When the host's compatibility
    test throws the result is false.  When the test passes the result is
    true exactly if no node of type BLOCK in the ancestor chain of the
    target connection points to the source block of the candidate
    connection; in particular a true result means that no ancestor block
    of the target is that source block. *)
Theorem checkConnection_total (conn blockConn : option Node) :
  match hostTestPasses h conn blockConn with
  | None => checkConnection h conn blockConn = false
  | Some (c, src) =>
      checkConnection h conn blockConn = true <->
      (forall k, Ancestor h c k -> getType h k = BLOCK ->
                 getLocation h k <> LBlock src)
  end.
Proof.
  unfold hostTestPasses, checkConnection.
  destruct conn as [c|]; [|reflexivity].
  destruct blockConn as [bc|]; [|reflexivity].
  destruct (getLocation h c) as [?|cc|]; try reflexivity.
  destruct (getLocation h bc) as [?|bcc|]; try reflexivity.
  destruct (checkConnection_ h cc bcc); [|reflexivity].
  rewrite negb_true_iff, <- not_true_iff_false, includesBlock_true_iff.
  rewrite in_parentBlocks_iff. split.
  - intros Hno k Ha Ht Hl. apply Hno. exists k. auto.
  - intros Hall [k [Ha [Ht Hl]]]. exact (Hall k Ha Ht Hl).
Qed.

End CheckConnection.

(** ** The block joiner *)

Section JoinerFacts.

Context {Node Block Connection : Type}.
Variable h : Host Node Block Connection.

(** When the service step gets as far as its slots: both filled, a
    connection node of one of the four connection types, and a neighbour of
    the block node on the side that [back] looks at. *)
Lemma attemptConnection_normal (j : BlockJoiner Node) (provided cnode b : Node)
  (backfn : Node -> option Node) :
  blockNode j = Some provided -> connectionNode j = Some cnode ->
  back h (getType h cnode) = Some backfn -> backfn provided = Some b ->
  attemptConnection_ h j =
  (Normal tt, emptyJoiner,
   detachOld h provided
   ++ connectTo h (detachOld h provided) (getLocation h cnode) (getLocation h b)).
Proof.
  intros Hb Hc Hback Hp. unfold attemptConnection_.
  rewrite Hb, Hc, Hback, Hp. reflexivity.
Qed.

(** The service step makes no cycle check of its own.  With both slots
    filled, a connection node of type NEXT, INPUT, PREVIOUS or OUTPUT and a
    neighbour of the block node on the [back] side, it calls [connect] on
    the target connection with that neighbour's location, whatever the
    ancestor chain of the target holds, and then empties both slots. *)
Lemma attemptConnection_connects (j : BlockJoiner Node)
  (provided cnode b : Node) (backfn : Node -> option Node) :
  blockNode j = Some provided -> connectionNode j = Some cnode ->
  back h (getType h cnode) = Some backfn -> backfn provided = Some b ->
  In (HConnect (getLocation h cnode) (getLocation h b))
     (callsOf (attemptConnection_ h j))
  /\ joinerOf (attemptConnection_ h j) = emptyJoiner.
Proof.
  intros Hb Hc Hback Hp.
  rewrite (attemptConnection_normal j Hb Hc Hback Hp).
  split; [|reflexivity].
  unfold callsOf. cbn [snd]. apply in_or_app. right.
  unfold connectTo. destruct (respond h _ _); left; reflexivity.
Qed.

(** Whenever the service step returns after the switch found one of the
    four connection types, both slots are empty. *)
Lemma attemptConnection_clears (j : BlockJoiner Node) (provided cnode : Node)
  (backfn : Node -> option Node) (j' : BlockJoiner Node)
  (calls : list (HostCall Block Connection)) :
  blockNode j = Some provided -> connectionNode j = Some cnode ->
  back h (getType h cnode) = Some backfn ->
  attemptConnection_ h j = (Normal tt, j', calls) ->
  j' = emptyJoiner.
Proof.
  intros Hb Hc Hback. unfold attemptConnection_. rewrite Hb, Hc, Hback.
  destruct (backfn provided); intros H; inversion H; reflexivity.
Qed.

(** How [push] files an item: a block in the block slot, a connection in
    the connection slot, the other slot kept, and then the service step on
    the result; anything else leaves the joiner alone and returns false. *)
Lemma push_classifies (j : BlockJoiner Node) (item : Node) :
  match getLocation h item with
  | LBlock _ =>
      let j1 := {| blockNode := Some item; connectionNode := connectionNode j |} in
      joinerOf (push h j item) = joinerOf (attemptConnection_ h j1)
      /\ callsOf (push h j item) = callsOf (attemptConnection_ h j1)
      /\ fst (fst (push h j item))
         = (_ <- fst (fst (attemptConnection_ h j1)) ;; Normal true)
  | LConnection _ =>
      let j1 := {| blockNode := blockNode j; connectionNode := Some item |} in
      joinerOf (push h j item) = joinerOf (attemptConnection_ h j1)
      /\ callsOf (push h j item) = callsOf (attemptConnection_ h j1)
      /\ fst (fst (push h j item))
         = (_ <- fst (fst (attemptConnection_ h j1)) ;; Normal true)
  | LOther => push h j item = (Normal false, j, [])
  end.
Proof.
  unfold push. destruct (getLocation h item); cbn zeta; try reflexivity.
  all: destruct (attemptConnection_ h _) as [[r j1] calls]; auto.
Qed.

End JoinerFacts.

(** Handed the outer repeat block [A] of the demo workspace and the next
    connection of the print block [C], two levels inside [A], the service
    step calls [connect]: [A] is among the ancestor blocks of the target. *)
Lemma cycle_not_rejected :
  ~ cycleRejected Demo.host
      {| blockNode := Some Demo.A_blk; connectionNode := Some Demo.C_next |}.
Proof.
  unfold cycleRejected. intros H.
  assert (Hm : movesOntoDescendant Demo.host
                 {| blockNode := Some Demo.A_blk;
                    connectionNode := Some Demo.C_next |}).
  { exists Demo.A_blk, Demo.C_next, Demo.bA. repeat split. }
  specialize (H Hm). vm_compute in H. discriminate.
Qed.

(** C1, where the code falls short of it.  The workspace holds a repeat
    block [R] and, in its body, an if block [I] whose arm is empty.  The
    user opens [R] from the rendered list, clicks "Move me and blocks below"
    in its view, opens the
    arm of [I] and is offered "Insert within if" on the body connection of
    that arm, each control being one that the page shows at that moment.
    [R] is among the ancestor blocks of that connection, and the check that
    the other views make before they offer a target, [checkConnection] on
    the connection and on the neighbour before [R], turns the pair down;
    the view of the if block offers the control without making it.  The
    click runs the service step with both slots filled: no cycle is
    rejected, [connect] is called on the host, the host throws a
    DOMException and the page is reloaded. *)
Theorem cycle_reaches_connect_and_reload :
  In (ListItemOnclick (Some Nested.R_blk) None)
     (listenersIn (mainNavList Nested.rendered))
  /\ In (MoveItemOnclick Nested.R_blk)
       (listenersIn (mainNavList Nested.openedR))
  /\ blockJoiner Nested.heldR
     = {| blockNode := Some Nested.R_blk; connectionNode := None |}
  /\ In (ListItemOnclick (Some Nested.I_blk) (Some Nested.arm))
       (listenersIn (mainNavList Nested.heldR))
  /\ In (MoveItemOnclick Nested.I_do0)
       (listenersIn (mainNavList Nested.openedI))
  /\ movesOntoDescendant Nested.host
       {| blockNode := Some Nested.R_blk; connectionNode := Some Nested.I_do0 |}
  /\ checkConnection Nested.host (Some Nested.I_do0)
       (prev Nested.host Nested.R_blk) = false
  /\ ~ cycleRejected Nested.host
         {| blockNode := Some Nested.R_blk;
            connectionNode := Some Nested.I_do0 |}
  /\ attemptConnection_ Nested.host
       {| blockNode := Some Nested.R_blk; connectionNode := Some Nested.I_do0 |}
     = (Normal tt, emptyJoiner,
        [HConnect (LConnection Nested.cI_do0) (LConnection Nested.cR_prev);
         HReload])
  /\ hostCalls (moveItemOnclick_ Nested.host Nested.controls Nested.openedI
                  Nested.I_do0)
     = hostCalls Nested.openedI
       ++ [HConnect (LConnection Nested.cI_do0) (LConnection Nested.cR_prev);
           HReload].
Proof.
  assert (Hm : movesOntoDescendant Nested.host
                 {| blockNode := Some Nested.R_blk;
                    connectionNode := Some Nested.I_do0 |}).
  { exists Nested.R_blk, Nested.I_do0, Nested.bR. repeat split. }
  split; [vm_compute; left; reflexivity|].
  split; [vm_compute; right; left; reflexivity|].
  split; [vm_compute; reflexivity|].
  split; [vm_compute; right; left; reflexivity|].
  split; [vm_compute; do 3 right; left; reflexivity|].
  split; [exact Hm|].
  split; [vm_compute; reflexivity|].
  split; [|split; vm_compute; reflexivity].
  intros H. specialize (H Hm). vm_compute in H. discriminate.
Qed.

(** C2, where the code falls short of it.  The user has picked up the
    function definition [F], a block without previous or output connection,
    and has opened the if block [I], whose arms are empty.  The view that is
    rendered offers the insert control of the else arm.  Clicking it runs
    the service step with both slots filled: it throws a TypeError at
    [back(provided).getLocation()], and both slots stay filled, in the
    service step and in the linearization after the click. *)
Theorem attemptConnection_throws_with_slots_kept :
  let s := setSelected (Demo.moving Demo.F_blk) (Some (Demo.I_blk, None)) in
  In (MoveItemOnclick Demo.I_else)
     (flat_map listenersIn
        (childrenOf (mainNavList (snd (renderViews Demo.host Demo.controls s)))))
  /\ attemptConnection_ Demo.host
       {| blockNode := Some Demo.F_blk; connectionNode := Some Demo.I_else |}
     = (Throw TypeError,
        {| blockNode := Some Demo.F_blk; connectionNode := Some Demo.I_else |},
        [])
  /\ blockJoiner (moveItemOnclick_ Demo.host Demo.controls s Demo.I_else)
     = {| blockNode := Some Demo.F_blk; connectionNode := Some Demo.I_else |}.
Proof.
  split; [|split; reflexivity].
  vm_compute. do 7 right. left. reflexivity.
Qed.

(** C6, where the code falls short of it.  With [F] in the block slot,
    [push] is handed the connection node of the else arm of [I]: the item is
    a connection and is stored, but the service step throws and [push]
    returns nothing. *)
Theorem push_throws_after_classifying :
  push Demo.host {| blockNode := Some Demo.F_blk; connectionNode := None |}
    Demo.I_else
  = (Throw TypeError,
     {| blockNode := Some Demo.F_blk; connectionNode := Some Demo.I_else |},
     []).
Proof. reflexivity. Qed.

(** ** Rendering an empty workspace *)

(** C9.  When the workspace has no block, [generateList_] puts the
    empty-workspace placeholder in the breadcrumb area, empties the main
    list and returns without looking at the event: the selection and its
    branch, both slots of the block joiner, the cooldown, the highlighted
    block and the pending event are what they were, and the host has
    received no call. *)
Theorem generateList_empty_workspace
  {Node Block Connection : Type} (h : Host Node Block Connection)
  (ctl : Controls Node Block Connection) (s : State Node Block Connection)
  (e : option Event) (now now' : Z) :
  getAllBlocks h = [] ->
  exists s',
    generateList_ h ctl s e now now' = (Normal tt, s')
    /\ parentNav s' = [TextNode (str "(empty workspace)")]
    /\ childrenOf (mainNavList s') = []
    /\ selected s' = selected s
    /\ blockJoiner s' = blockJoiner s
    /\ cooldown_ s' = cooldown_ s
    /\ lastHighlighted s' = lastHighlighted s
    /\ pendingRenderEvent_ s' = pendingRenderEvent_ s
    /\ hostCalls s' = hostCalls s.
Proof.
  intros Hempty. exists (showEmptyWorkspace s).
  unfold generateList_, workspaceIsEmpty. rewrite Hempty.
  repeat split.
  cbn. destruct (mainNavList s); reflexivity.
Qed.

Lemma generateList_empty_workspace_witness :
  exists s',
    generateList_ Demo.emptied Demo.controls (Demo.moving Demo.C_blk)
      (Some {| ev_ref := 0; ev_type := BLOCK_DELETE;
               ev_blockId := Some (str "a"); ev_element := None |}) 1000 1000
    = (Normal tt, s')
    /\ parentNav s' = [TextNode (str "(empty workspace)")]
    /\ childrenOf (mainNavList s') = []
    /\ selected s' = selected (Demo.moving Demo.C_blk)
    /\ blockJoiner s' = blockJoiner (Demo.moving Demo.C_blk)
    /\ cooldown_ s' = cooldown_ (Demo.moving Demo.C_blk)
    /\ lastHighlighted s' = lastHighlighted (Demo.moving Demo.C_blk)
    /\ pendingRenderEvent_ s' = pendingRenderEvent_ (Demo.moving Demo.C_blk)
    /\ hostCalls s' = hostCalls (Demo.moving Demo.C_blk).
Proof.
  apply (generateList_empty_workspace Demo.emptied Demo.controls
           (Demo.moving Demo.C_blk)). reflexivity.
Defined.

(** ** The selection cooldown *)

(** C5, where the code falls short of it.  Handling the creation of [F] at
    time 1000 selects [F] and sets the cooldown to end at 1100.  A move of
    the other block [C] handled at 1050, inside the cooldown, takes the
    selection to [C]; the same move handled at 1300, when the cooldown is
    over, is skipped and the selection stays on [F].  The test
    [this.cooldown_ < new Date().getTime()] holds after the deadline, not
    before it. *)
Theorem cooldown_is_inverted :
  selectedNode Cooldown.afterCreate = Some Demo.F_blk
  /\ cooldown_ Cooldown.afterCreate = VNum 1100
  /\ selectedNode
       (snd (alterSelectedWithEvent_ Demo.host Demo.controls
               Cooldown.afterCreate Cooldown.moveC 1050 1050))
     = Some Demo.C_blk
  /\ selectedNode
       (snd (alterSelectedWithEvent_ Demo.host Demo.controls
               Cooldown.afterCreate Cooldown.moveC 1300 1300))
     = Some Demo.F_blk.
Proof. vm_compute. repeat split. Qed.

(** ** Stack markers *)

Lemma length_snoc (p : jsstring) (c : Z) :
  JSString.length (p ++ [c]) - 1 = Z.of_nat (List.length p).
Proof. unfold JSString.length. rewrite length_app. cbn. lia. Qed.

Lemma charCodeAt_snoc (p : jsstring) (c : Z) :
  charCodeAt (p ++ [c]) (JSString.length (p ++ [c]) - 1) = Some c.
Proof.
  rewrite length_snoc. unfold charCodeAt.
  replace (Z.of_nat (List.length p) <? 0) with false
    by (symmetry; apply Z.ltb_ge; lia).
  replace (JSString.length (p ++ [c]) <=? Z.of_nat (List.length p)) with false.
  2:{ symmetry. apply Z.leb_gt. unfold JSString.length.
      rewrite length_app. cbn. lia. }
  cbn [orb]. rewrite Nat2Z.id, nth_error_app2 by lia.
  rewrite Nat.sub_diag. reflexivity.
Qed.

Lemma slice0_snoc (p : jsstring) (c : Z) :
  slice0 (p ++ [c]) (JSString.length (p ++ [c]) - 1) = p.
Proof.
  rewrite length_snoc. unfold slice0.
  replace (Z.of_nat (List.length p) <? 0) with false
    by (symmetry; apply Z.ltb_ge; lia).
  rewrite Z.min_l by (unfold JSString.length; rewrite length_app; lia).
  rewrite Nat2Z.id, firstn_app, Nat.sub_diag, firstn_all. cbn. apply app_nil_r.
Qed.

(** The function read from the last character backwards. *)
Lemma nextStackMarker_snoc (p : jsstring) (c : Z) :
  nextStackMarker (p ++ [c]) =
  if c =? 90
  then match p with
       | [] => str "A"
       | _ :: _ => nextStackMarker p
       end ++ str "A"
  else p ++ [(c + 1) mod 65536].
Proof.
  remember (p ++ [c]) as m eqn:Hm.
  funelim (nextStackMarker m).
  all: repeat match goal with
              | H : _ = {| pr1 := _; pr2 := _ |} |- _ => clear H
              end.
  all: repeat match goal with
              | H : charCodeAt (_ ++ [_]) _ = _ |- _ => rewrite charCodeAt_snoc in H
              | H : slice0 (_ ++ [_]) _ = _ |- _ => rewrite slice0_snoc in H
              end.
  all: rewrite ?slice0_snoc.
  - discriminate.
  - match goal with H : Some _ = Some _ |- _ => injection H as -> end.
    match goal with H : (_ =? 90) = false |- _ => rewrite H end.
    reflexivity.
  - match goal with H : Some _ = Some _ |- _ => injection H as -> end.
    match goal with H : (_ =? 90) = true |- _ => rewrite H end.
    subst. reflexivity.
  - match goal with H : Some _ = Some _ |- _ => injection H as -> end.
    match goal with H : (_ =? 90) = true |- _ => rewrite H end.
    subst. reflexivity.
Qed.

Lemma lex_lt_snoc (p : jsstring) (c d : Z) :
  c < d -> lex_lt (p ++ [c]) (p ++ [d]) = true.
Proof.
  intros Hcd. induction p as [|x p IH]; cbn.
  - apply Z.ltb_lt in Hcd. rewrite Hcd. reflexivity.
  - rewrite Z.eqb_refl, IH. apply orb_true_r.
Qed.

Lemma lex_lt_app (a b x y : jsstring) :
  List.length a = List.length b -> lex_lt a b = true ->
  lex_lt (a ++ x) (b ++ y) = true.
Proof.
  revert b. induction a as [|c a IH]; intros [|d b] Hlen Hlt;
    cbn in *; try discriminate.
  apply orb_true_iff in Hlt. destruct Hlt as [Hlt|Hlt].
  - rewrite Hlt. reflexivity.
  - apply andb_true_iff in Hlt. destruct Hlt as [Heq Hlt].
    rewrite Heq, IH by (auto; lia). apply orb_true_r.
Qed.

Ltac all_upper :=
  cbn; repeat (apply Forall_cons; [unfold upper; lia|]); apply Forall_nil.

Lemma nextStackMarker_step (m : jsstring) :
  isMarker m ->
  isMarker (nextStackMarker m)
  /\ ((List.length (nextStackMarker m) = List.length m
       /\ lex_lt m (nextStackMarker m) = true)
      \/ List.length (nextStackMarker m) = S (List.length m)).
Proof.
  induction m as [|c p IH] using rev_ind; intros [Hne Hup]; [congruence|].
  apply Forall_app in Hup. destruct Hup as [Hp Hc].
  inversion Hc as [|? ? Hcu _]; subst. unfold upper in Hcu.
  rewrite nextStackMarker_snoc.
  destruct (c =? 90) eqn:E.
  - destruct p as [|x p'].
    + split; [|right; reflexivity].
      split; [discriminate|all_upper].
    + destruct IH as [[Hne' Hup'] Hcase]; [split; [discriminate|assumption]|].
      split.
      * split.
        -- destruct (nextStackMarker (x :: p')); [congruence|discriminate].
        -- apply Forall_app. split; [assumption|all_upper].
      * rewrite !length_app.
        change (List.length (str "A")) with 1%nat.
        change (List.length [c]) with 1%nat.
        destruct Hcase as [[Hlen Hlt]|Hlen].
        -- left. split; [lia|]. apply lex_lt_app; [symmetry|]; assumption.
        -- right. lia.
  - apply Z.eqb_neq in E.
    rewrite Z.mod_small by lia.
    split.
    + split; [destruct p; discriminate|].
      apply Forall_app. split; [assumption|all_upper].
    + left. split; [rewrite !length_app; reflexivity|].
      apply lex_lt_snoc. lia.
Qed.

Lemma nextStackMarker_shortlex (m : jsstring) :
  isMarker m -> shortlex_lt m (nextStackMarker m) = true.
Proof.
  intros Hm. destruct (nextStackMarker_step Hm) as [_ [[Hlen Hlt]|Hlen]];
    unfold shortlex_lt.
  - rewrite Hlen, Nat.eqb_refl, Hlt. apply orb_true_r.
  - rewrite Hlen. replace (List.length m <? S (List.length m))%nat with true
      by (symmetry; apply Nat.ltb_lt; lia).
    reflexivity.
Qed.

Lemma markerAt_isMarker (k : nat) : isMarker (markerAt k).
Proof.
  induction k as [|k IH].
  - split; [discriminate|all_upper].
  - apply (nextStackMarker_step IH).
Qed.

Section MarkersOfStacks.

Context {Node Block Connection : Type}.
Variable h : Host Node Block Connection.

Lemma makeStackItem_marker (s s' : State Node Block Connection) (stack : Node)
  (item : Elem Node Block Connection) (m : jsstring) :
  marker s = Some m ->
  makeStackItem_ h s stack = Normal (item, s') ->
  firstChildText item = str "Stack " ++ m
  /\ marker s' = Some (nextStackMarker m).
Proof.
  intros Hm. unfold makeStackItem_. rewrite Hm. cbn [deref bind orUndefined].
  destruct (in_ h stack) as [firstIn|]; cbn [deref bind]; [|discriminate].
  destruct (if negb (ASTNodeType_eqb (getType h firstIn) BLOCK)
            then deref (nextBlock h firstIn) else Normal firstIn)
    as [blockNode|]; cbn [bind]; [|discriminate].
  destruct (mapM _ _) as [lists|]; cbn [bind]; [|discriminate].
  intros H. injection H as <- <-. split; [|reflexivity].
  unfold makeTextItem, appendChild, append, createElement.
  cbn [firstChildText app textContent flat_map].
  rewrite !app_nil_r. reflexivity.
Qed.

Lemma makeStackItems_markers (stacks : list Node) :
  forall (s s' : State Node Block Connection)
         (items : list (Elem Node Block Connection)) (m : jsstring),
    marker s = Some m ->
    makeStackItems h s stacks = Normal (items, s') ->
    map (@firstChildText _ _ _) items
    = map (fun k => str "Stack " ++ Nat.iter k nextStackMarker m)
        (seq 0 (List.length stacks))
    /\ List.length items = List.length stacks.
Proof.
  induction stacks as [|stack rest IH]; intros s s' items m Hm.
  - cbn. intros H. inversion H. split; reflexivity.
  - cbn [makeStackItems].
    destruct (makeStackItem_ h s stack) as [[item s1]|] eqn:E1;
      cbn [bind]; [|discriminate].
    destruct (makeStackItems h s1 rest) as [[items1 s2]|] eqn:E2;
      cbn [bind fst snd] in *; [|rewrite E2; discriminate].
    rewrite E2. cbn [bind fst snd]. intros H. inversion H; subst.
    destruct (makeStackItem_marker _ _ Hm E1) as [Htext Hm1].
    destruct (IH _ _ _ _ Hm1 E2) as [Hrest Hlen].
    split; [|cbn; lia].
    cbn [map List.length seq]. rewrite Htext. f_equal.
    rewrite Hrest, <- seq_shift, map_map.
    apply map_ext. intros k. f_equal. apply Nat.iter_swap.
Qed.

(** C7, as the code has it.  In the whole-workspace view the stacks are
    labelled, in order, with the markers that [nextStackMarker] yields from
    ['A'].  Each marker comes before the next one in the order that puts
    shorter strings first and compares strings of one length letter by
    letter; the successor of ['Z'] is ['AA'] and that of ['AZ'] is ['BA']. *)
Theorem stack_markers_increase (s s' : State Node Block Connection)
  (view : Elem Node Block Connection) :
  makeWorkspaceView_ h s = Normal (view, s') ->
  map (@firstChildText _ _ _) (childrenOf view)
  = map (fun k => str "Stack " ++ markerAt k)
      (seq 0 (List.length (childrenOf view)))
  /\ (forall k, shortlex_lt (markerAt k) (markerAt (S k)) = true)
  /\ nextStackMarker (str "Z") = str "AA"
  /\ nextStackMarker (str "AZ") = str "BA".
Proof.
  intros Hview. split; [|split; [|split; reflexivity]].
  - unfold makeWorkspaceView_ in Hview.
    destruct (in_ h (createWorkspaceNode h)) as [firstStack|];
      cbn [deref bind] in Hview; [|discriminate].
    destruct (makeStackItems _ _ _) as [[items s1]|] eqn:E;
      cbn [bind fst snd] in Hview; [|discriminate].
    injection Hview as <- <-. cbn [childrenOf createElement append app].
    assert (HA : marker (setMarker s (Some (str "A"))) = Some (str "A"))
      by reflexivity.
    destruct (makeStackItems_markers _ _ HA E) as [Hm Hlen].
    rewrite Hm, Hlen. reflexivity.
  - intros k. apply (nextStackMarker_shortlex (markerAt_isMarker k)).
Qed.

End MarkersOfStacks.

(** C7, as stated, fails at the 26th stack: its marker is ['Z'], the next
    one is ['AA'], and ['AA'] comes before ['Z'] in the order of [<]. *)
Lemma markers_not_lex_increasing : ~ markersLexIncreasing.
Proof.
  intros H. specialize (H 25%nat). vm_compute in H. discriminate.
Qed.

Lemma stack_markers_increase_witness :
  map (@firstChildText _ _ _)
    (childrenOf (fst (match makeWorkspaceView_ Demo.host Demo.fresh with
                      | Normal r => r
                      | Throw _ => (TextNode [], Demo.fresh)
                      end)))
  = [str "Stack A"; str "Stack B"; str "Stack C"]
  /\ (forall k, shortlex_lt (markerAt k) (markerAt (S k)) = true)
  /\ nextStackMarker (str "Z") = str "AA"
  /\ nextStackMarker (str "AZ") = str "BA".
Proof.
  destruct (makeWorkspaceView_ Demo.host Demo.fresh) as [[view s']|] eqn:E;
    [|vm_compute in E; discriminate].
  destruct (stack_markers_increase Demo.host Demo.fresh E) as [H1 H2].
  split; [|exact H2].
  cbn [fst]. rewrite H1.
  assert (Hv : Normal (view, s') = makeWorkspaceView_ Demo.host Demo.fresh)
    by (symmetry; exact E).
  vm_compute in Hv. injection Hv as -> _. reflexivity.
Defined.

(** ** Empty arms of an if block *)

Lemma mapM_in {A B} (f : A -> Completion B) (l : list A) (ys : list B) (x : A) :
  mapM f l = Normal ys -> In x l -> exists y, f x = Normal y /\ In y ys.
Proof.
  revert ys. induction l as [|a l IH]; intros ys H Hin; [contradiction|].
  cbn in H. destruct (f a) as [b|] eqn:Ea; cbn in H; [|discriminate].
  destruct (mapM f l) as [bs|]; cbn in H; [|discriminate].
  injection H as <-. destruct Hin as [->|Hin].
  - exists b. split; [assumption|left; reflexivity].
  - destruct (IH bs eq_refl Hin) as [y [Hy Hiny]].
    exists y. split; [assumption|right; assumption].
Qed.

Lemma in_concat_of {A} (x : A) (l : list A) (ls : list (list A)) :
  In l ls -> In x l -> In x (List.concat ls).
Proof. intros H1 H2. apply in_concat. exists l. split; assumption. Qed.

Section IfArms.

Context {Node Block Connection : Type}.
Variable h : Host Node Block Connection.

Let St := State Node Block Connection.
Let Br := Branch Node Block Connection.
Let El := Elem Node Block Connection.

Lemma ifBranchBody_insert (s : St) (branch : Br) (c : Connection) :
  isSome (blockNode (blockJoiner s)) = true ->
  bodyNode branch = None -> bodyConnection branch = LConnection c ->
  ifBranchBody h s branch = Normal [insertControl h s branch c].
Proof.
  intros Hm Hb Hc. unfold ifBranchBody. rewrite Hb, Hc.
  destruct (blockNode (blockJoiner s)); [reflexivity|discriminate].
Qed.

Lemma makeIfList_sections (s : St) (node : Node) (nodeBranch : option Br)
  (items : list El) (branches : list Br) (branch : Br) :
  shownBranches h node nodeBranch = Normal branches ->
  makeIfList_ h s node nodeBranch = Normal items ->
  In branch branches ->
  exists header body,
    ifBranchBody h s branch = Normal body
    /\ In header items
    /\ In (append body (createElement s (str "ul"))) items.
Proof.
  unfold makeIfList_. intros Hb.
  rewrite Hb. cbn [bind].
  destruct (match nodeBranch with
            | Some {| condNode := Some cn |} => _
            | _ => _
            end) as [cond|]; cbn [bind]; [|discriminate].
  destruct (mapM (ifBranchItems h s node) branches) as [sections|] eqn:Es;
    cbn [bind]; [|discriminate].
  destruct (match nodeBranch with
            | Some _ => _
            | None => _
            end) as [viewAll|]; cbn [bind]; [|discriminate].
  intros H Hin. injection H as <-.
  destruct (mapM_in _ _ _ Es Hin) as [sec [Hsec Hinsec]].
  unfold ifBranchItems in Hsec.
  destruct (makeIfBracketItem_ h s node branch) as [header|];
    cbn [bind] in Hsec; [|discriminate].
  destruct (ifBranchBody h s branch) as [body|]; cbn [bind] in Hsec;
    [|discriminate].
  injection Hsec as <-. exists header, body. split; [reflexivity|].
  split; apply in_or_app; right; apply in_or_app; left;
    eapply in_concat_of; eauto; cbn; auto.
Qed.

Lemma makeBlockList_if_sections (s : St) (node : Node)
  (rootBlock : Location Block Connection) (fuel : nat) (b : Block)
  (items : list El) (branches : list Br) (branch : Br) :
  getType h node = BLOCK -> getLocation h node = LBlock b ->
  notRootOwned h rootBlock b = false ->
  js_eqb (block_type h b) (str "controls_if") = true ->
  getIfBranches h node = Normal branches ->
  In branch branches -> bodyNode branch = None ->
  makeBlockList_ h (S fuel) s node rootBlock = Normal items ->
  In (emptyBranchBody h s branch) items.
Proof.
  intros Ht Hl Hg Hif Hbr Hin Hbody. cbn [makeBlockList_].
  rewrite Ht, Hl, Hg. cbn [ASTNodeType_eqb negb]. unfold expandBlock.
  destruct (makeNodeItems_ h s node) as [basic|]; cbn [bind]; [|discriminate].
  rewrite Hif, Hbr. cbn [bind].
  destruct (mapM (ifSection h s _ node b) branches) as [sections|] eqn:Es;
    cbn [bind]; [|discriminate].
  intros H. injection H as <-.
  destruct (mapM_in _ _ _ Es Hin) as [sec [Hsec Hinsec]].
  unfold ifSection in Hsec. rewrite Hbody in Hsec.
  destruct (makeIfBracketItem_ h s node branch) as [header|];
    cbn [bind] in Hsec; [|discriminate].
  injection Hsec as <-.
  apply in_or_app. right. apply in_or_app. left.
  eapply in_concat_of; eauto. cbn. auto.
Qed.

(** [checkConnection] turns down every pair whose second node is a block
    node, so the whole-workspace view, which hands it the held block, shows
    the bare list of an empty arm. *)
Lemma emptyBranchBody_block_held (s : St) (branch : Br) (held : Node)
  (b : Block) :
  blockNode (blockJoiner s) = Some held ->
  getLocation h held = LBlock b ->
  emptyBranchBody h s branch = createElement s (str "ul").
Proof.
  intros Hheld Hloc. unfold emptyBranchBody. rewrite Hheld.
  destruct (connectionNodeOf h _) as [bn'|]; [|reflexivity].
  unfold checkConnection. rewrite Hloc.
  destruct (getLocation h bn'); reflexivity.
Qed.

(** The two views on an arm without body blocks, while a block is being
    moved (the block slot is filled):
    - in the view of a single if block ([makeIfList_]) the list of every
      shown arm without body blocks consists of the insert control bound
      to the body connection of that arm, and of nothing else;
    - so for an if block with five inputs, if / else if / else, the list of
      an empty else arm is the control ['Insert within else'] on the fifth
      input;
    - in the whole-workspace view ([makeBlockList_]) the list of such an
      arm holds that control when [checkConnection] accepts the pair it is
      given, and is empty otherwise. *)
Lemma empty_arm_offers_insert (s : St) (node : Node) :
  isSome (blockNode (blockJoiner s)) = true ->
  (forall nodeBranch items branches branch c,
      shownBranches h node nodeBranch = Normal branches ->
      makeIfList_ h s node nodeBranch = Normal items ->
      In branch branches -> bodyNode branch = None ->
      bodyConnection branch = LConnection c ->
      In (append [insertControl h s branch c] (createElement s (str "ul"))) items)
  /\ (forall items first c0 c1 c2 c3 c4 c,
         in_ h node = Some first ->
         collect (size h) (next h) first = [c0; c1; c2; c3; c4] ->
         nodeAfterIn h c4 = None -> getLocation h c4 = LConnection c ->
         makeIfList_ h s node None = Normal items ->
         In (append [makeConnectionItem_ h s (createConnectionNode h c)
                       (str "Insert within else")]
               (createElement s (str "ul"))) items)
  /\ (forall rootBlock fuel b items branches branch c,
         getType h node = BLOCK -> getLocation h node = LBlock b ->
         notRootOwned h rootBlock b = false ->
         js_eqb (block_type h b) (str "controls_if") = true ->
         getIfBranches h node = Normal branches ->
         In branch branches -> bodyNode branch = None ->
         bodyConnection branch = LConnection c ->
         makeBlockList_ h (S fuel) s node rootBlock = Normal items ->
         In (if checkConnection h (Some (createConnectionNode h c))
                  (blockNode (blockJoiner s))
             then append [insertControl h s branch c] (createElement s (str "ul"))
             else createElement s (str "ul")) items).
Proof.
  intros Hmoving. split; [|split].
  - intros nodeBranch items branches branch c Hshown Hlist Hin Hbody Hconn.
    destruct (@makeIfList_sections s node nodeBranch items branches branch
                Hshown Hlist Hin)
      as [header [body [Hb [_ Hul]]]].
    rewrite (@ifBranchBody_insert s branch c Hmoving Hbody Hconn) in Hb.
    injection Hb as <-. exact Hul.
  - intros items first c0 c1 c2 c3 c4 c Hin Hchildren Hbody Hconn Hlist.
    pose (br := {| key := 4 / 2; branch_type := 3; text := str "else";
                   condIndex := None; condConnection := None;
                   condNode := None; bodyIndex := 4;
                   bodyConnection := getLocation h c4;
                   bodyNode := nodeAfterIn h c4 |} : Br).
    assert (Hshown : exists branches,
               shownBranches h node None = Normal branches /\ In br branches).
    { unfold shownBranches, getIfBranches. rewrite Hin. cbn [deref bind].
      rewrite Hchildren. eexists. split; [reflexivity|].
      cbn. right. right. left. reflexivity. }
    destruct Hshown as [branches [Hshown Hbr]].
    destruct (@makeIfList_sections s node None items branches br
                Hshown Hlist Hbr)
      as [header [body [Hb [_ Hul]]]].
    rewrite (@ifBranchBody_insert s br c Hmoving Hbody Hconn) in Hb.
    injection Hb as <-. exact Hul.
  - intros rootBlock fuel b items branches branch c
      Ht Hl Hg Hif Hbr Hin Hbody Hconn Hlist.
    pose proof (@makeBlockList_if_sections s node rootBlock fuel b items
                  branches branch Ht Hl Hg Hif Hbr Hin Hbody Hlist)
      as Hsec.
    unfold emptyBranchBody in Hsec.
    destruct (blockNode (blockJoiner s)) as [moving|]; [|discriminate].
    rewrite Hconn in Hsec. cbn [connectionNodeOf] in Hsec.
    destruct (checkConnection h _ _); exact Hsec.
Qed.

End IfArms.

(** In the whole-workspace view of the demo workspace, with the print
    block [C] being moved and every arm of the if block [I] empty, none of
    the three lists under [I] holds an insert control. *)
Lemma insert_not_offered_in_workspace_view :
  ~ insertOfferedInWorkspaceView Demo.host (Demo.moving Demo.C_blk)
      Demo.I_blk (LBlock Demo.bI).
Proof.
  intros H.
  destruct (makeBlockList_ Demo.host 10 (Demo.moving Demo.C_blk) Demo.I_blk
              (LBlock Demo.bI)) as [items|] eqn:Eitems;
    [|vm_compute in Eitems; discriminate].
  destruct (getIfBranches Demo.host Demo.I_blk) as [branches|] eqn:Ebr;
    [|vm_compute in Ebr; discriminate].
  pose (br := {| key := 4 / 2; branch_type := 3; text := str "else";
                 condIndex := None; condConnection := None;
                 condNode := None; bodyIndex := 4;
                 bodyConnection := LConnection Demo.cI_else;
                 bodyNode := None |} : Branch Demo.ENode Demo.EBlock Demo.EConn).
  assert (Hin : In br branches).
  { vm_compute in Ebr. injection Ebr as <-. right. right. left. reflexivity. }
  destruct (H 10%nat items branches br Demo.cI_else eq_refl Eitems Ebr
              Hin eq_refl eq_refl) as [ul [Hul Hctl]].
  vm_compute in Eitems. injection Eitems as <-.
  repeat (destruct Hul as [<-|Hul];
          [cbn in Hctl;
           repeat (destruct Hctl as [Hctl|Hctl]; [discriminate Hctl|]);
           exact Hctl|]).
  exact Hul.
Qed.

(** C8, where the code falls short of it.  The print block [C] of the demo
    workspace is being moved, and every arm of the if block [I] is empty.
    The whole-workspace view is rendered and offers no insert control on
    the body connection of any arm of [I].  [makeBlockList_] asks
    [checkConnection] about the body connection and the block node of the
    joiner itself, a block where a connection is expected, and the answer
    is no, as it is for every held block; asked about the neighbour before
    the held block, as the other views ask, [checkConnection] accepts the
    else arm.  The view of the if block alone, [makeIfList_], offers the
    control in all three arms. *)
Theorem workspace_view_offers_no_arm_insert :
  let s := Demo.moving Demo.C_blk in
  (exists view s',
      makeWorkspaceView_ Demo.host s = Normal (view, s')
      /\ ~ In (MoveItemOnclick Demo.I_do0) (listenersIn view)
      /\ ~ In (MoveItemOnclick Demo.I_do1) (listenersIn view)
      /\ ~ In (MoveItemOnclick Demo.I_else) (listenersIn view))
  /\ checkConnection Demo.host (Some Demo.I_else) (blockNode (blockJoiner s))
     = false
  /\ checkConnection Demo.host (Some Demo.I_else) (prev Demo.host Demo.C_blk)
     = true
  /\ (forall (h : Host Demo.ENode Demo.EBlock Demo.EConn) s0 branch held b,
         blockNode (blockJoiner s0) = Some held ->
         getLocation h held = LBlock b ->
         emptyBranchBody h s0 branch = createElement s0 (str "ul"))
  /\ (exists items,
         makeIfList_ Demo.host s Demo.I_blk None = Normal items
         /\ In (MoveItemOnclick Demo.I_do0) (flat_map listenersIn items)
         /\ In (MoveItemOnclick Demo.I_do1) (flat_map listenersIn items)
         /\ In (MoveItemOnclick Demo.I_else) (flat_map listenersIn items)).
Proof.
  cbn zeta. split; [|split; [reflexivity|split; [reflexivity|split]]].
  - do 2 eexists. split; [vm_compute; reflexivity|].
    repeat split; intros H; cbn in H;
      repeat (destruct H as [H|H]; [discriminate H|]); exact H.
  - intros h s0 branch held b Hheld Hloc. apply emptyBranchBody_block_held
      with (held := held) (b := b); assumption.
  - eexists. split; [vm_compute; reflexivity|].
    repeat split; cbn; auto 10.
Qed.

(** ** Debouncing *)

Section Debounce.

Context {Node Block Connection : Type}.
Variable world : Z -> Host Node Block Connection.
Variable ctl : Controls Node Block Connection.

Let St := State Node Block Connection.

Lemma setPending_same (s : St) (p : option Event) :
  pendingRenderEvent_ s = p -> setPendingRenderEvent_ s p = s.
Proof. destruct s. cbn. intros <-. reflexivity. Qed.

Lemma setPending_twice (s : St) (p q : option Event) :
  setPendingRenderEvent_ (setPendingRenderEvent_ s p) q
  = setPendingRenderEvent_ s q.
Proof. reflexivity. Qed.

Lemma fire_stale (l : Loop) (t : Timer) (e : Event) (avoid : list nat) :
  pendingRenderEvent_ (lin l) = Some e -> stale (ev_ref e :: avoid) t ->
  fire world ctl l t
  = {| lin := lin l; timers := timers l; settled := settled l ++ [skipped] |}.
Proof.
  intros Hp [e0 [He0 Hn]]. unfold fire, timerFired. rewrite Hp, He0.
  cbn [sameEvent].
  destruct (Nat.eqb_spec (ev_ref e) (ev_ref e0)) as [Heq|_]; [|reflexivity].
  exfalso. apply Hn. left. assumption.
Qed.

(** Only stale callbacks are due: they are rejected, and nothing else
    changes. *)
Lemma fireDue_stale (now : Z) (e : Event) (avoid : list nat) (last : Timer)
  (old : list Timer) :
  forall l : Loop,
    pendingRenderEvent_ (lin l) = Some e ->
    Forall (stale (ev_ref e :: avoid)) old -> now < due last ->
    exists k old',
      fireDue world ctl now (old ++ [last]) l
      = {| lin := lin l; timers := old' ++ [last];
           settled := settled l ++ repeat skipped k |}
      /\ (k + List.length old' = List.length old)%nat
      /\ Forall (stale (ev_ref e :: avoid)) old'.
Proof.
  induction old as [|t old IH]; intros l Hp Hold Hlast.
  - exists 0%nat, []. cbn [app fireDue].
    replace (due last <=? now) with false by (symmetry; apply Z.leb_gt; lia).
    cbn [repeat]. rewrite app_nil_r. repeat split. constructor.
  - inversion Hold as [|? ? Ht Hold']; subst. cbn [app fireDue].
    destruct (due t <=? now).
    + rewrite (fire_stale l Hp Ht).
      destruct (IH {| lin := lin l; timers := timers l;
                      settled := settled l ++ [skipped] |} Hp Hold' Hlast)
        as [k [old' [Heq [Hk Hf]]]].
      exists (S k), old'. rewrite Heq. cbn [lin settled].
      rewrite <- app_assoc. cbn [app repeat]. repeat split; auto. cbn. lia.
    + exists 0%nat, (t :: old). cbn [repeat]. rewrite app_nil_r.
      repeat split. assumption.
Qed.

Lemma drain_stale (e : Event) (avoid : list nat) (old : list Timer) :
  forall l : Loop,
    pendingRenderEvent_ (lin l) = Some e ->
    Forall (stale (ev_ref e :: avoid)) old ->
    fold_left (fire world ctl) old l
    = {| lin := lin l; timers := timers l;
         settled := settled l ++ repeat skipped (List.length old) |}.
Proof.
  induction old as [|t old IH]; intros l Hp Hold.
  - cbn. rewrite app_nil_r. destruct l; reflexivity.
  - inversion Hold as [|? ? Ht Hold']; subst. cbn [fold_left].
    rewrite (fire_stale l Hp Ht), IH by assumption.
    cbn [lin timers settled List.length repeat].
    rewrite <- app_assoc. reflexivity.
Qed.

Lemma stale_weaken (a b : list nat) (t : Timer) :
  (forall x, In x b -> In x a) -> stale a t -> stale b t.
Proof. intros Hsub [e0 [He Hn]]. exists e0. split; auto. Qed.

Lemma last_cons_default {A} (l : list A) :
  forall x d : A, List.last (x :: l) d = List.last l x.
Proof.
  induction l as [|y l IH]; intros x d; [reflexivity|].
  change (List.last (x :: y :: l) d) with (List.last (y :: l) d).
  rewrite (IH y d), (IH y x). reflexivity.
Qed.

(** The loop after a notification of [e] at time [t], followed by the
    burst [rest]. *)
Lemma burst_tail (rest : list (Z * Event)) :
  forall (l : Loop) (t : Z) (e : Event) (old : list Timer),
    pendingRenderEvent_ (lin l) = Some e ->
    timers l = old ++ [ {| due := t + 100; timer_event := Some e |} ] ->
    Forall (stale (ev_ref e :: refs rest)) old ->
    NoDup (ev_ref e :: refs rest) ->
    withinWindow t rest ->
    drain world ctl (notifyAll world ctl l rest)
    = let '(tN, eN) := List.last rest (t, e) in
      let '(p, s') :=
        timerFired (world (tN + 100)) ctl
          (setPendingRenderEvent_ (lin l) (Some eN)) (Some eN)
          (tN + 100) (tN + 100) in
      {| lin := s'; timers := [];
         settled := settled l
                    ++ repeat skipped (List.length old + List.length rest)
                    ++ [p] |}.
Proof.
  induction rest as [|[t' e'] rest IH]; intros l t e old Hp Ht Hold Hnd Hwin.
  - cbn [notifyAll List.last]. unfold drain. rewrite Ht, fold_left_app.
    rewrite (@drain_stale e (refs []) old
               {| lin := lin l; timers := []; settled := settled l |} Hp Hold).
    cbn [fold_left]. unfold fire at 1. cbn [lin timers settled due timer_event].
    rewrite (setPending_same _ Hp).
    destruct (timerFired _ _ _ _ _ _) as [p s'].
    rewrite Nat.add_0_r, <- app_assoc. reflexivity.
  - cbn [notifyAll]. destruct Hwin as [Hw Hwin].
    destruct (@fireDue_stale t' e (refs ((t', e') :: rest))
                {| due := t + 100; timer_event := Some e |} old l Hp Hold)
      as [k [old' [Heq [Hk Hold']]]]; [cbn; lia|].
    unfold notify. rewrite Ht, Heq. cbn [lin timers settled].
    inversion Hnd as [|? ? Hnotin Hnd']; subst.
    rewrite (IH _ t' e' (old' ++ [ {| due := t + 100; timer_event := Some e |} ])).
    + cbn [lin settled].
      replace (List.last ((t', e') :: rest) (t, e)) with (List.last rest (t', e')).
      2:{ symmetry. apply last_cons_default. }
      destruct (List.last rest (t', e')) as [tN eN].
      unfold onChange. rewrite setPending_twice.
      destruct (timerFired _ _ _ _ _ _) as [p s'].
      f_equal. rewrite <- app_assoc. f_equal.
      rewrite app_assoc, <- repeat_app. f_equal. f_equal.
      rewrite length_app. cbn [List.length]. lia.
    + reflexivity.
    + reflexivity.
    + apply Forall_app. split.
      * eapply Forall_impl; [|exact Hold'].
        intros tm. apply stale_weaken. intros x Hx. right. exact Hx.
      * constructor; [|constructor]. exists e. split; [reflexivity|].
        exact Hnotin.
    + exact Hnd'.
    + exact Hwin.
Qed.

(** C3.  Take a burst of change notifications, the first at any time and
    each later one less than 100 ms after the one before it, every
    notification with an event object of its own.  [onChange] records each
    event as the pending one.  Once all callbacks have run, every callback
    but the last has found another event pending and has rejected its
    promise without touching the linearization, and the last one has called
    [generateList_] with the last event: one render, with the event of the
    last notification. *)
Theorem debounce_one_render (s0 : St) (t1 : Z) (e1 : Event)
  (rest : list (Z * Event)) :
  withinWindow t1 rest ->
  NoDup (refs ((t1, e1) :: rest)) ->
  let tN := fst (List.last rest (t1, e1)) in
  let eN := snd (List.last rest (t1, e1)) in
  let render :=
    generateList_ (world (tN + 100)) ctl
      (setPendingRenderEvent_ s0 None) (Some eN) (tN + 100) (tN + 100) in
  let final :=
    drain world ctl
      (notifyAll world ctl {| lin := s0; timers := []; settled := [] |}
         ((t1, e1) :: rest)) in
  settled final
  = repeat skipped (List.length rest)
    ++ [match fst render with
        | Normal _ => Resolved (Some eN)
        | Throw _ => Pending
        end]
  /\ lin final = snd render
  /\ timers final = [].
Proof.
  intros Hwin Hnd. cbn zeta.
  assert (Hf : drain world ctl
                 (notifyAll world ctl
                    {| lin := s0; timers := []; settled := [] |}
                    ((t1, e1) :: rest))
               = let '(tN, eN) := List.last rest (t1, e1) in
                 let '(p, s') :=
                   timerFired (world (tN + 100)) ctl
                     (setPendingRenderEvent_ s0 (Some eN)) (Some eN)
                     (tN + 100) (tN + 100) in
                 {| lin := s'; timers := [];
                    settled := repeat skipped (List.length rest) ++ [p] |}).
  { cbn [notifyAll]. unfold notify, onChange.
    cbn [fireDue timers lin settled app].
    rewrite (@burst_tail rest
               {| lin := setPendingRenderEvent_ s0 (Some e1);
                  timers := [ {| due := t1 + 100; timer_event := Some e1 |} ];
                  settled := [] |}
               t1 e1 [] eq_refl eq_refl (Forall_nil _) Hnd Hwin).
    cbn [lin settled app List.length Nat.add].
    destruct (List.last rest (t1, e1)) as [tN eN].
    rewrite setPending_twice. reflexivity. }
  rewrite Hf. clear Hf.
  destruct (List.last rest (t1, e1)) as [tN eN]. cbn [fst snd].
  unfold timerFired. cbn [pendingRenderEvent_ setPendingRenderEvent_ sameEvent].
  rewrite Nat.eqb_refl. rewrite setPending_twice.
  destruct (generateList_ _ _ _ _ _ _) as [[u|x] s1]; repeat split.
Qed.

End Debounce.

Lemma debounce_one_render_witness :
  settled
    (drain Burst.world Demo.controls
       (notifyAll Burst.world Demo.controls Burst.start
          [(0, Burst.e1); (60, Burst.e2); (130, Burst.e3)]))
  = [skipped; skipped; Resolved (Some Burst.e3)].
Proof.
  assert (Hwin : withinWindow 0 [(60, Burst.e2); (130, Burst.e3)])
    by (cbn; lia).
  assert (Hnd : NoDup (refs [(0, Burst.e1); (60, Burst.e2); (130, Burst.e3)])).
  { cbn. repeat constructor; cbn; intuition discriminate. }
  destruct (@debounce_one_render _ _ _ Burst.world Demo.controls Demo.fresh
              0 Burst.e1 [(60, Burst.e2); (130, Burst.e3)] Hwin Hnd)
    as [H _].
  unfold Burst.start. rewrite H. cbn [List.last fst snd].
  assert (E : fst (generateList_ (Burst.world (130 + 100)) Demo.controls
                     (setPendingRenderEvent_ Demo.fresh None) (Some Burst.e3)
                     (130 + 100) (130 + 100)) = Normal tt)
    by (vm_compute; reflexivity).
  rewrite E. reflexivity.
Defined.

(** ** The whole-workspace view lists the tree that the cursor presents *)

Lemma mapM_ext_in {A B} (f g : A -> Completion B) (l : list A) :
  (forall x, In x l -> f x = g x) -> mapM f l = mapM g l.
Proof.
  induction l as [|a l IH]; intros H; [reflexivity|].
  cbn. rewrite (H a (or_introl eq_refl)), IH; [reflexivity|].
  intros x Hx. apply H. right. exact Hx.
Qed.





Section ListsPresentedTree.

Context {Node Block Connection : Type}.
Variable h : Host Node Block Connection.

Local Abbreviation St := (State Node Block Connection).
Local Abbreviation El := (Elem Node Block Connection).
Local Abbreviation Loc := (Location Block Connection).
Local Abbreviation Tree := (@BlockTree Node Block).


Lemma reaches_measure_le (measure : Node -> nat) (fn : Node -> option Node) :
  (forall n m, fn n = Some m -> (measure m < measure n)%nat) ->
  forall n k, Reaches fn n k -> (measure k <= measure n)%nat.
Proof.
  intros Hdec n k R. induction R as [|n m k E _ IH]; [lia|].
  apply Hdec in E. lia.
Qed.

Lemma chain_size (n k : Node) : In k (chain h n) -> (size h k <= size h n)%nat.
Proof.
  intros Hin. apply (in_collect_iff (size h) (nextBlock h) (nextBlock_size h)) in Hin.
  exact (@reaches_measure_le (size h) (nextBlock h) (nextBlock_size h) n k Hin).
Qed.

Lemma nodeAfterIn_size (c m : Node) :
  nodeAfterIn h c = Some m -> (size h m < size h c)%nat.
Proof.
  unfold nodeAfterIn. destruct (in_ h c) as [i|] eqn:Ei; [|discriminate].
  intros En. apply in_size in Ei. apply next_size in En. lia.
Qed.

Lemma branchesFrom_bodyNode (children : list Node) :
  forall i br, In br (branchesFrom h i children) ->
               exists c, In c children /\ bodyNode br = nodeAfterIn h c.
Proof.
  remember (List.length children) as len eqn:Hlen.
  revert children Hlen. induction len as [len IH] using lt_wf_ind.
  intros [|c [|b rest]] Hlen i br Hin; cbn in Hin.
  - contradiction.
  - destruct Hin as [<-|[]]. exists c. split; [left; reflexivity|reflexivity].
  - destruct Hin as [<-|Hin].
    + exists b. split; [right; left; reflexivity|reflexivity].
    + destruct (IH (List.length rest)) with (children := rest) (i := i + 2) (br := br)
        as [c' [Hc' Hb]]; auto.
      * subst len. cbn. lia.
      * exists c'. split; [right; right; assumption|assumption].
Qed.

Lemma nestedPositions_size (n m : Node) (b : Block) :
  In m (nestedPositions h n b) -> (size h m < size h n)%nat.
Proof.
  unfold nestedPositions.
  destruct (js_eqb (block_type h b) (str "controls_if")).
  - unfold getIfBranches. destruct (in_ h n) as [first|] eqn:Ei;
      cbn [deref bind]; [|contradiction].
    intros Hin. apply in_flat_map in Hin. destruct Hin as [br [Hbr Hm]].
    destruct (branchesFrom_bodyNode _ _ _ Hbr) as [c [Hc Hb]].
    rewrite Hb in Hm. destruct (nodeAfterIn h c) as [bn|] eqn:Ebn; [|contradiction].
    apply chain_size in Hm. apply nodeAfterIn_size in Ebn.
    apply (in_collect_iff (size h) (next h) (next_size h)) in Hc.
    apply (@reaches_measure_le (size h) (next h) (next_size h)) in Hc.
    apply in_size in Ei. lia.
  - destruct (inBlock h n) as [f|] eqn:Ef; [|contradiction].
    intros Hin. apply chain_size in Hin. apply inBlock_size in Ef. lia.
Qed.


Lemma generateInnerBody_ext (s : St) (e1 e2 : Node -> Completion (list El))
  (n : Node) :
  (forall m, In m (chain h n) -> e1 m = e2 m) ->
  generateInnerBody h s e1 n = generateInnerBody h s e2 n.
Proof.
  intros H. unfold generateInnerBody. unfold chain in H.
  rewrite (mapM_ext_in e1 e2 _ H). reflexivity.
Qed.

(** [expandBlock] asks [expand] about the nested positions only. *)
Lemma expandBlock_ext (s : St) (e1 e2 : Node -> Completion (list El))
  (n : Node) (b : Block) (endLabel : option El) :
  (forall m, In m (nestedPositions h n b) -> e1 m = e2 m) ->
  expandBlock h s e1 n b endLabel = expandBlock h s e2 n b endLabel.
Proof.
  unfold nestedPositions, expandBlock. intros H.
  destruct (makeNodeItems_ h s n) as [basic|]; cbn [bind]; [|reflexivity].
  destruct (js_eqb (block_type h b) (str "controls_if")).
  - destruct (getIfBranches h n) as [branches|]; cbn [bind]; [|reflexivity].
    rewrite (mapM_ext_in (ifSection h s e1 n b) (ifSection h s e2 n b) branches);
      [reflexivity|].
    intros br Hbr. unfold ifSection.
    destruct (makeIfBracketItem_ h s n br); cbn [bind]; [|reflexivity].
    destruct (bodyNode br) as [bn|] eqn:Ebn; [|reflexivity].
    rewrite (@generateInnerBody_ext s e1 e2 bn); [reflexivity|].
    intros m Hm. apply H. apply in_flat_map. exists br. split; [assumption|].
    rewrite Ebn. exact Hm.
  - destruct (inBlock h n) as [f|]; [|reflexivity].
    rewrite (@generateInnerBody_ext s e1 e2 f); [reflexivity|].
    exact H.
Qed.







(** ** Every listed block has its items, under its own stack *)

Local Abbreviation Br := (Branch Node Block Connection).
Local Abbreviation cnt := (count_occ (node_eq_dec h)).










































End ListsPresentedTree.







(** * Further properties *)

(** ** Stack markers as numerals *)

Lemma markerValue_snoc (p : jsstring) (c : Z) :
  markerValue (p ++ [c]) = 26 * markerValue p + (c - 64).
Proof. unfold markerValue. rewrite fold_left_app. reflexivity. Qed.

Lemma isMarker_snoc_inv (p : jsstring) (c : Z) :
  isMarker (p ++ [c]) -> Forall upper p /\ 65 <= c <= 90.
Proof.
  intros [_ Hup]. apply Forall_app in Hup. destruct Hup as [Hp Hc].
  inversion Hc; subst. split; assumption.
Qed.

Lemma nextStackMarker_value (m : jsstring) :
  isMarker m -> markerValue (nextStackMarker m) = markerValue m + 1.
Proof.
  induction m as [|c p IH] using rev_ind; intros Hm; [destruct Hm; congruence|].
  destruct (isMarker_snoc_inv p c Hm) as [Hp Hc].
  rewrite nextStackMarker_snoc, markerValue_snoc.
  destruct (c =? 90) eqn:E.
  - apply Z.eqb_eq in E. subst c.
    destruct p as [|x p'].
    + reflexivity.
    + change (str "A") with [65]. rewrite markerValue_snoc, IH.
      * lia.
      * split; [discriminate|assumption].
  - apply Z.eqb_neq in E. rewrite Z.mod_small by lia.
    rewrite markerValue_snoc. lia.
Qed.

(** X1.  On a marker, one or more capital letters, [nextStackMarker] is the
    successor of the bijective base-26 numerals: the result is again a
    marker, one or more capital letters and nothing else, and, read with
    ['A'] as 1 and ['Z'] as 26, its value is the value of the argument plus
    one. *)
Theorem nextStackMarker_adds_one (m : jsstring) :
  isMarker m ->
  isMarker (nextStackMarker m)
  /\ markerValue (nextStackMarker m) = markerValue m + 1.
Proof.
  intros Hm. split.
  - apply (nextStackMarker_step Hm).
  - apply nextStackMarker_value. exact Hm.
Qed.

Lemma nextStackMarker_adds_one_witness :
  isMarker (nextStackMarker (str "AZ"))
  /\ markerValue (nextStackMarker (str "AZ")) = markerValue (str "AZ") + 1.
Proof.
  apply nextStackMarker_adds_one. split; [discriminate|all_upper].
Defined.

Lemma markerValue_markerAt (k : nat) : markerValue (markerAt k) = Z.of_nat k + 1.
Proof.
  induction k as [|k IH]; [reflexivity|].
  change (markerAt (S k)) with (nextStackMarker (markerAt k)).
  rewrite (nextStackMarker_value (markerAt_isMarker k)), IH. lia.
Qed.

(** X2.  No two stacks of a workspace view carry the same marker: the
    markers that [nextStackMarker] yields from ['A'] are pairwise
    different. *)
Theorem stack_markers_distinct (i j : nat) :
  i <> j -> markerAt i <> markerAt j.
Proof.
  intros Hij Heq. apply Hij.
  apply (f_equal markerValue) in Heq.
  rewrite !markerValue_markerAt in Heq. lia.
Qed.

Lemma stack_markers_distinct_witness : markerAt 25 <> markerAt 26.
Proof. apply stack_markers_distinct. lia. Defined.

Lemma allZ_snoc (p : jsstring) (c : Z) : allZ (p ++ [c]) = allZ p && (c =? 90).
Proof. unfold allZ. rewrite forallb_app. cbn. rewrite andb_true_r. reflexivity. Qed.

(** X3.  [nextStackMarker] adds a letter exactly on overflow: the result is
    one letter longer than a marker made of ['Z'] only, and as long as any
    other marker. *)
Theorem nextStackMarker_length (m : jsstring) :
  isMarker m ->
  List.length (nextStackMarker m)
  = if allZ m then S (List.length m) else List.length m.
Proof.
  induction m as [|c p IH] using rev_ind; intros Hm; [destruct Hm; congruence|].
  destruct (isMarker_snoc_inv p c Hm) as [Hp Hc].
  rewrite nextStackMarker_snoc, allZ_snoc.
  destruct (c =? 90) eqn:E.
  - rewrite andb_true_r. destruct p as [|x p'].
    + reflexivity.
    + rewrite !length_app, IH by (split; [discriminate|assumption]).
      cbn [List.length str of_string].
      destruct (allZ (x :: p')); lia.
  - rewrite andb_false_r, !length_app. reflexivity.
Qed.

Lemma nextStackMarker_length_witness :
  List.length (nextStackMarker (str "ZZ")) = 3%nat
  /\ List.length (nextStackMarker (str "ZY")) = 2%nat.
Proof.
  split.
  - apply (@nextStackMarker_length (str "ZZ")). split; [discriminate|all_upper].
  - apply (@nextStackMarker_length (str "ZY")). split; [discriminate|all_upper].
Defined.

(** ** The block joiner *)

Section MoreJoinerFacts.

Context {Node Block Connection : Type}.
Variable h : Host Node Block Connection.

Lemma push_first (j : BlockJoiner Node) (item : Node) :
  (forall b, getLocation h item = LBlock b -> connectionNode j = None ->
     push h j item
     = (Normal true, {| blockNode := Some item; connectionNode := None |}, []))
  /\ (forall c, getLocation h item = LConnection c -> blockNode j = None ->
        push h j item
        = (Normal true, {| blockNode := None; connectionNode := Some item |}, []))
  /\ (getLocation h item = LOther -> push h j item = (Normal false, j, [])).
Proof.
  unfold push. repeat split.
  - intros b Hb Hc. rewrite Hb. unfold attemptConnection_. cbn. rewrite Hc.
    reflexivity.
  - intros c Hc Hb. rewrite Hc. unfold attemptConnection_. cbn. rewrite Hb.
    reflexivity.
  - intros Ho. rewrite Ho. reflexivity.
Qed.

(** X4.  Pushing never contacts the host before both slots are filled:
    a block pushed while the connection slot is empty, or a connection
    pushed while the block slot is empty, is stored (replacing what the slot
    held), [push] returns true, and no call is made.  A node that is neither
    is refused: [push] returns false and changes nothing. *)
Theorem push_stores_until_paired (j : BlockJoiner Node) (item : Node) :
  (forall b, getLocation h item = LBlock b -> connectionNode j = None ->
     push h j item
     = (Normal true, {| blockNode := Some item; connectionNode := None |}, []))
  /\ (forall c, getLocation h item = LConnection c -> blockNode j = None ->
        push h j item
        = (Normal true, {| blockNode := None; connectionNode := Some item |}, []))
  /\ (getLocation h item = LOther -> push h j item = (Normal false, j, [])).
Proof. apply push_first. Qed.

(** X5.  The order in which a block and a connection are pushed does not
    matter: starting from an empty joiner, block first or connection first,
    the second push runs the same service step on the same pair, with the
    same calls, the same slots afterwards and the same completion. *)
Theorem push_order_irrelevant (blk conn : Node) (b : Block) (c : Connection) :
  getLocation h blk = LBlock b -> getLocation h conn = LConnection c ->
  push h (joinerOf (push h emptyJoiner blk)) conn
  = push h (joinerOf (push h emptyJoiner conn)) blk
  /\ callsOf (push h (joinerOf (push h emptyJoiner blk)) conn)
     = callsOf (attemptConnection_ h
                  {| blockNode := Some blk; connectionNode := Some conn |}).
Proof.
  intros Hb Hc.
  destruct (push_first emptyJoiner blk) as [H1 _].
  destruct (push_first emptyJoiner conn) as [_ [H2 _]].
  rewrite (H1 b Hb eq_refl), (H2 c Hc eq_refl).
  unfold joinerOf, callsOf. cbn [fst snd].
  unfold push. rewrite Hb, Hc. cbn [blockNode connectionNode].
  destruct (attemptConnection_ h _) as [[r j'] calls]. split; reflexivity.
Qed.

(** X6.  The service step is all or nothing.  Either it leaves both slots
    as they were and makes no call, or it returns normally with both slots
    empty after a [connect] call to the host; it never empties one slot
    only, and never calls the host while keeping a slot. *)
Theorem attemptConnection_all_or_nothing (j : BlockJoiner Node) :
  (joinerOf (attemptConnection_ h j) = j
   /\ callsOf (attemptConnection_ h j) = [])
  \/ (fst (fst (attemptConnection_ h j)) = Normal tt
      /\ joinerOf (attemptConnection_ h j) = emptyJoiner
      /\ existsb isConnect (callsOf (attemptConnection_ h j)) = true).
Proof.
  unfold attemptConnection_, joinerOf, callsOf.
  destruct (blockNode j) as [provided|]; [|left; split; reflexivity].
  destruct (connectionNode j) as [cnode|]; [|left; split; reflexivity].
  destruct (back h (getType h cnode)) as [backfn|]; [|left; split; reflexivity].
  destruct (backfn provided) as [b|]; [|left; split; reflexivity].
  right. cbn [fst snd]. repeat split.
  rewrite existsb_app. unfold connectTo.
  destruct (respond h _ _); cbn; apply orb_true_r.
Qed.

Lemma detachOld_no_reload (provided : Node) :
  ~ In HReload (detachOld h provided).
Proof.
  unfold detachOld.
  destruct (prev h provided) as [p|]; [|intros []].
  destruct (prev h p); [|intros []].
  destruct (_ || _); [|intros []].
  destruct (respond h [] _); cbn; intros H;
    repeat (destruct H as [H|H]; [discriminate|]); exact H.
Qed.

(** X7.  The page is reloaded only when the host's [connect] throws a
    [DOMException], and then always: a reload is among the calls of the
    service step exactly if the step got as far as [connect] and the host
    answered that call with a [DOMException]. *)
Theorem reload_only_on_DOMException (j : BlockJoiner Node) :
  In HReload (callsOf (attemptConnection_ h j))
  <-> exists provided cnode backfn b,
        blockNode j = Some provided /\ connectionNode j = Some cnode
        /\ back h (getType h cnode) = Some backfn /\ backfn provided = Some b
        /\ respond h (detachOld h provided)
             (HConnect (getLocation h cnode) (getLocation h b))
           = ThrowsDOMException.
Proof.
  unfold attemptConnection_, callsOf. split.
  - destruct (blockNode j) as [provided|]; [|intros []].
    destruct (connectionNode j) as [cnode|]; [|intros []].
    destruct (back h (getType h cnode)) as [backfn|] eqn:Eb; [|intros []].
    destruct (backfn provided) as [b|] eqn:Ep; [|intros []].
    cbn [snd]. intros Hin. apply in_app_or in Hin.
    destruct Hin as [Hin|Hin]; [destruct (detachOld_no_reload _ Hin)|].
    exists provided, cnode, backfn, b. repeat split; try assumption.
    unfold connectTo in Hin.
    destruct (respond h _ _); cbn in Hin;
      repeat (destruct Hin as [Hin|Hin]; [try discriminate|]);
      try contradiction; reflexivity.
  - intros (provided & cnode & backfn & b & -> & -> & -> & -> & Hr).
    cbn [snd]. apply in_or_app. right. unfold connectTo. rewrite Hr.
    right. left. reflexivity.
Qed.

Lemma disconnectBlock_cases (j : BlockJoiner Node) :
  connectionNode (fst (disconnectBlock h j)) = connectionNode j
  /\ (forall bn p,
        blockNode j = Some bn -> prev h bn = Some p ->
        (respond h [] (HDisconnect (getLocation h p)) = Returns ->
         respond h [HDisconnect (getLocation h p)]
           (HBumpNeighbours (getLocation h bn)) = Returns ->
         disconnectBlock h j
         = ({| blockNode := None; connectionNode := connectionNode j |},
            [HDisconnect (getLocation h p);
             HBumpNeighbours (getLocation h bn)]))
        /\ (respond h [] (HDisconnect (getLocation h p)) = Returns ->
            respond h [HDisconnect (getLocation h p)]
              (HBumpNeighbours (getLocation h bn)) <> Returns ->
            disconnectBlock h j
            = (j, [HDisconnect (getLocation h p);
                   HBumpNeighbours (getLocation h bn)]))
        /\ (respond h [] (HDisconnect (getLocation h p)) <> Returns ->
            disconnectBlock h j = (j, [HDisconnect (getLocation h p)])))
  /\ (match blockNode j with
      | Some bn => prev h bn = None
      | None => True
      end -> disconnectBlock h j = (j, [])).
Proof.
  unfold disconnectBlock.
  destruct (blockNode j) as [bn|] eqn:Eb.
  2:{ repeat split; intros; congruence. }
  destruct (prev h bn) as [p|] eqn:Ep.
  2:{ repeat split; intros; congruence. }
  split; [|split; [|discriminate]].
  - destruct (respond h [] _); [destruct (respond h [_] _)|..]; reflexivity.
  - intros bn' p' Hbn Hp. injection Hbn as <-.
    rewrite Ep in Hp. injection Hp as <-.
    destruct (respond h [] _); [destruct (respond h [_] _)|..];
      repeat split; intros; congruence.
Qed.

(** X8.  [disconnectBlock] never touches the connection slot and never
    throws.  For a held block with a neighbour before it, it empties the
    block slot when both host calls, [disconnect] on that neighbour and then
    [bumpNeighbours_] on the block, have returned; when [disconnect] fails
    the joiner stays as it was and [bumpNeighbours_] is not called, and when
    [bumpNeighbours_] fails the joiner stays as it was too.  With an empty
    block slot, or a block that has nothing before it, no call is made at
    all.  A click on "Start new stack" does this to the joiner of the
    linearization, logs the calls and keeps the selection. *)
Theorem disconnectBlock_clears_only_on_success (j : BlockJoiner Node) :
  connectionNode (fst (disconnectBlock h j)) = connectionNode j
  /\ (forall bn p,
        blockNode j = Some bn -> prev h bn = Some p ->
        (respond h [] (HDisconnect (getLocation h p)) = Returns ->
         respond h [HDisconnect (getLocation h p)]
           (HBumpNeighbours (getLocation h bn)) = Returns ->
         disconnectBlock h j
         = ({| blockNode := None; connectionNode := connectionNode j |},
            [HDisconnect (getLocation h p);
             HBumpNeighbours (getLocation h bn)]))
        /\ (respond h [] (HDisconnect (getLocation h p)) = Returns ->
            respond h [HDisconnect (getLocation h p)]
              (HBumpNeighbours (getLocation h bn)) <> Returns ->
            disconnectBlock h j
            = (j, [HDisconnect (getLocation h p);
                   HBumpNeighbours (getLocation h bn)]))
        /\ (respond h [] (HDisconnect (getLocation h p)) <> Returns ->
            disconnectBlock h j = (j, [HDisconnect (getLocation h p)])))
  /\ (match blockNode j with
      | Some bn => prev h bn = None
      | None => True
      end -> disconnectBlock h j = (j, []))
  /\ (forall s : State Node Block Connection,
        blockJoiner s = j ->
        blockJoiner (startNewStackOnclick_ h s) = fst (disconnectBlock h j)
        /\ hostCalls (startNewStackOnclick_ h s)
           = hostCalls s ++ snd (disconnectBlock h j)
        /\ selected (startNewStackOnclick_ h s) = selected s).
Proof.
  destruct (disconnectBlock_cases j) as [H1 [H2 H3]].
  split; [exact H1|]. split; [exact H2|]. split; [exact H3|].
  intros s Hs. unfold startNewStackOnclick_. rewrite Hs.
  destruct (disconnectBlock h j). repeat split; reflexivity.
Qed.

End MoreJoinerFacts.

Lemma push_stores_until_paired_witness :
  push Demo.host emptyJoiner Demo.C_blk
  = (Normal true, {| blockNode := Some Demo.C_blk; connectionNode := None |}, [])
  /\ push Demo.host {| blockNode := None; connectionNode := Some Demo.I_else |}
       Demo.C_next
     = (Normal true,
        {| blockNode := None; connectionNode := Some Demo.C_next |}, []).
Proof.
  split.
  - destruct (push_stores_until_paired Demo.host emptyJoiner Demo.C_blk)
      as [H _].
    apply (H Demo.bC); reflexivity.
  - destruct (push_stores_until_paired Demo.host
                {| blockNode := None; connectionNode := Some Demo.I_else |}
                Demo.C_next) as [_ [H _]].
    apply (H Demo.cC_next); reflexivity.
Defined.

Lemma push_order_irrelevant_witness :
  push Demo.host (joinerOf (push Demo.host emptyJoiner Demo.C_blk)) Demo.I_else
  = push Demo.host (joinerOf (push Demo.host emptyJoiner Demo.I_else)) Demo.C_blk.
Proof.
  apply (@push_order_irrelevant _ _ _ Demo.host Demo.C_blk Demo.I_else
           Demo.bC Demo.cI_else); reflexivity.
Defined.

Lemma disconnectBlock_clears_only_on_success_witness :
  disconnectBlock Demo.host
    {| blockNode := Some Demo.C_blk; connectionNode := Some Demo.I_else |}
  = ({| blockNode := None; connectionNode := Some Demo.I_else |},
     [HDisconnect (getLocation Demo.host Demo.C_prev);
      HBumpNeighbours (getLocation Demo.host Demo.C_blk)])
  /\ disconnectBlock Demo.host
       {| blockNode := Some Demo.F_blk; connectionNode := Some Demo.I_else |}
     = ({| blockNode := Some Demo.F_blk; connectionNode := Some Demo.I_else |},
        []).
Proof.
  split.
  - destruct (disconnectBlock_clears_only_on_success Demo.host
                {| blockNode := Some Demo.C_blk;
                   connectionNode := Some Demo.I_else |}) as (_ & H & _).
    destruct (H Demo.C_blk Demo.C_prev eq_refl eq_refl) as [H1 _].
    apply H1; reflexivity.
  - destruct (disconnectBlock_clears_only_on_success Demo.host
                {| blockNode := Some Demo.F_blk;
                   connectionNode := Some Demo.I_else |}) as (_ & _ & H & _).
    apply H. reflexivity.
Defined.

(** ** Rendering and the click listeners *)

Section RenderFacts.

Context {Node Block Connection : Type}.
Variable h : Host Node Block Connection.
Variable ctl : Controls Node Block Connection.

Local Abbreviation St := (State Node Block Connection).

Lemma makeStackItem_kept (s s' : St) (stack : Node)
  (item : Elem Node Block Connection) :
  makeStackItem_ h s stack = Normal (item, s') ->
  keptByRender s' = keptByRender s.
Proof.
  unfold makeStackItem_.
  destruct (marker s) as [m|]; cbn [deref bind]; [|discriminate].
  destruct (in_ h stack) as [firstIn|]; cbn [deref bind]; [|discriminate].
  destruct (if negb (ASTNodeType_eqb (getType h firstIn) BLOCK)
            then deref (nextBlock h firstIn) else Normal firstIn)
    as [blockNode|]; cbn [bind]; [|discriminate].
  destruct (mapM _ _) as [lists|]; cbn [bind]; [|discriminate].
  intros H. injection H as _ <-. reflexivity.
Qed.

Lemma makeStackItems_kept (stacks : list Node) :
  forall (s s' : St) (items : list (Elem Node Block Connection)),
    makeStackItems h s stacks = Normal (items, s') ->
    keptByRender s' = keptByRender s.
Proof.
  induction stacks as [|stack rest IH]; intros s s' items.
  - cbn. intros H. injection H as _ <-. reflexivity.
  - cbn [makeStackItems].
    destruct (makeStackItem_ h s stack) as [[item s1]|] eqn:E1;
      cbn [bind]; [|discriminate].
    destruct (makeStackItems h s1 rest) as [[items1 s2]|] eqn:E2;
      cbn [bind fst snd] in *; [|rewrite E2; discriminate].
    rewrite E2. cbn [bind fst snd]. intros H. injection H as _ <-.
    rewrite (IH _ _ _ E2). exact (makeStackItem_kept _ _ E1).
Qed.

Lemma makeWorkspaceView_kept (s s' : St) (view : Elem Node Block Connection) :
  makeWorkspaceView_ h s = Normal (view, s') ->
  keptByRender s' = keptByRender s.
Proof.
  unfold makeWorkspaceView_.
  destruct (in_ h (createWorkspaceNode h)) as [firstStack|];
    cbn [deref bind]; [|discriminate].
  destruct (makeStackItems _ _ _) as [[items s1]|] eqn:E;
    cbn [bind fst snd]; [|discriminate].
  intros H. injection H as _ <-.
  rewrite (makeStackItems_kept _ _ E). reflexivity.
Qed.

Lemma renderViews_kept (s : St) :
  keptByRender (snd (renderViews h ctl s)) = keptByRender s.
Proof.
  unfold renderViews.
  destruct (generateParentNav_ h ctl s (selectedNode s)) as [nav|e];
    [|reflexivity].
  cbn zeta.
  destruct (selected (setParentNav s nav)) as [[n br]|].
  - destruct (makeBlockSpecificView_ h ctl (setParentNav s nav) n br)
      as [v|e]; cbn [bind snd]; [|reflexivity].
    destruct (enforceDefaultCss _); reflexivity.
  - destruct (makeWorkspaceView_ h (setParentNav s nav)) as [[v s2]|e] eqn:E;
      cbn [snd]; [|reflexivity].
    apply makeWorkspaceView_kept in E.
    destruct (enforceDefaultCss _); cbn [snd]; exact E.
Qed.

Lemma generateList_0_kept (s : St) :
  keptByRender (snd (generateList_0 h ctl s)) = keptByRender s.
Proof.
  unfold generateList_0. destruct (workspaceIsEmpty h); [reflexivity|].
  apply renderViews_kept.
Qed.


(** X10.  "Cancel Move" gives back one item at a time, the connection
    first: after one click the connection slot is empty and the block slot
    is what it was if a connection was held, empty otherwise; after two
    clicks both slots are empty. *)
Theorem cancelMove_twice_empties (s : St) :
  let s1 := snd (cancelMoveOnclick_ h ctl s) in
  connectionNode (blockJoiner s1) = None
  /\ blockNode (blockJoiner s1)
     = (if isSome (connectionNode (blockJoiner s))
        then blockNode (blockJoiner s) else None)
  /\ blockJoiner (snd (cancelMoveOnclick_ h ctl s1)) = emptyJoiner.
Proof.
  cbn zeta.
  assert (Hj : forall s0 : St,
             blockJoiner (snd (cancelMoveOnclick_ h ctl s0))
             = if isSome (connectionNode (blockJoiner s0))
               then {| blockNode := blockNode (blockJoiner s0);
                       connectionNode := None |}
               else {| blockNode := None;
                       connectionNode := connectionNode (blockJoiner s0) |}).
  { intros s0. unfold cancelMoveOnclick_.
    pose proof (generateList_0_kept
                  (setBlockJoiner s0
                     (if isSome (connectionNode (blockJoiner s0))
                      then {| blockNode := blockNode (blockJoiner s0);
                              connectionNode := None |}
                      else {| blockNode := None;
                              connectionNode := connectionNode (blockJoiner s0) |})))
      as H.
    unfold keptByRender in H. injection H as H1 _. exact H1. }
  rewrite !Hj.
  destruct (connectionNode (blockJoiner s)) as [c|] eqn:Ec; cbn.
  - repeat split.
  - rewrite ?Ec. repeat split.
Qed.

Lemma highlightedAfter_snoc (calls : list (HostCall Block Connection))
  (c : HostCall Block Connection) (b : Block) :
  highlightedAfter h (calls ++ [c]) b
  = match c with
    | HSetHighlighted (LBlock b') on' =>
        if block_eq_dec h b' b then on' else highlightedAfter h calls b
    | _ => highlightedAfter h calls b
    end.
Proof. unfold highlightedAfter. rewrite fold_left_app. reflexivity. Qed.

Lemma clearHighlighted_dark (s s1 : St) :
  oneHighlight h s -> clearHighlighted h s = (Normal tt, s1) ->
  lastHighlighted s1 = lastHighlighted s
  /\ forall b, highlightedAfter h (hostCalls s1) b = false.
Proof.
  intros Hinv. unfold clearHighlighted, hostCall.
  destruct (lastHighlighted s) as [l|] eqn:El.
  - destruct (respond h (hostCalls s) _); intros H; try discriminate.
    injection H as <-. split; [exact El|]. intros b.
    cbn [hostCalls logCalls]. rewrite highlightedAfter_snoc.
    destruct (highlightedAfter h (hostCalls s) b) eqn:Eh.
    + apply Hinv in Eh. rewrite El in Eh. injection Eh as ->.
      destruct (block_eq_dec h b b); [reflexivity|congruence].
    + destruct l as [b'| |]; try reflexivity.
      destruct (block_eq_dec h b' b); reflexivity.
  - intros H. injection H as <-. split; [exact El|]. intros b.
    destruct (highlightedAfter h (hostCalls s) b) eqn:Eh; [|reflexivity].
    apply Hinv in Eh. congruence.
Qed.

Lemma highlightBlock_one (s s1 : St) (block : option (Location Block Connection)) :
  oneHighlight h s -> highlightBlock h s block = (Normal tt, s1) ->
  oneHighlight h s1 /\ lastHighlighted s1 = block.
Proof.
  intros Hinv. unfold highlightBlock.
  destruct (clearHighlighted h s) as [[[]|e] s0] eqn:Ec; [|discriminate].
  destruct (clearHighlighted_dark Hinv Ec) as [_ Hdark].
  destruct block as [l|].
  - unfold hostCall. destruct (respond h (hostCalls s0) _); try discriminate.
    intros H. injection H as <-. split; [|reflexivity].
    intros b. cbn [hostCalls lastHighlighted setLastHighlighted logCalls].
    rewrite highlightedAfter_snoc.
    destruct l as [b'| |]; rewrite ?Hdark; try discriminate.
    destruct (block_eq_dec h b' b); [subst; reflexivity|discriminate].
  - intros H. injection H as <-. split; [|reflexivity].
    intros b. cbn [hostCalls setLastHighlighted]. rewrite Hdark. discriminate.
Qed.

(** X11.  At most one block is highlighted.  If before a click on a list
    item the only block that the host shows highlighted is the one held in
    [lastHighlighted], then, when [listItemOnclick_] returns, that is so
    again, [lastHighlighted] holds the location of the clicked node (null
    for the workspace), and the selection is the clicked node with the
    branch that was passed. *)
Theorem listItemOnclick_one_highlight (s s' : St) (node : option Node)
  (branch : option (Branch Node Block Connection)) :
  oneHighlight h s ->
  listItemOnclick_ h ctl s node branch = (Normal tt, s') ->
  oneHighlight h s'
  /\ lastHighlighted s' = option_map (getLocation h) node
  /\ selected s' = option_map (fun n => (n, branch)) node.
Proof.
  intros Hinv. unfold listItemOnclick_.
  destruct (highlightBlock h s (option_map (getLocation h) node))
    as [[[]|e] s1] eqn:Eh; [|discriminate].
  destruct (highlightBlock_one _ Hinv Eh) as [Hinv1 Hlast].
  intros H.
  pose proof (generateList_0_kept
                (setSelected s1 (option_map (fun n => (n, branch)) node))) as K.
  rewrite H in K. cbn [snd] in K. unfold keptByRender in K.
  injection K as _ K2 _ _ _ _ _ K8 K9.
  cbn [selected lastHighlighted hostCalls setSelected] in *.
  split; [|split; congruence].
  intros b. rewrite K9, K8. apply Hinv1.
Qed.

End RenderFacts.

Lemma listItemOnclick_one_highlight_witness :
  exists s',
    listItemOnclick_ Demo.host Demo.controls Demo.fresh (Some Demo.C_blk) None
    = (Normal tt, s')
    /\ oneHighlight Demo.host s'
    /\ lastHighlighted s' = Some (LBlock Demo.bC)
    /\ selected s' = Some (Demo.C_blk, None).
Proof.
  eexists. split; [vm_compute; reflexivity|].
  eapply (@listItemOnclick_one_highlight _ _ _ Demo.host Demo.controls
            Demo.fresh _ (Some Demo.C_blk) None).
  - intros b H. discriminate H.
  - vm_compute. reflexivity.
Defined.

Section SelectionFacts.

Context {Node Block Connection : Type}.
Variable h : Host Node Block Connection.
Variable ctl : Controls Node Block Connection.

Local Abbreviation St := (State Node Block Connection).

Lemma logCalls_nil (s : St) : logCalls (setBlockJoiner s (blockJoiner s)) [] = s.
Proof. destruct s. unfold logCalls, setBlockJoiner. cbn. rewrite app_nil_r. reflexivity. Qed.

Lemma moveItemOnclick_after_push (s : St) (item : Node) :
  fst (fst (push h (blockJoiner s) item)) = Normal true ->
  selected (moveItemOnclick_ h ctl s item) = None
  /\ blockJoiner (moveItemOnclick_ h ctl s item)
     = joinerOf (push h (blockJoiner s) item)
  /\ hostCalls (moveItemOnclick_ h ctl s item)
     = hostCalls s ++ callsOf (push h (blockJoiner s) item).
Proof.
  unfold moveItemOnclick_, joinerOf, callsOf.
  destruct (push h (blockJoiner s) item) as [[c j] calls]. cbn [fst snd].
  intros ->.
  pose proof (generateList_0_kept h ctl
                (setSelected (logCalls (setBlockJoiner s j) calls) None)) as K.
  unfold keptByRender in K. injection K as K1 K2 _ _ _ _ _ _ K9.
  repeat split; assumption.
Qed.

(** X12.  When [push] returns true, a click on a move or insert control
    takes the view back to the workspace level: nothing is selected
    afterwards, the slots are as [push] left them and the calls of [push]
    are the only ones made.  When the node is neither a block nor a
    connection, the click changes nothing. *)
Theorem moveItemOnclick_returns_to_workspace (s : St) (item : Node) :
  (fst (fst (push h (blockJoiner s) item)) = Normal true ->
   selected (moveItemOnclick_ h ctl s item) = None
   /\ blockJoiner (moveItemOnclick_ h ctl s item)
      = joinerOf (push h (blockJoiner s) item)
   /\ hostCalls (moveItemOnclick_ h ctl s item)
      = hostCalls s ++ callsOf (push h (blockJoiner s) item))
  /\ (getLocation h item = LOther -> moveItemOnclick_ h ctl s item = s).
Proof.
  split.
  - apply moveItemOnclick_after_push.
  - intros Ho. unfold moveItemOnclick_, push. rewrite Ho. apply logCalls_nil.
Qed.

Lemma highlightBlock_cooldown (s : St) (block : option (Location Block Connection)) :
  cooldown_ (snd (highlightBlock h s block)) = cooldown_ s.
Proof.
  unfold highlightBlock, clearHighlighted, hostCall.
  destruct (lastHighlighted s) as [l0|].
  - destruct (respond h (hostCalls s) _); try reflexivity.
    destruct block as [l|]; [|reflexivity].
    cbn [hostCalls logCalls]. destruct (respond h _ _); reflexivity.
  - destruct block as [l|]; [|reflexivity].
    destruct (respond h _ _); reflexivity.
Qed.

Lemma listItemOnclick_cooldown (s : St) (node : option Node)
  (branch : option (Branch Node Block Connection)) :
  cooldown_ (snd (listItemOnclick_ h ctl s node branch)) = cooldown_ s.
Proof.
  unfold listItemOnclick_.
  pose proof (highlightBlock_cooldown s (option_map (getLocation h) node)) as Hc.
  destruct (highlightBlock h s (option_map (getLocation h) node))
    as [[[]|e] s1]; cbn [snd] in *; [|exact Hc].
  pose proof (generateList_0_kept h ctl
                (setSelected s1 (option_map (fun n => (n, branch)) node))) as K.
  unfold keptByRender in K. injection K as _ _ _ K4 _ _ _ _ _.
  rewrite K4. exact Hc.
Qed.

Lemma highlightBlock_last (s s1 : St) (block : option (Location Block Connection)) :
  highlightBlock h s block = (Normal tt, s1) ->
  lastHighlighted s1 = block /\ selected s1 = selected s.
Proof.
  unfold highlightBlock, clearHighlighted, hostCall.
  destruct (lastHighlighted s) as [l0|].
  - destruct (respond h (hostCalls s) _); try discriminate.
    destruct block as [l|].
    + cbn [hostCalls logCalls].
      destruct (respond h _ _); try discriminate.
      intros H. injection H as <-. split; reflexivity.
    + intros H. injection H as <-. split; reflexivity.
  - destruct block as [l|].
    + destruct (respond h _ _); try discriminate.
      intros H. injection H as <-. split; reflexivity.
    + intros H. injection H as <-. split; reflexivity.
Qed.

Lemma listItemOnclick_sets (s s' : St) (node : option Node)
  (branch : option (Branch Node Block Connection)) :
  listItemOnclick_ h ctl s node branch = (Normal tt, s') ->
  lastHighlighted s' = option_map (getLocation h) node
  /\ selected s' = option_map (fun n => (n, branch)) node.
Proof.
  unfold listItemOnclick_.
  destruct (highlightBlock h s (option_map (getLocation h) node))
    as [[[]|e] s1] eqn:Eh; [|discriminate].
  destruct (highlightBlock_last _ _ Eh) as [Hlast _].
  intros H.
  pose proof (generateList_0_kept h ctl
                (setSelected s1 (option_map (fun n => (n, branch)) node))) as K.
  rewrite H in K. cbn [snd] in K. unfold keptByRender in K.
  injection K as _ K2 _ _ _ _ _ K8 _.
  cbn [selected lastHighlighted setSelected] in *. split; congruence.
Qed.

Lemma generateList_after_event (s s' : St) (e : Event) (now now' : Z) :
  workspaceIsEmpty h = false ->
  generateList_ h ctl s (Some e) now now' = (Normal tt, s') ->
  exists s1,
    alterSelectedWithEvent_ h ctl s e now now' = (Normal tt, s1)
    /\ selected s' = selected s1 /\ lastHighlighted s' = lastHighlighted s1.
Proof.
  intros Hne. unfold generateList_. rewrite Hne.
  destruct (alterSelectedWithEvent_ h ctl s e now now') as [[[]|x] s1];
    [|discriminate].
  intros H. exists s1. split; [reflexivity|].
  pose proof (renderViews_kept h ctl s1) as K. rewrite H in K. cbn [snd] in K.
  unfold keptByRender in K. injection K as _ K2 _ _ _ _ _ K8 _.
  split; assumption.
Qed.

(** X13.  Every event that is not a move, a creation or a UI event, a
    deletion and the end of loading among them, sends the view back to the
    workspace level, and so does a click or selection event that names no
    block: when the render of such an event returns on a workspace that has
    blocks, nothing is selected and no block is held as highlighted. *)
Theorem other_events_reset_selection (s s' : St) (e : Event) (now now' : Z) :
  workspaceIsEmpty h = false ->
  match ev_type e with
  | BLOCK_DELETE | FINISHED_LOADING | OTHER_EVENT => True
  | UI => (sameId (ev_element e) (Some (str "selected"))
           || sameId (ev_element e) (Some (str "click"))) = true
          /\ falsyString (ev_blockId e) = true
  | BLOCK_MOVE | BLOCK_CREATE => False
  end ->
  generateList_ h ctl s (Some e) now now' = (Normal tt, s') ->
  selected s' = None /\ lastHighlighted s' = None.
Proof.
  intros Hne Hty Hgen.
  destruct (generateList_after_event _ _ _ _ Hne Hgen) as [s1 [Ha [-> ->]]].
  unfold alterSelectedWithEvent_ in Ha.
  destruct (ev_type e); try contradiction.
  - destruct Hty as [Hsel Hid]. rewrite Hsel, Hid in Ha. cbn [negb] in Ha.
    destruct (listItemOnclick_sets _ _ _ Ha) as [H1 H2]. split; assumption.
  - destruct (listItemOnclick_sets _ _ _ Ha) as [H1 H2]. split; assumption.
  - destruct (listItemOnclick_sets _ _ _ Ha) as [H1 H2]. split; assumption.
  - destruct (listItemOnclick_sets _ _ _ Ha) as [H1 H2]. split; assumption.
Qed.

(** X14.  A UI event that is neither a selection nor a click keeps the
    selected node and forgets the selected branch: when its render returns,
    the selection is the node that was selected, with no branch, so that an
    if block that showed one branch shows all of them again. *)
Theorem ui_event_forgets_branch (s s' : St) (e : Event) (now now' : Z) :
  workspaceIsEmpty h = false ->
  ev_type e = UI ->
  (sameId (ev_element e) (Some (str "selected"))
   || sameId (ev_element e) (Some (str "click"))) = false ->
  generateList_ h ctl s (Some e) now now' = (Normal tt, s') ->
  selected s' = option_map (fun n => (n, None)) (selectedNode s).
Proof.
  intros Hne Hty Hel Hgen.
  destruct (generateList_after_event _ _ _ _ Hne Hgen) as [s1 [Ha [-> _]]].
  unfold alterSelectedWithEvent_ in Ha. rewrite Hty, Hel in Ha.
  cbn [negb] in Ha.
  destruct (listItemOnclick_sets _ _ _ Ha) as [_ H2]. exact H2.
Qed.

(** X15.  The creation of a block selects it and starts a cooldown: when
    [alterSelectedWithEvent_] returns from a creation event whose block the
    workspace has, the new block is selected, with no branch, it is the one
    held as highlighted, and the cooldown ends 100 ms after the time at
    which it was started. *)
Theorem creation_selects_and_starts_cooldown (s s' : St) (e : Event)
  (now now' : Z) (id : jsstring) (b : Block) :
  ev_type e = BLOCK_CREATE -> ev_blockId e = Some id ->
  getBlockById h id = Some b ->
  alterSelectedWithEvent_ h ctl s e now now' = (Normal tt, s') ->
  selected s' = Some (createBlockNode h b, None)
  /\ lastHighlighted s' = Some (getLocation h (createBlockNode h b))
  /\ cooldown_ s' = VNum (now' + 100).
Proof.
  intros Hty Hid Hb Ha. unfold alterSelectedWithEvent_ in Ha.
  rewrite Hty in Ha. unfold blockNodeById in Ha. rewrite Hid, Hb in Ha.
  cbn [option_map isSome] in Ha.
  destruct (listItemOnclick_sets _ _ _ Ha) as [H1 H2].
  repeat split; try assumption.
  match type of Ha with
  | listItemOnclick_ _ _ ?s0 ?n ?br = _ =>
      pose proof (listItemOnclick_cooldown s0 n br) as Hc
  end.
  rewrite Ha in Hc. exact Hc.
Qed.

Lemma skipped_move (s : St) (e : Event) (now now' : Z) :
  ev_type e = BLOCK_MOVE ->
  truthy (cooldown_ s) = true -> lessThan (cooldown_ s) now = true ->
  alterSelectedWithEvent_ h ctl s e now now'
  = (Normal tt, setCooldown_ s (VBool true)).
Proof.
  intros Hty Ht Hl. unfold alterSelectedWithEvent_. rewrite Hty, Ht, Hl.
  reflexivity.
Qed.

Lemma handleEvents_muted (l : list (Event * Z)) :
  forall s : St,
    truthy (cooldown_ s) = true ->
    Forall (fun p => ev_type (fst p) = BLOCK_MOVE
                     /\ lessThan (cooldown_ s) (snd p) = true
                     /\ 1 < snd p) l ->
    handleEvents h ctl s l
    = match l with
      | [] => s
      | _ :: _ => setCooldown_ s (VBool true)
      end.
Proof.
  induction l as [|[e now] l IH]; intros s Ht Hall; [reflexivity|].
  inversion Hall as [|? ? [Hty [Hl Hnow]] Hrest]; subst.
  cbn [handleEvents fst snd] in *.
  rewrite (@skipped_move s e now now Hty Ht Hl). cbn [snd].
  rewrite IH.
  - destruct l; reflexivity.
  - reflexivity.
  - eapply Forall_impl; [|exact Hrest]. intros [e' now'] [Hty' [_ Hn']].
    cbn [fst snd cooldown_ setCooldown_ lessThan] in *.
    repeat split; try assumption. apply Z.ltb_lt. exact Hn'.
Qed.

(** X16.  Once a cooldown has run out, move events no longer change the
    selection.  If the cooldown holds a deadline (or the value true) and
    the move events of a sequence are all handled after it, then handling
    them leaves the linearization as it was, with the cooldown set to true:
    the selection does not follow the moved blocks, and no host call is
    made. *)
Theorem expired_cooldown_mutes_moves (s : St) (l : list (Event * Z)) :
  truthy (cooldown_ s) = true ->
  l <> [] ->
  Forall (fun p => ev_type (fst p) = BLOCK_MOVE
                   /\ lessThan (cooldown_ s) (snd p) = true
                   /\ 1 < snd p) l ->
  handleEvents h ctl s l = setCooldown_ s (VBool true).
Proof.
  intros Ht Hne Hall. rewrite (@handleEvents_muted l s Ht Hall).
  destruct l; [congruence|reflexivity].
Qed.

(** X17.  A move from start to end.  With both slots empty, a click on the
    move control of a block and then a click on an insert control for a
    next or input connection, where the block has a neighbour before it,
    stores the block without any call to the host, then makes the calls
    that detach the block from where it sat, if it sat below or inside
    another, calls [connect] on the chosen connection with the connection
    before the block, and leaves both slots empty and the view at the
    workspace level.  A reload follows the [connect] call at most. *)
Theorem move_then_insert_connects (s : St) (blk conn p : Node) (b : Block)
  (c : Connection) :
  blockJoiner s = emptyJoiner ->
  getLocation h blk = LBlock b -> getLocation h conn = LConnection c ->
  getType h conn = NEXT \/ getType h conn = INPUT ->
  prev h blk = Some p ->
  let s1 := moveItemOnclick_ h ctl s blk in
  let s2 := moveItemOnclick_ h ctl s1 conn in
  blockJoiner s1 = {| blockNode := Some blk; connectionNode := None |}
  /\ hostCalls s1 = hostCalls s
  /\ blockJoiner s2 = emptyJoiner
  /\ selected s2 = None
  /\ exists reload,
       hostCalls s2
       = hostCalls s ++ detachOld h blk
         ++ [HConnect (LConnection c) (getLocation h p)] ++ reload
       /\ (reload = [] \/ reload = [HReload]).
Proof.
  intros Hj Hb Hc Hty Hp. cbn zeta.
  destruct (push_first h (blockJoiner s) blk) as [H1 _].
  specialize (H1 b Hb). rewrite Hj in H1. specialize (H1 eq_refl).
  assert (Hpush1 : fst (fst (push h (blockJoiner s) blk)) = Normal true)
    by (rewrite Hj, H1; reflexivity).
  destruct (moveItemOnclick_after_push s blk Hpush1) as [_ [Hj1 Hc1]].
  rewrite Hj, H1 in Hj1, Hc1. unfold joinerOf, callsOf in Hj1, Hc1.
  cbn [fst snd] in Hj1, Hc1. rewrite app_nil_r in Hc1.
  split; [exact Hj1|]. split; [exact Hc1|].
  set (s1 := moveItemOnclick_ h ctl s blk) in *.
  assert (Hpush2 :
            push h (blockJoiner s1) conn
            = (Normal true, emptyJoiner,
               detachOld h blk
               ++ connectTo h (detachOld h blk) (LConnection c) (getLocation h p))).
  { rewrite Hj1. unfold push. rewrite Hc. unfold attemptConnection_.
    cbn [blockNode connectionNode].
    assert (Hback : back h (getType h conn) = Some (prev h))
      by (destruct Hty as [-> | ->]; reflexivity).
    rewrite Hback, Hp, Hc. reflexivity. }
  assert (Hok : fst (fst (push h (blockJoiner s1) conn)) = Normal true)
    by (rewrite Hpush2; reflexivity).
  destruct (moveItemOnclick_after_push s1 conn Hok) as [Hsel [Hj2 Hc2]].
  rewrite Hpush2 in Hj2, Hc2. unfold joinerOf, callsOf in Hj2, Hc2.
  cbn [fst snd] in Hj2, Hc2.
  split; [exact Hj2|]. split; [exact Hsel|].
  rewrite Hc2, Hc1. unfold connectTo.
  destruct (respond h _ _).
  - exists []. split; [reflexivity|left; reflexivity].
  - exists []. split; [reflexivity|left; reflexivity].
  - exists [HReload]. split; [reflexivity|right; reflexivity].
Qed.

End SelectionFacts.

(** ** The style of the list *)

Lemma getKey_setKey_same (k v : jsstring) (l : list (jsstring * jsstring)) :
  getKey k (setKey k v l) = Some v.
Proof.
  induction l as [|[k' v'] l IH]; cbn.
  - rewrite js_eqb_refl. reflexivity.
  - destruct (js_eqb k k') eqn:E; cbn.
    + rewrite js_eqb_refl. reflexivity.
    + rewrite E. exact IH.
Qed.

Lemma getKey_setKey_other (k k' v : jsstring) (l : list (jsstring * jsstring)) :
  js_eqb k' k = false -> getKey k' (setKey k v l) = getKey k' l.
Proof.
  intros Hk. induction l as [|[k0 v0] l IH]; cbn.
  - rewrite Hk. reflexivity.
  - destruct (js_eqb k k0) eqn:E; cbn.
    + apply js_eqb_eq in E. subst k0. rewrite Hk. reflexivity.
    + rewrite IH. reflexivity.
Qed.

Lemma setKey_already (k v : jsstring) (l : list (jsstring * jsstring)) :
  getKey k l = Some v -> setKey k v l = l.
Proof.
  induction l as [|[k' v'] l IH]; cbn; [discriminate|].
  destruct (js_eqb k k') eqn:E.
  - intros H. injection H as ->. apply js_eqb_eq in E. subst. reflexivity.
  - intros H. rewrite (IH H). reflexivity.
Qed.

Section StyleFacts.

Context {Node Block Connection : Type}.

Local Abbreviation El := (Elem Node Block Connection).
Local Abbreviation St := (State Node Block Connection).

Lemma Elem_induction (P : El -> Prop) :
  (forall t, P (TextNode t)) ->
  (forall tag attrs ls cs, Forall P cs -> P (Element tag attrs ls cs)) ->
  forall e, P e.
Proof.
  intros Ht He. fix IH 1. intros [t|tag attrs ls cs]; [apply Ht|].
  apply He. induction cs as [|c cs IHcs]; constructor; [apply IH|exact IHcs].
Qed.

Lemma navStyle_idem (pixels : Z) (tag : jsstring)
  (attrs : list (jsstring * jsstring)) :
  navStyle pixels tag (navStyle pixels tag attrs) = navStyle pixels tag attrs.
Proof.
  unfold navStyle, setStyleLength.
  destruct (js_eqb tag (str "span")); [reflexivity|].
  destruct (0 <=? pixels).
  - rewrite (@setKey_already (str "style.list-style-type") (str "none")).
    + apply setKey_already, getKey_setKey_same.
    + rewrite getKey_setKey_other by reflexivity. apply getKey_setKey_same.
  - apply setKey_already, getKey_setKey_same.
Qed.

Lemma styleNav_idem (pixels : Z) (e : El) :
  styleNav pixels (styleNav pixels e) = styleNav pixels e.
Proof.
  induction e as [t|tag attrs ls cs IH] using Elem_induction; [reflexivity|].
  cbn. rewrite navStyle_idem, map_map. f_equal.
  apply map_ext_Forall. exact IH.
Qed.

Lemma styleNav_keeps (pixels : Z) (e : El) :
  listenersIn (styleNav pixels e) = listenersIn e
  /\ textContent (styleNav pixels e) = textContent e.
Proof.
  induction e as [t|tag attrs ls cs IH] using Elem_induction;
    [split; reflexivity|].
  cbn. rewrite !flat_map_concat_map, !map_map. split.
  - f_equal. f_equal. apply map_ext_Forall.
    eapply Forall_impl; [|exact IH]. intros c [H _]. exact H.
  - f_equal. apply map_ext_Forall.
    eapply Forall_impl; [|exact IH]. intros c [_ H]. exact H.
Qed.

Lemma styleNav_indented (pixels : Z) (e : El) :
  0 <= pixels ->
  Forall (indented (Z_to_js pixels ++ str "px")) (descendants (styleNav pixels e)).
Proof.
  intros Hpx. apply Z.leb_le in Hpx.
  induction e as [t|tag attrs ls cs IH] using Elem_induction; [constructor|].
  cbn [styleNav descendants]. rewrite flat_map_concat_map, map_map.
  apply Forall_concat. apply Forall_map.
  eapply Forall_impl; [|exact IH]. intros [t|tag' attrs' ls' cs'] Hc;
    [constructor|].
  constructor; [|exact Hc].
  unfold indented. cbn [styleNav tagName getAttribute].
  unfold navStyle, setStyleLength. rewrite Hpx.
  destruct (js_eqb tag' (str "span")) eqn:E.
  - left. apply js_eqb_eq in E. subst. reflexivity.
  - right. split.
    + apply getKey_setKey_same.
    + rewrite getKey_setKey_other by reflexivity. apply getKey_setKey_same.
Qed.

(** X18.  Applying the indent and bullet scheme twice is the same as
    applying it once. *)
Theorem applyNavStyle_idempotent (s : St) :
  applyNavStyle_ (applyNavStyle_ s) = applyNavStyle_ s.
Proof.
  unfold applyNavStyle_, setMainNavList. cbn.
  destruct (mainNavList s) as [t|tag attrs ls cs]; [reflexivity|].
  do 2 f_equal. rewrite map_map. apply map_ext. intros c. apply styleNav_idem.
Qed.

(** X19.  After [setIndentPixels(pixels)] with a number of pixels that is
    not negative, every element below the list that is not a span has the
    indent [pixels + 'px'] and no bullet, and the restyling has neither
    removed nor added a click listener or a piece of text. *)
Theorem setIndentPixels_restyles_the_list (s : St) (pixels : Z) :
  0 <= pixels ->
  let s' := setIndentPixels s pixels in
  Forall (indented (Z_to_js pixels ++ str "px")) (descendants (mainNavList s'))
  /\ listenersIn (mainNavList s') = listenersIn (mainNavList s)
  /\ textContent (mainNavList s') = textContent (mainNavList s)
  /\ indentPixels_ s' = pixels.
Proof.
  intros Hpx. cbn zeta. unfold setIndentPixels, applyNavStyle_.
  cbn [mainNavList setMainNavList withIndentPixels indentPixels_].
  destruct (mainNavList s) as [t|tag attrs ls cs].
  - repeat split. constructor.
  - cbn [descendants listenersIn textContent]. repeat split.
    + rewrite flat_map_concat_map, map_map.
      apply Forall_concat, Forall_map, Forall_forall. intros c _.
      pose proof (@styleNav_indented pixels
                    (Element (str "x") [] [] [c]) Hpx) as H.
      cbn [styleNav descendants map flat_map] in H. rewrite app_nil_r in H.
      exact H.
    + rewrite !flat_map_concat_map, map_map. do 2 f_equal.
      apply map_ext. intros c. apply styleNav_keeps.
    + rewrite !flat_map_concat_map, map_map. f_equal.
      apply map_ext. intros c. apply styleNav_keeps.
Qed.

End StyleFacts.

Lemma setIndentPixels_restyles_the_list_witness :
  let s := snd (generateList_0 Demo.host Demo.controls Demo.fresh) in
  let s' := setIndentPixels s 30 in
  Forall (indented (Z_to_js 30 ++ str "px")) (descendants (mainNavList s'))
  /\ listenersIn (mainNavList s') = listenersIn (mainNavList s)
  /\ textContent (mainNavList s') = textContent (mainNavList s)
  /\ indentPixels_ s' = 30.
Proof.
  intros s. apply (@setIndentPixels_restyles_the_list _ _ _ s 30). lia.
Defined.

(** ** The controls of the views *)

Section ListenerFacts.

Context {Node Block Connection : Type}.

Local Abbreviation El := (Elem Node Block Connection).
Local Abbreviation Hd := (Handler Node Block Connection).

Variable Q : Hd -> Prop.

Local Abbreviation allListeners := (allListeners Q).

Lemma all_setAttribute (k v : jsstring) (e : El) :
  allListeners e -> allListeners (setAttribute k v e).
Proof. destruct e; exact (fun H => H). Qed.

Lemma all_addEventListener (hd : Hd) (e : El) :
  Q hd -> allListeners e -> allListeners (addEventListener hd e).
Proof.
  intros Hq. destruct e as [t|tag attrs ls cs]; [exact (fun H => H)|].
  unfold allListeners. cbn. rewrite !Forall_app.
  intros [H1 H2]. repeat split; auto.
Qed.

Lemma all_append (new : list El) (e : El) :
  allListeners e -> Forall allListeners new -> allListeners (append new e).
Proof.
  destruct e as [t|tag attrs ls cs]; [exact (fun H _ => H)|].
  unfold allListeners. cbn. rewrite !flat_map_concat_map, map_app, concat_app.
  rewrite !Forall_app. intros [H1 H2] H3. repeat split; auto.
  apply Forall_concat, Forall_map. exact H3.
Qed.

Lemma all_children (tag : jsstring) (attrs : list (jsstring * jsstring))
  (ls : list Hd) (cs : list El) :
  allListeners (Element tag attrs ls cs)
  <-> Forall Q ls /\ Forall allListeners cs.
Proof.
  unfold allListeners. cbn. rewrite flat_map_concat_map, Forall_app.
  split; intros [H1 H2]; split; auto.
  - apply Forall_forall. intros c Hc. rewrite Forall_concat in H2.
    rewrite Forall_forall in H2. apply H2. apply in_map. exact Hc.
  - apply Forall_concat, Forall_map. exact H2.
Qed.

Lemma all_setTextContent (t : jsstring) (e : El) :
  allListeners e -> allListeners (setTextContent t e).
Proof.
  destruct e as [t'|tag attrs ls cs]; [intros _; constructor|].
  cbn [setTextContent]. rewrite !all_children. intros [H _]. split; [exact H|].
  constructor; constructor.
Qed.

Lemma all_onFirstChild (f : El -> El) (e : El) :
  (forall c, allListeners c -> allListeners (f c)) ->
  allListeners e -> allListeners (onFirstChild f e).
Proof.
  intros Hf. destruct e as [t|tag attrs ls [|c cs]]; try exact (fun H => H).
  cbn [onFirstChild]. rewrite !all_children. intros [H1 H2].
  inversion H2; subst. split; [exact H1|]. constructor; auto.
Qed.

End ListenerFacts.

Section ViewControlFacts.

Context {Node Block Connection : Type}.
Variable h : Host Node Block Connection.

Local Abbreviation El := (Elem Node Block Connection).
Local Abbreviation St := (State Node Block Connection).
Local Abbreviation Loc := (Location Block Connection).

Lemma nav_makeTextItem (s : St) (t : jsstring) : navigationOnly (makeTextItem s t).
Proof. constructor. Qed.

Lemma nav_createElement (s : St) (tag : jsstring) :
  navigationOnly (createElement s tag).
Proof. constructor. Qed.

Lemma nav_makeBlockItem (s : St) (n : Node)
  (br : option (Branch Node Block Connection)) (item : El) :
  makeBlockItem_ h s n br = Normal item -> navigationOnly item.
Proof.
  unfold makeBlockItem_. destruct (getLocation h n); try discriminate.
  intros H. apply Normal_inj in H. subst.
  apply all_setAttribute, all_addEventListener; [exact I|].
  do 2 apply all_setAttribute.
  apply all_onFirstChild; [intros c; apply all_setAttribute|].
  apply nav_makeTextItem.
Qed.

Lemma nav_endLabelOf (s : St) (l : Loc) :
  Forall navigationOnly (optList (endLabelOf h s l)).
Proof.
  unfold endLabelOf. destruct (getNestingBlockName h l); constructor;
    [|constructor].
  apply all_onFirstChild; [intros c; apply all_setAttribute|].
  apply nav_makeTextItem.
Qed.

Lemma nav_alterAriaLabel (b : Block) (item : El) :
  navigationOnly item -> navigationOnly (alterAriaLabel h b item).
Proof.
  intros H. unfold alterAriaLabel.
  apply all_onFirstChild; [intros c; apply all_setAttribute|].
  destruct (getSurroundParent h b); [|exact H].
  apply all_onFirstChild; [intros c; apply all_setAttribute|exact H].
Qed.

Lemma nav_cutReturnText (item : El) :
  navigationOnly item -> navigationOnly (cutReturnText item).
Proof.
  intros H. unfold cutReturnText. apply all_onFirstChild; [|exact H].
  intros c Hc. destruct (cutAtLast _ _); [apply all_setTextContent|]; exact Hc.
Qed.

Section NothingHeld.

Variable s : St.
Hypothesis nothingHeld : blockNode (blockJoiner s) = None.

Lemma nav_makeNodeItems (n : Node) (ni : NodeItems) :
  makeNodeItems_ h s n = Normal ni ->
  first ni = None /\ final ni = None /\ navigationOnly (main ni).
Proof.
  unfold makeNodeItems_, makePrevConnectionItem_, makeNextConnectionItem_,
    displayFor. rewrite nothingHeld.
  destruct (makeBlockItem_ h s n None) as [m|] eqn:E; cbn [bind]; [|discriminate].
  intros H. apply Normal_inj in H. subst. repeat split. exact (nav_makeBlockItem _ _ _ E).
Qed.

Lemma nav_makeIfBracketItem (n : Node) (br : Branch Node Block Connection)
  (item : El) :
  makeIfBracketItem_ h s n br = Normal item -> navigationOnly item.
Proof.
  unfold makeIfBracketItem_. rewrite nothingHeld.
  destruct (if branch_type br =? 3 then _ else _) as [t|]; cbn [bind];
    [|discriminate].
  destruct (makeBlockItem_ h s n (Some br)) as [m|] eqn:E; cbn [bind];
    [|discriminate].
  intros H. apply Normal_inj in H. subst.
  apply all_onFirstChild; [intros c; apply all_setTextContent|].
  exact (nav_makeBlockItem _ _ _ E).
Qed.

Lemma nav_makeReturnItem (n : Node) (item : El) :
  makeReturnItem_ h s n = Normal item -> navigationOnly item.
Proof.
  unfold makeReturnItem_. rewrite nothingHeld.
  destruct (deref _) as [i|]; cbn [bind]; [|discriminate].
  destruct (findReturnNode h _) as [found|]; cbn [bind]; [|discriminate].
  destruct (deref found) as [returnNode|]; cbn [bind]; [|discriminate].
  destruct (nodeAfterIn h returnNode) as [returnBlock|].
  - destruct (makeBlockItem_ h s returnBlock None) as [m|] eqn:E; cbn [bind];
      [|discriminate].
    intros H. apply Normal_inj in H. subst.
    apply all_onFirstChild; [intros c; apply all_setTextContent|].
    exact (nav_makeBlockItem _ _ _ E).
  - intros H. apply Normal_inj in H. subst. apply nav_makeTextItem.
Qed.

Lemma nav_mapM_concat {A} (f : A -> Completion (list El)) (l : list A)
  (lists : list (list El)) :
  (forall a items, In a l -> f a = Normal items -> Forall navigationOnly items) ->
  mapM f l = Normal lists -> Forall navigationOnly (List.concat lists).
Proof.
  revert lists. induction l as [|a l IH]; intros lists Hf; cbn.
  - intros H. apply Normal_inj in H. subst. constructor.
  - destruct (f a) as [items|] eqn:Ea; cbn [bind]; [|discriminate].
    destruct (mapM f l) as [rest|]; cbn [bind]; [|discriminate].
    intros H. apply Normal_inj in H. subst. cbn. apply Forall_app. split.
    + apply (Hf a); [left; reflexivity|exact Ea].
    + apply IH; [|reflexivity]. intros a' items' Hin. apply Hf. right. exact Hin.
Qed.

Lemma nav_generateInnerBody (expand : Node -> Completion (list El)) (n : Node)
  (body : El) :
  (forall m items, expand m = Normal items -> Forall navigationOnly items) ->
  generateInnerBody h s expand n = Normal body -> navigationOnly body.
Proof.
  intros He. unfold generateInnerBody.
  destruct (mapM expand _) as [items|] eqn:E; cbn [bind]; [|discriminate].
  intros H. apply Normal_inj in H. subst.
  apply all_append; [apply nav_createElement|].
  apply (nav_mapM_concat expand _ (fun a items _ => He a items) E).
Qed.

Lemma nav_expandBlock (expand : Node -> Completion (list El)) (n : Node)
  (b : Block) (items : list El) :
  (forall m items, expand m = Normal items -> Forall navigationOnly items) ->
  expandBlock h s expand n b (endLabelOf h s (LBlock b)) = Normal items ->
  Forall navigationOnly items.
Proof.
  intros He. unfold expandBlock.
  destruct (makeNodeItems_ h s n) as [basic|] eqn:Eb; cbn [bind]; [|discriminate].
  destruct (nav_makeNodeItems _ Eb) as [Hf [Hl Hm]]. rewrite Hf, Hl.
  match goal with
  | |- context [bind ?m _] => destruct m as [middle|] eqn:Em
  end; cbn [bind]; [|discriminate].
  intros H. apply Normal_inj in H. subst. cbn [optList app]. rewrite app_nil_r.
  apply Forall_app. split; [|apply nav_endLabelOf].
  destruct (js_eqb (block_type h b) (str "controls_if")).
  - destruct (getIfBranches h n) as [branches|]; cbn [bind] in Em;
      [|discriminate].
    destruct (mapM _ branches) as [sections|] eqn:Es; cbn [bind] in Em;
      [|discriminate].
    apply Normal_inj in Em. subst.
    eapply nav_mapM_concat; [|exact Es].
    intros br its _. unfold ifSection.
    destruct (makeIfBracketItem_ h s n br) as [hd|] eqn:Eh; cbn [bind];
      [|discriminate].
    destruct (bodyNode br) as [bn|].
    + destruct (generateInnerBody h s expand bn) as [body|] eqn:Eg; cbn [bind];
        [|discriminate].
      intros H. apply Normal_inj in H. subst.
      constructor; [apply nav_alterAriaLabel, (nav_makeIfBracketItem _ _ Eh)|].
      constructor; [|constructor]. exact (nav_generateInnerBody _ _ He Eg).
    + cbn [bind]. intros H. apply Normal_inj in H. subst.
      constructor; [apply nav_alterAriaLabel, (nav_makeIfBracketItem _ _ Eh)|].
      constructor; [|constructor]. unfold emptyBranchBody. rewrite nothingHeld.
      apply nav_createElement.
  - destruct (inBlock h n) as [firstNested|].
    + destruct (generateInnerBody h s expand firstNested) as [body|] eqn:Eg;
        cbn [bind] in Em; [|discriminate].
      destruct (js_eqb (block_type h b) (str "procedures_defreturn")).
      * destruct (makeReturnItem_ h s n) as [ret|] eqn:Er; cbn [bind] in Em;
          [|discriminate].
        apply Normal_inj in Em. subst.
        constructor; [apply nav_cutReturnText, nav_alterAriaLabel, Hm|].
        constructor; [|constructor].
        apply all_append; [exact (nav_generateInnerBody _ _ He Eg)|].
        constructor; [exact (nav_makeReturnItem _ Er)|constructor].
      * apply Normal_inj in Em. subst.
        constructor; [apply nav_alterAriaLabel, Hm|].
        constructor; [|constructor]. exact (nav_generateInnerBody _ _ He Eg).
    + rewrite nothingHeld in Em. cbn [isSome andb] in Em. apply Normal_inj in Em. subst.
      constructor; [apply nav_alterAriaLabel, Hm|constructor].
Qed.

Lemma nav_makeBlockList (fuel : nat) :
  forall (n : Node) (rootBlock : Loc) (items : list El),
    makeBlockList_ h fuel s n rootBlock = Normal items ->
    Forall navigationOnly items.
Proof.
  induction fuel as [|fuel IH]; intros n rootBlock items; [discriminate|].
  cbn [makeBlockList_].
  destruct (negb (ASTNodeType_eqb (getType h n) BLOCK)).
  - intros H. apply Normal_inj in H. subst. apply nav_endLabelOf.
  - destruct (getLocation h n) as [b| |] eqn:El; try discriminate.
    destruct (notRootOwned h rootBlock b).
    + intros H. apply Normal_inj in H. subst. apply nav_endLabelOf.
    + apply nav_expandBlock. intros m its. apply IH.
Qed.

End NothingHeld.

Lemma nav_makeStackItems (stacks : list Node) :
  forall (s s' : St) (items : list El),
    blockNode (blockJoiner s) = None ->
    makeStackItems h s stacks = Normal (items, s') ->
    Forall navigationOnly items.
Proof.
  induction stacks as [|stack rest IH]; intros s s' items Hs.
  - cbn. intros H. injection H as <- _. constructor.
  - cbn [makeStackItems].
    destruct (makeStackItem_ h s stack) as [[item s1]|] eqn:E1;
      cbn [bind]; [|discriminate].
    destruct (makeStackItems h s1 rest) as [[items1 s2]|] eqn:E2;
      cbn [bind fst snd] in *; [|rewrite E2; discriminate].
    rewrite E2. cbn [bind fst snd]. intros H. injection H as <- _.
    assert (Hs1 : blockNode (blockJoiner s1) = None).
    { pose proof (makeStackItem_kept _ _ _ E1) as K. unfold keptByRender in K.
      injection K as -> _. exact Hs. }
    constructor; [|exact (IH _ _ _ Hs1 E2)].
    unfold makeStackItem_ in E1.
    destruct (marker s) as [m|]; cbn [deref bind] in E1; [|discriminate].
    destruct (in_ h stack) as [firstIn|]; cbn [deref bind] in E1; [|discriminate].
    destruct (if negb (ASTNodeType_eqb (getType h firstIn) BLOCK)
              then deref (nextBlock h firstIn) else Normal firstIn)
      as [blockNode|]; cbn [bind] in E1; [|discriminate].
    destruct (mapM _ _) as [lists|] eqn:El; cbn [bind] in E1; [|discriminate].
    apply Normal_inj, pair_equal_spec in E1. destruct E1 as [Hitem Hs1'].
    subst item s1.
    apply all_append; [apply nav_createElement|].
    constructor; [apply nav_makeTextItem|]. constructor; [|constructor].
    apply all_append; [apply nav_createElement|].
    eapply nav_mapM_concat; [|exact El].
    intros n its _. apply nav_makeBlockList. exact Hs.
Qed.

Lemma nav_makeWorkspaceView (s s' : St) (view : El) :
  blockNode (blockJoiner s) = None ->
  makeWorkspaceView_ h s = Normal (view, s') ->
  navigationOnly view.
Proof.
  intros Hs. unfold makeWorkspaceView_.
  destruct (in_ h (createWorkspaceNode h)) as [firstStack|];
    cbn [deref bind]; [|discriminate].
  destruct (makeStackItems _ _ _) as [[items s1]|] eqn:E;
    cbn [bind fst snd]; [|discriminate].
  intros H. apply Normal_inj, pair_equal_spec in H. destruct H as [Hview _].
  subst view.
  apply all_append; [apply nav_createElement|].
  apply (@nav_makeStackItems _ (setMarker s (Some (str "A"))) s1 items Hs E).
Qed.

Variable ctl : Controls Node Block Connection.

Lemma makeStackItems_parentNav (l : list Node) :
  forall (s0 s1 : St) (items : list El),
    makeStackItems h s0 l = Normal (items, s1) -> parentNav s1 = parentNav s0.
Proof.
  induction l as [|stack rest IH]; intros s0 s1 items.
  - cbn. intros H. injection H as _ <-. reflexivity.
  - cbn [makeStackItems].
    destruct (makeStackItem_ h s0 stack) as [[item s1']|] eqn:E1;
      cbn [bind]; [|discriminate].
    destruct (makeStackItems h s1' rest) as [[items1 s2]|] eqn:E2;
      cbn [bind fst snd] in *; [|rewrite E2; discriminate].
    rewrite E2. cbn [bind fst snd]. intros H. injection H as _ <-.
    rewrite (IH _ _ _ E2). unfold makeStackItem_ in E1.
    destruct (marker s0) as [m|]; cbn [deref bind] in E1; [|discriminate].
    destruct (in_ h stack) as [firstIn|]; cbn [deref bind] in E1;
      [|discriminate].
    destruct (if negb (ASTNodeType_eqb (getType h firstIn) BLOCK)
              then deref (nextBlock h firstIn) else Normal firstIn)
      as [blockNode|]; cbn [bind] in E1; [|discriminate].
    destruct (mapM _ _) as [lists|]; cbn [bind] in E1; [|discriminate].
    apply Normal_inj, pair_equal_spec in E1. destruct E1 as [_ <-].
    reflexivity.
Qed.

(** X20.  While nothing is being moved and nothing is selected, the page
    has no move, insert, cancel, delete or new-stack control: when
    [generateList_()] returns, every click listener in the breadcrumbs and
    in the list navigates.  A move can only be started from the view of a
    single block. *)
Theorem idle_page_navigates_only (s s' : St) :
  blockJoiner s = emptyJoiner -> selected s = None ->
  generateList_0 h ctl s = (Normal tt, s') ->
  Forall navigationOnly (parentNav s')
  /\ Forall navigationOnly (childrenOf (mainNavList s')).
Proof.
  intros Hj Hsel. unfold generateList_0.
  destruct (workspaceIsEmpty h).
  { intros H. apply pair_equal_spec in H. destruct H as [_ <-].
    unfold showEmptyWorkspace. cbn [parentNav mainNavList setMainNavList setParentNav].
    split; [constructor; [constructor|constructor]|].
    destruct (mainNavList s); constructor. }
  unfold renderViews, generateParentNav_, selectedNode.
  rewrite Hsel, Hj. cbn [option_map emptyJoiner blockNode connectionNode isSome orb].
  destruct (makeParentItem_ h s None) as [w|] eqn:Ew; cbn [bind]; [|discriminate].
  cbn zeta. cbn [selected setParentNav]. rewrite Hsel.
  destruct (makeWorkspaceView_ h _) as [[view s2]|e] eqn:Ev; [|discriminate].
  intros H. apply pair_equal_spec in H. destruct H as [_ <-].
  assert (Hw : navigationOnly w).
  { unfold makeParentItem_ in Ew. cbn [bind] in Ew.
    apply Normal_inj in Ew. subst w.
    apply all_addEventListener; [exact I|]. apply all_setAttribute.
    unfold appendChild. apply all_append; [apply nav_createElement|].
    constructor; [constructor|constructor]. }
  assert (Hp : parentNav s2 = [w] ++ [] ++ [] ++ []).
  { unfold makeWorkspaceView_ in Ev.
    destruct (in_ h (createWorkspaceNode h)) as [firstStack|];
      cbn [deref bind] in Ev; [|discriminate].
    destruct (makeStackItems _ _ _) as [[items s1]|] eqn:E;
      cbn [bind fst snd] in Ev; [|discriminate].
    apply Normal_inj, pair_equal_spec in Ev. destruct Ev as [_ Hs2]. subst s2.
    rewrite (makeStackItems_parentNav _ _ E). reflexivity. }
  assert (Hview : navigationOnly view).
  { apply (@nav_makeWorkspaceView (setParentNav s ([w] ++ [] ++ [] ++ [])) s2 view);
      [|exact Ev].
    cbn [blockJoiner setParentNav]. rewrite Hj. reflexivity. }
  assert (Hroot : Forall navigationOnly
                    (childrenOf (setAttribute (str "id") (str "mainNavList") view))).
  { destruct view as [t|tag attrs ls cs]; [constructor|].
    cbn [setAttribute childrenOf]. apply all_children in Hview. apply Hview. }
  destruct (enforceDefaultCss _).
  - unfold applyNavStyle_.
    cbn [parentNav mainNavList setMainNavList]. split.
    + rewrite Hp. constructor; [exact Hw|constructor].
    + destruct (setAttribute (str "id") (str "mainNavList") view)
        as [t|tag attrs ls cs]; [constructor|].
      cbn [childrenOf] in *. apply Forall_map.
      eapply Forall_impl; [|exact Hroot]. intros c Hc.
      unfold navigationOnly, allListeners.
      destruct (styleNav_keeps (indentPixels_
                   (setMainNavList s2 (Element tag attrs ls cs))) c)
        as [-> _].
      exact Hc.
  - cbn [parentNav mainNavList setMainNavList]. split; [|exact Hroot].
    rewrite Hp. constructor; [exact Hw|constructor].
Qed.

(** X21.  The view of one branch of an if block always offers the way
    back to all branches: the last item of [makeIfList_] on a node with a
    selected branch reads "View all branches...", and its only listener
    navigates to the same node with no branch. *)
Theorem branch_view_offers_all_branches (s : St) (node : Node)
  (br : Branch Node Block Connection) (items : list El) :
  makeIfList_ h s node (Some br) = Normal items ->
  exists front item,
    items = front ++ [item]
    /\ textContent item = str "View all branches..."
    /\ listenersIn item = [ListItemOnclick (Some node) None].
Proof.
  unfold makeIfList_. cbn [shownBranches bind].
  match goal with
  | |- context [bind ?m _] => destruct m as [cond|]
  end; cbn [bind]; [|discriminate].
  destruct (mapM _ _) as [sections|]; cbn [bind]; [|discriminate].
  unfold makeBlockItem_ at 1.
  destruct (getLocation h node) as [b| |]; cbn [bind]; try discriminate.
  intros H. apply Normal_inj in H. subst items.
  exists (cond ++ List.concat sections). eexists. split.
  - rewrite <- app_assoc. reflexivity.
  - split; reflexivity.
Qed.

End ViewControlFacts.

Lemma throwsOnly_Normal {A} (E : Exn -> Prop) (a : A) : throwsOnly E (Normal a).
Proof. intros e H. discriminate. Qed.

Lemma throwsOnly_TypeError {A} : throwsOnly isTypeError (@Throw A TypeError).
Proof. intros e H. injection H as <-. reflexivity. Qed.

Lemma throwsOnly_bind {A B} (E : Exn -> Prop) (c : Completion A)
  (k : A -> Completion B) :
  throwsOnly E c -> (forall a, c = Normal a -> throwsOnly E (k a)) ->
  throwsOnly E (bind c k).
Proof.
  intros Hc Hk e. destruct c as [a|e0]; cbn.
  - apply (Hk a eq_refl).
  - intros H. injection H as <-. apply Hc. reflexivity.
Qed.

Lemma throwsOnly_deref {A} (o : option A) : throwsOnly isTypeError (deref o).
Proof. destruct o; [apply throwsOnly_Normal|apply throwsOnly_TypeError]. Qed.

Lemma throwsOnly_mapM {A B} (E : Exn -> Prop) (f : A -> Completion B)
  (l : list A) :
  (forall a, In a l -> throwsOnly E (f a)) -> throwsOnly E (mapM f l).
Proof.
  induction l as [|a l IH]; intros Hf; cbn [mapM]; [apply throwsOnly_Normal|].
  apply throwsOnly_bind; [apply Hf; left; reflexivity|]. intros b _.
  apply throwsOnly_bind; [apply IH; intros a' Ha; apply Hf; right; exact Ha|].
  intros bs _. apply throwsOnly_Normal.
Qed.

Lemma throwsOnly_weaken {A} (E1 E2 : Exn -> Prop) (c : Completion A) :
  (forall e, E1 e -> E2 e) -> throwsOnly E1 c -> throwsOnly E2 c.
Proof. intros H Hc e He. apply H, Hc, He. Qed.

Section Throws.

Context {Node Block Connection : Type}.
Variable h : Host Node Block Connection.

Local Abbreviation El := (Elem Node Block Connection).
Local Abbreviation St := (State Node Block Connection).
Local Abbreviation Loc := (Location Block Connection).

Lemma throwsOnly_makeBlockItem (s : St) (n : Node)
  (br : option (Branch Node Block Connection)) :
  throwsOnly isTypeError (makeBlockItem_ h s n br).
Proof.
  unfold makeBlockItem_. destruct (getLocation h n);
    [apply throwsOnly_Normal|apply throwsOnly_TypeError..].
Qed.

Lemma throwsOnly_makeNodeItems (s : St) (n : Node) :
  throwsOnly isTypeError (makeNodeItems_ h s n).
Proof.
  unfold makeNodeItems_. apply throwsOnly_bind;
    [apply throwsOnly_makeBlockItem|]. intros m _. apply throwsOnly_Normal.
Qed.

Lemma throwsOnly_getIfBranches (n : Node) :
  throwsOnly isTypeError (getIfBranches h n).
Proof.
  unfold getIfBranches. apply throwsOnly_bind; [apply throwsOnly_deref|].
  intros f _. apply throwsOnly_Normal.
Qed.

Lemma throwsOnly_makeIfBracketItem (s : St) (n : Node)
  (br : Branch Node Block Connection) :
  throwsOnly isTypeError (makeIfBracketItem_ h s n br).
Proof.
  unfold makeIfBracketItem_. apply throwsOnly_bind.
  - destruct (branch_type br =? 3); [apply throwsOnly_Normal|].
    destruct (condNode br) as [cn|]; [|apply throwsOnly_Normal].
    destruct (getLocation h cn);
      [apply throwsOnly_Normal|apply throwsOnly_TypeError..].
  - intros t _.
    assert (Hb : throwsOnly isTypeError
                   (item <- makeBlockItem_ h s n (Some br) ;;
                    Normal (onFirstChild (setTextContent t) item))).
    { apply throwsOnly_bind; [apply throwsOnly_makeBlockItem|].
      intros m _. apply throwsOnly_Normal. }
    destruct (blockNode (blockJoiner s)); [|exact Hb].
    destruct (connectionNodeOf h (condConnection br)); [|exact Hb].
    destruct (checkConnection h _ _); [apply throwsOnly_Normal|exact Hb].
Qed.

Lemma throwsOnly_findReturnNode (l : list Node) :
  throwsOnly isTypeError (findReturnNode h l).
Proof.
  induction l as [|n l IH]; cbn [findReturnNode]; [apply throwsOnly_Normal|].
  destruct (getLocation h n) as [b|c|];
    [apply throwsOnly_TypeError| |apply throwsOnly_TypeError].
  destruct (connParentInputType h c) as [t|]; [|exact IH].
  destruct (t =? 1); [apply throwsOnly_Normal|exact IH].
Qed.

Lemma throwsOnly_makeReturnItem (s : St) (n : Node) :
  throwsOnly isTypeError (makeReturnItem_ h s n).
Proof.
  unfold makeReturnItem_.
  apply throwsOnly_bind; [apply throwsOnly_deref|]. intros i _.
  apply throwsOnly_bind; [apply throwsOnly_findReturnNode|]. intros found _.
  apply throwsOnly_bind; [apply throwsOnly_deref|]. intros returnNode _.
  destruct (nodeAfterIn h returnNode) as [returnBlock|].
  - apply throwsOnly_bind; [apply throwsOnly_makeBlockItem|].
    intros m _. apply throwsOnly_Normal.
  - destruct (blockNode (blockJoiner s)); [|apply throwsOnly_Normal].
    destruct (checkConnection h _ _); apply throwsOnly_Normal.
Qed.

Lemma throwsOnly_makeInnerInputList (s : St) (n : Node) :
  throwsOnly isTypeError (makeInnerInputList_ h s n).
Proof.
  unfold makeInnerInputList_.
  destruct (blockNode (blockJoiner s)); [|apply throwsOnly_Normal].
  apply throwsOnly_bind; [apply throwsOnly_deref|].
  intros f _. apply throwsOnly_Normal.
Qed.

Lemma throwsOnly_generateInnerBody (s : St)
  (expand : Node -> Completion (list El)) (n : Node) :
  (forall m, In m (chain h n) -> throwsOnly isTypeError (expand m)) ->
  throwsOnly isTypeError (generateInnerBody h s expand n).
Proof.
  intros He. unfold generateInnerBody.
  apply throwsOnly_bind; [apply throwsOnly_mapM; exact He|].
  intros items _. apply throwsOnly_Normal.
Qed.

Lemma throwsOnly_expandBlock (s : St) (expand : Node -> Completion (list El))
  (n : Node) (b : Block) (endLabel : option El) :
  (forall m, In m (nestedPositions h n b) -> throwsOnly isTypeError (expand m)) ->
  throwsOnly isTypeError (expandBlock h s expand n b endLabel).
Proof.
  unfold nestedPositions, expandBlock. intros He.
  apply throwsOnly_bind; [apply throwsOnly_makeNodeItems|]. intros basic _.
  apply throwsOnly_bind; [|intros middle _; apply throwsOnly_Normal].
  destruct (js_eqb (block_type h b) (str "controls_if")).
  - apply throwsOnly_bind; [apply throwsOnly_getIfBranches|].
    intros branches Hb. rewrite Hb in He.
    apply throwsOnly_bind; [|intros sections _; apply throwsOnly_Normal].
    apply throwsOnly_mapM. intros br Hbr. unfold ifSection.
    apply throwsOnly_bind; [apply throwsOnly_makeIfBracketItem|]. intros hd _.
    apply throwsOnly_bind; [|intros body _; apply throwsOnly_Normal].
    destruct (bodyNode br) as [bn|] eqn:Ebn; [|apply throwsOnly_Normal].
    apply throwsOnly_generateInnerBody. intros m Hm. apply He.
    apply in_flat_map. exists br. split; [exact Hbr|]. rewrite Ebn. exact Hm.
  - destruct (inBlock h n) as [f|].
    + apply throwsOnly_bind; [apply throwsOnly_generateInnerBody; exact He|].
      intros body _.
      destruct (js_eqb (block_type h b) (str "procedures_defreturn"));
        [|apply throwsOnly_Normal].
      apply throwsOnly_bind; [apply throwsOnly_makeReturnItem|].
      intros ret _. apply throwsOnly_Normal.
    + destruct (isSome (blockNode (blockJoiner s)) && isSome (in_ h n));
        [|apply throwsOnly_Normal].
      apply throwsOnly_bind; [apply throwsOnly_makeInnerInputList|].
      intros inner _. apply throwsOnly_Normal.
Qed.

Lemma throwsOnly_makeBlockList (s : St) (rootBlock : Loc) (fuel : nat) :
  forall n, (size h n < fuel)%nat ->
            throwsOnly isTypeError (makeBlockList_ h fuel s n rootBlock).
Proof.
  induction fuel as [|fuel IH]; intros n Hn; [lia|].
  cbn [makeBlockList_].
  destruct (negb (ASTNodeType_eqb (getType h n) BLOCK)); [apply throwsOnly_Normal|].
  destruct (getLocation h n) as [b| |];
    [|apply throwsOnly_TypeError|apply throwsOnly_TypeError].
  destruct (notRootOwned h rootBlock b); [apply throwsOnly_Normal|].
  apply throwsOnly_expandBlock. intros m Hm.
  apply nestedPositions_size in Hm. apply IH. lia.
Qed.

End Throws.

Section RecursionFacts.

Context {Node Block Connection : Type}.
Variable h : Host Node Block Connection.

Local Abbreviation El := (Elem Node Block Connection).
Local Abbreviation St := (State Node Block Connection).
Local Abbreviation Loc := (Location Block Connection).

Lemma makeBlockList_fuel_stable (s : St) (rootBlock : Loc) (fuel1 : nat) :
  forall (fuel2 : nat) (n : Node),
    (size h n < fuel1)%nat -> (size h n < fuel2)%nat ->
    makeBlockList_ h fuel1 s n rootBlock = makeBlockList_ h fuel2 s n rootBlock.
Proof.
  induction fuel1 as [|fuel1 IH]; intros [|fuel2] n H1 H2; try lia.
  cbn [makeBlockList_].
  destruct (negb (ASTNodeType_eqb (getType h n) BLOCK)); [reflexivity|].
  destruct (getLocation h n) as [b| |]; try reflexivity.
  destruct (notRootOwned h rootBlock b); [reflexivity|].
  apply expandBlock_ext. intros m Hm.
  apply nestedPositions_size in Hm. apply IH; lia.
Qed.

(** X22.  The recursion of [makeBlockList_] ends on every workspace, since
    the block tree is acyclic: with the fuel that [makeStackItem_] gives it,
    or any fuel above the size of the node, the result is the same, and it
    is a list of items or a TypeError, never the exhaustion of the fuel. *)
Theorem makeBlockList_fuel_irrelevant (s : St) (rootBlock : Loc) (n : Node)
  (fuel : nat) :
  (size h n < fuel)%nat ->
  makeBlockList_ h fuel s n rootBlock
  = makeBlockList_ h (S (size h n)) s n rootBlock
  /\ throwsOnly isTypeError (makeBlockList_ h fuel s n rootBlock).
Proof.
  intros Hfuel. split.
  - apply makeBlockList_fuel_stable; lia.
  - apply throwsOnly_makeBlockList. exact Hfuel.
Qed.

End RecursionFacts.

Lemma makeBlockList_fuel_irrelevant_witness :
  makeBlockList_ Demo.host 100 Demo.fresh Demo.A_blk (LBlock Demo.bA)
  = makeBlockList_ Demo.host 22 Demo.fresh Demo.A_blk (LBlock Demo.bA)
  /\ throwsOnly isTypeError
       (makeBlockList_ Demo.host 100 Demo.fresh Demo.A_blk (LBlock Demo.bA)).
Proof.
  apply (@makeBlockList_fuel_irrelevant _ _ _ Demo.host Demo.fresh
           (LBlock Demo.bA) Demo.A_blk 100).
  cbn. lia.
Defined.

(** ** Inputs, branches and the way back *)

Section InputFacts.

Context {Node Block Connection : Type}.
Variable h : Host Node Block Connection.

Local Abbreviation El := (Elem Node Block Connection).
Local Abbreviation St := (State Node Block Connection).

Lemma innerInputItems_items (s : St) (inlines withins : nat) (l : list Node) :
  forall tackVal insertVal,
    Forall (fun item => exists n t, In n l /\ item = makeConnectionItem_ h s n t)
      (innerInputItems h s inlines withins tackVal insertVal l).
Proof.
  induction l as [|n l IH]; intros tackVal insertVal; cbn [innerInputItems];
    [constructor|].
  assert (Hrest : forall tv iv,
             Forall (fun item => exists n0 t,
                         In n0 (n :: l) /\ item = makeConnectionItem_ h s n0 t)
               (innerInputItems h s inlines withins tv iv l)).
  { intros tv iv. eapply Forall_impl; [|apply IH].
    intros item (n0 & t & Hin & ->). exists n0, t. split; [right; exact Hin|].
    reflexivity. }
  destruct (hasInputParent h n).
  - destruct (inlines <=? 1)%nat; (constructor; [|apply Hrest]);
      eexists n, _; (split; [left; reflexivity|reflexivity]).
  - destruct (withins <=? 1)%nat; (constructor; [|apply Hrest]);
      eexists n, _; (split; [left; reflexivity|reflexivity]).
Qed.

(** X23.  [makeInnerInputList_] offers nothing while no block is being
    moved.  While block [bn] is being moved, each item it returns is a
    control that pushes one of the inputs of the root node, an input
    reached from the first one by [next], and [checkConnection] has accepted
    that input for the connection before [bn]. *)
Theorem innerInputs_are_checked (s : St) (rootNode : Node) (items : list El) :
  makeInnerInputList_ h s rootNode = Normal items ->
  match blockNode (blockJoiner s) with
  | None => items = []
  | Some bn =>
      Forall (fun item =>
                exists n t firstIn,
                  item = makeConnectionItem_ h s n t
                  /\ in_ h rootNode = Some firstIn
                  /\ Reaches (next h) firstIn n
                  /\ checkConnection h (Some n) (prev h bn) = true) items
  end.
Proof.
  unfold makeInnerInputList_.
  destruct (blockNode (blockJoiner s)) as [bn|].
  2:{ intros H. injection H as <-. reflexivity. }
  destruct (in_ h rootNode) as [firstIn|]; cbn [deref bind]; [|discriminate].
  intros H. apply Normal_inj in H. subst items.
  eapply Forall_impl; [|apply innerInputItems_items].
  intros item (n & t & Hin & ->). exists n, t, firstIn.
  apply filter_In in Hin. destruct Hin as [Hin Hcheck].
  apply filter_In in Hin. destruct Hin as [Hin _].
  repeat split; try assumption.
  apply (in_collect_iff (size h) (next h) (next_size h)). exact Hin.
Qed.

Lemma find_first {A} (f : A -> bool) (l : list A) :
  match find f l with
  | Some x => In x l /\ f x = true
  | None => forall x, In x l -> f x = false
  end.
Proof.
  destruct (find f l) as [x|] eqn:E.
  - apply find_some in E. exact E.
  - intros x Hx. exact (find_none f l E x Hx).
Qed.

(** X24.  "Go back" leads to an enclosing block or to the workspace, never
    to a connection, a field or a stack.  The only listener of the item
    navigates, with no branch, to a node of type block that [out] reaches
    from the node, or to the workspace when [out] reaches no such node. *)
Theorem goBack_leads_to_a_block (s : St) (node : Node) :
  exists target,
    listenersIn (makeGoBackItem_ h s node) = [ListItemOnclick target None]
    /\ match target with
       | Some m =>
           getType h m = BLOCK
           /\ exists o, out h node = Some o /\ Reaches (out h) o m
       | None =>
           forall o m, out h node = Some o -> Reaches (out h) o m ->
                       getType h m <> BLOCK
       end.
Proof.
  unfold makeGoBackItem_.
  destruct (out h node) as [o|] eqn:Eo.
  - pose proof (find_first (fun n => ASTNodeType_eqb (getType h n) BLOCK)
                  (collect (depth h) (out h) o)) as Hf.
    destruct (find _ _) as [m|]; eexists; (split; [reflexivity|]).
    + destruct Hf as [Hin Hty]. split.
      * destruct (getType h m); cbn in Hty; congruence.
      * exists o. split; [reflexivity|].
        apply (in_collect_iff (depth h) (out h) (out_depth h)). exact Hin.
    + intros o' m Ho' R. injection Ho' as <-.
      apply (in_collect_iff (depth h) (out h) (out_depth h)) in R.
      apply Hf in R. intros Hty. rewrite Hty in R. discriminate.
  - exists None. split; [reflexivity|]. intros o m H. discriminate.
Qed.

Lemma branchesFrom_shape (l : list Node) :
  forall k : nat,
    (map (@key _ _ _) (branchesFrom h (2 * Z.of_nat k) l)
     = map (fun j => Z.of_nat (k + j)) (seq 0 (Nat.div2 (S (List.length l))))
     /\ map (@branch_type _ _ _) (branchesFrom h (2 * Z.of_nat (S k)) l)
        = repeat 2 (Nat.div2 (List.length l))
          ++ (if Nat.odd (List.length l) then [3] else [])
     /\ Forall (fun br => text br = branchText (branch_type br))
          (branchesFrom h (2 * Z.of_nat k) l))
    /\ forall c,
        map (@key _ _ _) (branchesFrom h (2 * Z.of_nat k) (c :: l))
        = map (fun j => Z.of_nat (k + j))
            (seq 0 (Nat.div2 (S (S (List.length l)))))
        /\ map (@branch_type _ _ _) (branchesFrom h (2 * Z.of_nat (S k)) (c :: l))
           = repeat 2 (Nat.div2 (S (List.length l)))
             ++ (if Nat.odd (S (List.length l)) then [3] else [])
        /\ Forall (fun br => text br = branchText (branch_type br))
             (branchesFrom h (2 * Z.of_nat k) (c :: l)).
Proof.
  assert (Hkey : forall k : nat, 2 * Z.of_nat k / 2 = Z.of_nat k).
  { intros k. rewrite Z.mul_comm. apply Z.div_mul. lia. }
  assert (Hnext : forall k : nat, 2 * Z.of_nat k + 2 = 2 * Z.of_nat (S k))
    by (intros; lia).
  assert (Hpos : forall k : nat, (2 * Z.of_nat (S k) =? 0) = false)
    by (intros; apply Z.eqb_neq; lia).
  assert (Htext : forall k : nat,
             (if 2 * Z.of_nat k =? 0 then str "if" else str "else if")
             = branchText (if 2 * Z.of_nat k =? 0 then 1 else 2)).
  { intros k. destruct (2 * Z.of_nat k =? 0); reflexivity. }
  induction l as [|b l IH]; intros k.
  - split; [repeat split; constructor|]. intros c.
    cbn [branchesFrom map key branch_type text List.length Nat.div2 seq
         Nat.odd Nat.even negb repeat app].
    rewrite Hkey, Nat.add_0_r. repeat split. constructor; [reflexivity|constructor].
  - destruct (IH k) as [_ IHc]. split; [apply IHc|].
    intros c. cbn [branchesFrom map List.length key branch_type].
    rewrite !Hnext, Hkey, Hpos.
    destruct (IH (S k)) as [[Hk [Ht Hx]] _].
    repeat split.
    + rewrite Hk. cbn [Nat.div2 seq map]. rewrite Nat.add_0_r. f_equal.
      rewrite <- seq_shift, map_map. apply map_ext. intros j. f_equal. lia.
    + rewrite Ht. reflexivity.
    + constructor; [cbn [text branch_type]; apply Htext|exact Hx].
Qed.

(** X25.  The branches of an if block.  When the if node has nothing
    inside, [getIfBranches] throws a TypeError.  Otherwise it returns at
    least one branch; there is one branch for every two children, and one
    more for a child left over; their keys are 0, 1, 2, ... in order; the
    first is an if (type 1), the following are else-ifs (type 2), and a
    child left over gives a final else (type 3), also when it is the only
    child; each branch carries the text of its type. *)
Theorem getIfBranches_shape (ifNode : Node) :
  match in_ h ifNode with
  | None => getIfBranches h ifNode = Throw TypeError
  | Some firstIn =>
      let n := List.length (collect (size h) (next h) firstIn) in
      exists branches,
        getIfBranches h ifNode = Normal branches
        /\ branches <> []
        /\ List.length branches = Nat.div2 (S n)
        /\ map (@key _ _ _) branches
           = map Z.of_nat (seq 0 (List.length branches))
        /\ map (@branch_type _ _ _) branches = branchTypes n
        /\ Forall (fun br => text br = branchText (branch_type br)) branches
  end.
Proof.
  unfold getIfBranches. destruct (in_ h ifNode) as [firstIn|]; [|reflexivity].
  cbn [deref bind]. eexists. split; [reflexivity|].
  set (l := collect (size h) (next h) firstIn).
  assert (Hl : exists c l', l = c :: l').
  { subst l. unfold collect. cbn [collect_fuel]. eexists _, _. reflexivity. }
  destruct Hl as (c & l' & Hl). rewrite Hl. clearbody l. clear Hl.
  destruct (branchesFrom_shape l' 0) as [_ H]. specialize (H c).
  change (2 * Z.of_nat 0) with 0 in H. destruct H as [Hk [_ Hx]].
  assert (Hlen : List.length (branchesFrom h 0 (c :: l'))
                 = Nat.div2 (S (List.length (c :: l')))).
  { apply (f_equal (@List.length _)) in Hk.
    rewrite !length_map, length_seq in Hk. exact Hk. }
  repeat split.
  - destruct l'; discriminate.
  - exact Hlen.
  - rewrite Hk, Hlen. reflexivity.
  - unfold branchTypes. destruct l' as [|b l'']; [reflexivity|].
    cbn [branchesFrom map branch_type List.length Nat.div2 Nat.odd].
    destruct (branchesFrom_shape l'' 0) as [[_ [Ht _]] _].
    change (0 + 2) with (2 * Z.of_nat 1). rewrite Ht.
    cbn [Nat.odd Nat.even negb]. reflexivity.
  - exact Hx.
Qed.

End InputFacts.

(** ** The properties above on the demo workspace *)

Lemma moveItemOnclick_returns_to_workspace_witness :
  selected (moveItemOnclick_ Demo.host Demo.controls
              (setSelected Demo.fresh (Some (Demo.C_blk, None))) Demo.C_blk)
  = None
  /\ moveItemOnclick_ Demo.host Demo.controls
       (setSelected Demo.fresh (Some (Demo.C_blk, None))) Demo.ws
     = setSelected Demo.fresh (Some (Demo.C_blk, None)).
Proof.
  destruct (moveItemOnclick_returns_to_workspace Demo.host Demo.controls
              (setSelected Demo.fresh (Some (Demo.C_blk, None))) Demo.C_blk)
    as [H _].
  destruct (moveItemOnclick_returns_to_workspace Demo.host Demo.controls
              (setSelected Demo.fresh (Some (Demo.C_blk, None))) Demo.ws)
    as [_ H'].
  split; [apply H; reflexivity|apply H'; reflexivity].
Defined.

Lemma other_events_reset_selection_witness :
  exists s',
    generateList_ Demo.host Demo.controls
      (setSelected Demo.fresh (Some (Demo.C_blk, None)))
      (Some {| ev_ref := 1; ev_type := BLOCK_DELETE;
               ev_blockId := Some (str "b"); ev_element := None |}) 1000 1000
    = (Normal tt, s')
    /\ selected s' = None /\ lastHighlighted s' = None.
Proof.
  eexists. split; [vm_compute; reflexivity|].
  eapply (@other_events_reset_selection _ _ _ Demo.host Demo.controls
            (setSelected Demo.fresh (Some (Demo.C_blk, None))) _
            {| ev_ref := 1; ev_type := BLOCK_DELETE;
               ev_blockId := Some (str "b"); ev_element := None |} 1000 1000).
  - reflexivity.
  - exact I.
  - vm_compute. reflexivity.
Defined.

Lemma ui_event_forgets_branch_witness :
  exists s',
    generateList_ Demo.host Demo.controls
      (setSelected Demo.fresh
         (Some (Demo.I_blk,
                Some {| key := 2; branch_type := 3; text := str "else";
                        condIndex := None; condConnection := None;
                        condNode := None; bodyIndex := 4;
                        bodyConnection := LConnection Demo.cI_else;
                        bodyNode := None |})))
      (Some {| ev_ref := 1; ev_type := UI;
               ev_blockId := None; ev_element := Some (str "category") |})
      1000 1000
    = (Normal tt, s')
    /\ selected s' = Some (Demo.I_blk, None).
Proof.
  eexists. split; [vm_compute; reflexivity|].
  eapply (@ui_event_forgets_branch _ _ _ Demo.host Demo.controls
            (setSelected Demo.fresh
               (Some (Demo.I_blk,
                      Some {| key := 2; branch_type := 3; text := str "else";
                              condIndex := None; condConnection := None;
                              condNode := None; bodyIndex := 4;
                              bodyConnection := LConnection Demo.cI_else;
                              bodyNode := None |}))) _
            {| ev_ref := 1; ev_type := UI;
               ev_blockId := None; ev_element := Some (str "category") |}
            1000 1000).
  - reflexivity.
  - reflexivity.
  - reflexivity.
  - vm_compute. reflexivity.
Defined.

Lemma idle_page_navigates_only_witness :
  exists s',
    generateList_0 Demo.host Demo.controls Demo.fresh = (Normal tt, s')
    /\ Forall navigationOnly (parentNav s')
    /\ Forall navigationOnly (childrenOf (mainNavList s')).
Proof.
  eexists. split; [vm_compute; reflexivity|].
  eapply (@idle_page_navigates_only _ _ _ Demo.host Demo.controls Demo.fresh).
  - reflexivity.
  - reflexivity.
  - vm_compute. reflexivity.
Defined.

Lemma branch_view_offers_all_branches_witness :
  exists front item,
    makeIfList_ Demo.host Demo.fresh Demo.I_blk
      (Some {| key := 2; branch_type := 3; text := str "else";
               condIndex := None; condConnection := None;
               condNode := None; bodyIndex := 4;
               bodyConnection := LConnection Demo.cI_else;
               bodyNode := None |})
    = Normal (front ++ [item])
    /\ textContent item = str "View all branches..."
    /\ listenersIn item = [ListItemOnclick (Some Demo.I_blk) None].
Proof.
  destruct (@branch_view_offers_all_branches _ _ _ Demo.host Demo.fresh
              Demo.I_blk
              {| key := 2; branch_type := 3; text := str "else";
                 condIndex := None; condConnection := None;
                 condNode := None; bodyIndex := 4;
                 bodyConnection := LConnection Demo.cI_else;
                 bodyNode := None |} _ eq_refl)
    as (front & item & Hi & Ht & Hl).
  exists front, item. rewrite <- Hi. repeat split; assumption.
Defined.

Lemma innerInputs_are_checked_witness :
  exists items,
    makeInnerInputList_ Demo.host (Demo.moving Demo.C_blk) Demo.I_blk
    = Normal items
    /\ List.length items = 3%nat
    /\ Forall (fun item =>
                 exists n t firstIn,
                   item = makeConnectionItem_ Demo.host
                            (Demo.moving Demo.C_blk) n t
                   /\ in_ Demo.host Demo.I_blk = Some firstIn
                   /\ Reaches (next Demo.host) firstIn n
                   /\ checkConnection Demo.host (Some n)
                        (prev Demo.host Demo.C_blk) = true) items.
Proof.
  eexists. split; [vm_compute; reflexivity|]. split; [reflexivity|].
  apply (@innerInputs_are_checked _ _ _ Demo.host (Demo.moving Demo.C_blk)
           Demo.I_blk).
  vm_compute. reflexivity.
Defined.

(** ** What a render can throw *)

Section RenderThrows.

Context {Node Block Connection : Type}.
Variable h : Host Node Block Connection.
Variable ctl : Controls Node Block Connection.

Local Abbreviation El := (Elem Node Block Connection).
Local Abbreviation St := (State Node Block Connection).

Lemma throwsOnly_makeParentItem (s : St) (node : option Node) :
  throwsOnly isTypeError (makeParentItem_ h s node).
Proof.
  unfold makeParentItem_. apply throwsOnly_bind.
  - destruct node as [n|]; [|apply throwsOnly_Normal].
    destruct (getLocation h n);
      [apply throwsOnly_Normal|apply throwsOnly_TypeError..].
  - intros c _. apply throwsOnly_Normal.
Qed.

Lemma throwsOnly_generateParentNav (s : St) (rootNode : option Node) :
  throwsOnly isTypeError (generateParentNav_ h ctl s rootNode).
Proof.
  unfold generateParentNav_.
  apply throwsOnly_bind; [apply throwsOnly_makeParentItem|]. intros w _.
  apply throwsOnly_bind; [|intros crumbs _; apply throwsOnly_Normal].
  destruct rootNode as [r|]; [|apply throwsOnly_Normal].
  apply throwsOnly_mapM. intros n _. apply throwsOnly_makeParentItem.
Qed.

Lemma throwsOnly_nodeItems (s : St) (l : list Node) :
  throwsOnly isTypeError
    (items <- mapM (makeNodeItems_ h s) l ;; Normal (flat_map (@itemsOf _ _ _) items)).
Proof.
  apply throwsOnly_bind; [|intros items _; apply throwsOnly_Normal].
  apply throwsOnly_mapM. intros n _. apply throwsOnly_makeNodeItems.
Qed.

Lemma throwsOnly_makeIfList (s : St) (node : Node)
  (nodeBranch : option (Branch Node Block Connection)) :
  throwsOnly isTypeError (makeIfList_ h s node nodeBranch).
Proof.
  unfold makeIfList_.
  apply throwsOnly_bind.
  { unfold shownBranches. destruct nodeBranch;
      [apply throwsOnly_Normal|apply throwsOnly_getIfBranches]. }
  intros branches _. apply throwsOnly_bind.
  { assert (Hitem : forall cn,
               throwsOnly isTypeError
                 (item <- makeBlockItem_ h s cn None ;; Normal [item])).
    { intros cn. apply throwsOnly_bind; [apply throwsOnly_makeBlockItem|].
      intros m _. apply throwsOnly_Normal. }
    assert (Hbr : throwsOnly isTypeError
                    match branches with
                    | [ {| condNode := Some cn |} ] =>
                        item <- makeBlockItem_ h s cn None ;; Normal [item]
                    | _ => Normal []
                    end).
    { destruct branches as [|[? ? ? ? ? [cn|] ? ? ?] [|? ?]];
        try apply throwsOnly_Normal. apply Hitem. }
    destruct nodeBranch as [[? ? ? ? ? [cn|] ? ? ?]|];
      [apply Hitem|exact Hbr|exact Hbr]. }
  intros cond _. apply throwsOnly_bind.
  { apply throwsOnly_mapM. intros br _. unfold ifBranchItems.
    apply throwsOnly_bind; [apply throwsOnly_makeIfBracketItem|]. intros hd _.
    apply throwsOnly_bind; [|intros body _; apply throwsOnly_Normal].
    unfold ifBranchBody. destruct (bodyNode br) as [bn|].
    - apply throwsOnly_nodeItems.
    - destruct (blockNode (blockJoiner s)); [|apply throwsOnly_Normal].
      destruct (bodyConnection br);
        [apply throwsOnly_TypeError|apply throwsOnly_Normal
        |apply throwsOnly_TypeError]. }
  intros sections _. apply throwsOnly_bind; [|intros v _; apply throwsOnly_Normal].
  destruct nodeBranch; [|apply throwsOnly_Normal].
  apply throwsOnly_bind; [apply throwsOnly_makeBlockItem|].
  intros item _. apply throwsOnly_Normal.
Qed.

Lemma throwsOnly_makeBlockSpecificView (s : St) (rootNode : Node)
  (rootBranch : option (Branch Node Block Connection)) :
  throwsOnly isTypeError (makeBlockSpecificView_ h ctl s rootNode rootBranch).
Proof.
  unfold makeBlockSpecificView_.
  destruct (getLocation h rootNode) as [b| |];
    [|apply throwsOnly_TypeError|apply throwsOnly_TypeError].
  cbn zeta. apply throwsOnly_bind.
  { destruct (js_eqb (block_type h b) (str "controls_if"));
      [apply throwsOnly_makeIfList|].
    destruct (inBlock h rootNode); [apply throwsOnly_nodeItems|].
    destruct (isSome (connectionNode (blockJoiner s)));
      [apply throwsOnly_Normal|apply throwsOnly_makeInnerInputList]. }
  intros body _. apply throwsOnly_bind; [|intros ret _; apply throwsOnly_Normal].
  destruct (js_eqb (block_type h b) (str "procedures_defreturn"));
    [|apply throwsOnly_Normal].
  apply throwsOnly_bind; [apply throwsOnly_makeReturnItem|].
  intros r _. apply throwsOnly_Normal.
Qed.

Lemma throwsOnly_makeStackItem (s : St) (stack : Node) :
  throwsOnly isTypeError (makeStackItem_ h s stack).
Proof.
  unfold makeStackItem_.
  apply throwsOnly_bind; [apply throwsOnly_deref|]. intros m _.
  apply throwsOnly_bind; [apply throwsOnly_deref|]. intros firstIn _.
  apply throwsOnly_bind.
  { destruct (negb _); [apply throwsOnly_deref|apply throwsOnly_Normal]. }
  intros blockNode _.
  apply throwsOnly_bind; [|intros lists _; apply throwsOnly_Normal].
  apply throwsOnly_mapM. intros n _. apply throwsOnly_makeBlockList. lia.
Qed.

Lemma throwsOnly_makeStackItems (stacks : list Node) :
  forall s : St, throwsOnly isTypeError (makeStackItems h s stacks).
Proof.
  induction stacks as [|stack rest IH]; intros s; cbn [makeStackItems];
    [apply throwsOnly_Normal|].
  apply throwsOnly_bind; [apply throwsOnly_makeStackItem|]. intros r _.
  apply throwsOnly_bind; [apply IH|]. intros rs _. apply throwsOnly_Normal.
Qed.

Lemma throwsOnly_makeWorkspaceView (s : St) :
  throwsOnly isTypeError (makeWorkspaceView_ h s).
Proof.
  unfold makeWorkspaceView_.
  apply throwsOnly_bind; [apply throwsOnly_deref|]. intros firstStack _.
  apply throwsOnly_bind; [apply throwsOnly_makeStackItems|].
  intros r _. apply throwsOnly_Normal.
Qed.

(** X26.  A render without an event ends, and what it throws, if
    anything, is a TypeError of the linearization itself, a null that is
    dereferenced or a block that is expected and missing: the fuel of the
    model is never used up, and no exception of the host arises. *)
Theorem render_throws_only_TypeError (s : St) :
  throwsOnly isTypeError (fst (generateList_0 h ctl s)).
Proof.
  unfold generateList_0. destruct (workspaceIsEmpty h); [apply throwsOnly_Normal|].
  unfold renderViews.
  pose proof (throwsOnly_generateParentNav s (selectedNode s)) as Hnav.
  destruct (generateParentNav_ h ctl s (selectedNode s)) as [nav|e].
  2:{ intros e' He'. cbn [fst] in He'. injection He' as <-.
      apply Hnav. reflexivity. }
  cbn zeta.
  destruct (selected (setParentNav s nav)) as [[n br]|].
  - pose proof (throwsOnly_makeBlockSpecificView (setParentNav s nav) n br) as Hv.
    destruct (makeBlockSpecificView_ h ctl (setParentNav s nav) n br) as [v|e];
      cbn [bind fst].
    + apply throwsOnly_Normal.
    + intros e' He'. injection He' as <-. apply Hv. reflexivity.
  - pose proof (throwsOnly_makeWorkspaceView (setParentNav s nav)) as Hv.
    destruct (makeWorkspaceView_ h (setParentNav s nav)) as [[v s2]|e];
      cbn [fst].
    + apply throwsOnly_Normal.
    + intros e' He'. injection He' as <-. apply Hv. reflexivity.
Qed.

End RenderThrows.

(** ** The earlier joiner *)

(** X27.  The service step of the earlier [BlockJoiner] and
    [attemptConnection_] do the same when there is nothing to disconnect
    first, the target is not an output connection and the host accepts the
    [connect] call: the same completion, the same slots afterwards and the
    same single call.  (They differ when the host refuses: the earlier
    step lets the exception out and keeps both slots.) *)
Theorem service_agrees_with_attemptConnection
  {Node Block Connection : Type} (h : Host Node Block Connection)
  (j : BlockJoiner Node) :
  (forall provided, blockNode j = Some provided -> detachOld h provided = []) ->
  (forall cnode, connectionNode j = Some cnode -> getType h cnode <> OUTPUT) ->
  (forall target providedBlock,
      In (HConnect target providedBlock) (callsOf (attemptConnection_ h j)) ->
      respond h [] (HConnect target providedBlock) = Returns) ->
  Legacy.service_ h j = attemptConnection_ h j.
Proof.
  unfold Legacy.service_, attemptConnection_, callsOf.
  destruct (blockNode j) as [provided|]; [|reflexivity].
  destruct (connectionNode j) as [cnode|]; [|reflexivity].
  intros Hd Hty Hr. specialize (Hd provided eq_refl).
  specialize (Hty cnode eq_refl).
  assert (Hback : Legacy.back h (getType h cnode) = back h (getType h cnode))
    by (destruct (getType h cnode); try reflexivity; congruence).
  rewrite Hback. destruct (back h (getType h cnode)) as [backfn|]; [|reflexivity].
  destruct (backfn provided) as [b|]; [|reflexivity].
  rewrite Hd in *. cbn [app snd] in *. unfold connectTo in *.
  rewrite (Hr (getLocation h cnode) (getLocation h b)).
  - reflexivity.
  - destruct (respond h [] _); left; reflexivity.
Qed.

Lemma creation_selects_and_starts_cooldown_witness :
  selected Cooldown.afterCreate = Some (Demo.F_blk, None)
  /\ lastHighlighted Cooldown.afterCreate = Some (LBlock Demo.bF)
  /\ cooldown_ Cooldown.afterCreate = VNum 1100.
Proof.
  apply (@creation_selects_and_starts_cooldown _ _ _ Demo.host Demo.controls
           Demo.fresh Cooldown.afterCreate Cooldown.createF 1000 1000
           (str "f") Demo.bF); vm_compute; reflexivity.
Defined.

Lemma expired_cooldown_mutes_moves_witness :
  handleEvents Demo.host Demo.controls Cooldown.afterCreate
    [(Cooldown.moveC, 1300); (Cooldown.moveC, 1400)]
  = setCooldown_ Cooldown.afterCreate (VBool true).
Proof.
  apply expired_cooldown_mutes_moves.
  - reflexivity.
  - discriminate.
  - repeat constructor.
Defined.

Lemma move_then_insert_connects_witness :
  blockJoiner (moveItemOnclick_ Demo.host Demo.controls
                 (moveItemOnclick_ Demo.host Demo.controls Demo.fresh Demo.I_blk)
                 Demo.C_next)
  = emptyJoiner
  /\ hostCalls (moveItemOnclick_ Demo.host Demo.controls
                  (moveItemOnclick_ Demo.host Demo.controls Demo.fresh Demo.I_blk)
                  Demo.C_next)
     = [HConnect (LConnection Demo.cC_next) (LConnection Demo.cI_prev)].
Proof.
  destruct (@move_then_insert_connects _ _ _ Demo.host Demo.controls Demo.fresh
              Demo.I_blk Demo.C_next Demo.I_prev Demo.bI Demo.cC_next
              eq_refl eq_refl eq_refl (or_introl eq_refl) eq_refl)
    as (_ & _ & H3 & _ & _).
  split; [exact H3|]. vm_compute. reflexivity.
Defined.

Lemma service_agrees_with_attemptConnection_witness :
  Legacy.service_ Demo.host
    {| blockNode := Some Demo.I_blk; connectionNode := Some Demo.C_next |}
  = attemptConnection_ Demo.host
      {| blockNode := Some Demo.I_blk; connectionNode := Some Demo.C_next |}.
Proof.
  apply service_agrees_with_attemptConnection.
  - intros provided H. injection H as <-. reflexivity.
  - intros cnode H. injection H as <-. discriminate.
  - intros target providedBlock H. vm_compute in H.
    destruct H as [H|[]]. injection H as <- <-. reflexivity.
Defined.

(** ** The font size *)

Section FontSizeFacts.

Context {Node Block Connection : Type}.
Variable h : Host Node Block Connection.
Variable ctl : Controls Node Block Connection.

Local Abbreviation El := (Elem Node Block Connection).
Local Abbreviation St := (State Node Block Connection).
Local Abbreviation Loc := (Location Block Connection).

Lemma sized_Element (size : Z) (tag : jsstring)
  (attrs : list (jsstring * jsstring))
  (ls : list (Handler Node Block Connection)) (cs : list El) :
  sizedAt size (Element tag attrs ls cs)
  <-> getKey (str "style.font-size") attrs = Some (Z_to_js size ++ str "pt")
      /\ Forall (sizedAt size) cs.
Proof.
  unfold sizedAt. cbn [elementsOf descendants].
  change (fun c : El => match c with
                        | TextNode _ => []
                        | Element _ _ _ _ => c :: descendants c
                        end) with (@elementsOf Node Block Connection).
  rewrite flat_map_concat_map. split.
  - intros H. inversion H as [|? ? H1 H2]; subst. split; [exact H1|].
    rewrite Forall_concat in H2. rewrite Forall_map in H2. exact H2.
  - intros [H1 H2]. constructor; [exact H1|].
    apply Forall_concat, Forall_map. exact H2.
Qed.

Lemma sized_TextNode (size : Z) (t : jsstring) :
  sizedAt size (@TextNode Node Block Connection t).
Proof. constructor. Qed.

Lemma sized_setAttribute (size : Z) (k v : jsstring) (e : El) :
  js_eqb (str "style.font-size") k = false ->
  sizedAt size e -> sizedAt size (setAttribute k v e).
Proof.
  intros Hk. destruct e as [t|tag attrs ls cs]; [exact (fun H => H)|].
  cbn [setAttribute]. rewrite !sized_Element. intros [H1 H2].
  split; [|exact H2]. rewrite getKey_setKey_other by exact Hk. exact H1.
Qed.

Lemma sized_addEventListener (size : Z) (hd : Handler Node Block Connection)
  (e : El) :
  sizedAt size e -> sizedAt size (addEventListener hd e).
Proof.
  destruct e as [t|tag attrs ls cs]; [exact (fun H => H)|].
  cbn [addEventListener]. rewrite !sized_Element. exact (fun H => H).
Qed.

Lemma sized_append (size : Z) (new : list El) (e : El) :
  sizedAt size e -> Forall (sizedAt size) new -> sizedAt size (append new e).
Proof.
  destruct e as [t|tag attrs ls cs]; [exact (fun H _ => H)|].
  cbn [append]. rewrite !sized_Element. intros [H1 H2] H3.
  split; [exact H1|]. apply Forall_app. split; assumption.
Qed.

Lemma sized_setTextContent (size : Z) (t : jsstring) (e : El) :
  sizedAt size e -> sizedAt size (setTextContent t e).
Proof.
  destruct e as [t'|tag attrs ls cs]; [intros _; apply sized_TextNode|].
  cbn [setTextContent]. rewrite !sized_Element. intros [H _].
  split; [exact H|]. constructor; [apply sized_TextNode|constructor].
Qed.

Lemma sized_onFirstChild (size : Z) (f : El -> El) (e : El) :
  (forall c, sizedAt size c -> sizedAt size (f c)) ->
  sizedAt size e -> sizedAt size (onFirstChild f e).
Proof.
  intros Hf. destruct e as [t|tag attrs ls [|c cs]]; try exact (fun H => H).
  cbn [onFirstChild]. rewrite !sized_Element. intros [H1 H2].
  inversion H2; subst. split; [exact H1|]. constructor; auto.
Qed.

Lemma sized_styleNav (size pixels : Z) (e : El) :
  sizedAt size e -> sizedAt size (styleNav pixels e).
Proof.
  induction e as [t|tag attrs ls cs IH] using Elem_induction;
    [exact (fun H => H)|].
  cbn [styleNav]. rewrite !sized_Element. intros [H1 H2]. split.
  - unfold navStyle, setStyleLength.
    destruct (js_eqb tag (str "span")); [exact H1|].
    destruct (0 <=? pixels);
      rewrite !getKey_setKey_other by reflexivity; exact H1.
  - apply Forall_map. rewrite Forall_forall in IH, H2.
    apply Forall_forall. intros c Hc. apply (IH c Hc), (H2 c Hc).
Qed.

Section SizedItems.

Variable s : St.

Hypothesis Hsize : 0 <= fontSize_ s.

Local Abbreviation sized := (sizedAt (Node := Node) (Block := Block)
                               (Connection := Connection) (fontSize_ s)).

Lemma sized_createElement (tag : jsstring) : sized (createElement s tag).
Proof.
  unfold createElement, setStyleLength. apply sized_Element.
  split; [|constructor].
  apply Z.leb_le in Hsize. rewrite Hsize.
  cbn [setKey getKey]. rewrite js_eqb_refl. reflexivity.
Qed.

Lemma sized_makeTextItem (t : jsstring) : sized (makeTextItem s t).
Proof.
  unfold makeTextItem, appendChild.
  apply sized_append; [apply sized_createElement|].
  constructor; [|constructor].
  apply sized_append; [apply sized_createElement|].
  constructor; [apply sized_TextNode|constructor].
Qed.

Lemma sized_makeConnectionItem (n : Node) (t : jsstring) :
  sized (makeConnectionItem_ h s n t).
Proof.
  unfold makeConnectionItem_. apply sized_addEventListener.
  do 3 (apply sized_setAttribute; [reflexivity|]). apply sized_makeTextItem.
Qed.

Lemma sized_makeBlockItem (n : Node)
  (br : option (Branch Node Block Connection)) (item : El) :
  makeBlockItem_ h s n br = Normal item -> sized item.
Proof.
  unfold makeBlockItem_. destruct (getLocation h n); try discriminate.
  intros H. apply Normal_inj in H. subst item.
  apply sized_setAttribute; [reflexivity|]. apply sized_addEventListener.
  do 2 (apply sized_setAttribute; [reflexivity|]).
  apply sized_onFirstChild;
    [intros c; apply sized_setAttribute; reflexivity|].
  apply sized_makeTextItem.
Qed.

Lemma sized_endLabelOf (l : Loc) : Forall sized (optList (endLabelOf h s l)).
Proof.
  unfold endLabelOf. destruct (getNestingBlockName h l); constructor;
    [|constructor].
  apply sized_onFirstChild;
    [intros c; apply sized_setAttribute; reflexivity|].
  apply sized_makeTextItem.
Qed.

Lemma sized_alterAriaLabel (b : Block) (item : El) :
  sized item -> sized (alterAriaLabel h b item).
Proof.
  intros H. unfold alterAriaLabel.
  apply sized_onFirstChild;
    [intros c; apply sized_setAttribute; reflexivity|].
  destruct (getSurroundParent h b); [|exact H].
  apply sized_onFirstChild;
    [intros c; apply sized_setAttribute; reflexivity|exact H].
Qed.

Lemma sized_cutReturnText (item : El) : sized item -> sized (cutReturnText item).
Proof.
  intros H. unfold cutReturnText. apply sized_onFirstChild; [|exact H].
  intros c Hc. destruct (cutAtLast _ _); [apply sized_setTextContent|]; exact Hc.
Qed.

Lemma sized_makeNodeItems (n : Node) (ni : NodeItems) :
  makeNodeItems_ h s n = Normal ni ->
  Forall sized (optList (first ni)) /\ sized (main ni)
  /\ Forall sized (optList (final ni)).
Proof.
  unfold makeNodeItems_.
  destruct (makeBlockItem_ h s n None) as [m|] eqn:E; cbn [bind]; [|discriminate].
  intros H. apply Normal_inj in H. subst ni. cbn [first main final].
  split; [|split; [exact (sized_makeBlockItem _ _ E)|]].
  - unfold makePrevConnectionItem_.
    destruct (displayFor h s n); [|constructor].
    destruct (prev h n) as [pc|]; [|constructor].
    destruct (_ && _); [|constructor].
    destruct (prev h pc) as [pp|];
      [destruct (ASTNodeType_eqb _ _)|];
      (constructor; [apply sized_makeConnectionItem|constructor]).
  - unfold makeNextConnectionItem_.
    destruct (displayFor h s n); [|constructor].
    destruct (next h n) as [nc|]; [|constructor].
    destruct (checkConnection h _ _); [|constructor].
    constructor; [apply sized_makeConnectionItem|constructor].
Qed.

Lemma sized_makeIfBracketItem (n : Node) (br : Branch Node Block Connection)
  (item : El) :
  makeIfBracketItem_ h s n br = Normal item -> sized item.
Proof.
  unfold makeIfBracketItem_.
  destruct (if branch_type br =? 3 then _ else _) as [t|]; cbn [bind];
    [|discriminate].
  assert (Hb : (item0 <- makeBlockItem_ h s n (Some br) ;;
                Normal (onFirstChild (setTextContent t) item0)) = Normal item ->
               sized item).
  { destruct (makeBlockItem_ h s n (Some br)) as [m|] eqn:E; cbn [bind];
      [|discriminate].
    intros H. apply Normal_inj in H. subst item.
    apply sized_onFirstChild; [intros c; apply sized_setTextContent|].
    exact (sized_makeBlockItem _ _ E). }
  destruct (blockNode (blockJoiner s)); [|exact Hb].
  destruct (connectionNodeOf h (condConnection br)); [|exact Hb].
  destruct (checkConnection h _ _); [|exact Hb].
  intros H. apply Normal_inj in H. subst item. apply sized_makeConnectionItem.
Qed.

Lemma sized_makeReturnItem (n : Node) (item : El) :
  makeReturnItem_ h s n = Normal item -> sized item.
Proof.
  unfold makeReturnItem_.
  destruct (deref _) as [i|]; cbn [bind]; [|discriminate].
  destruct (findReturnNode h _) as [found|]; cbn [bind]; [|discriminate].
  destruct (deref found) as [returnNode|]; cbn [bind]; [|discriminate].
  destruct (nodeAfterIn h returnNode) as [returnBlock|].
  - destruct (makeBlockItem_ h s returnBlock None) as [m|] eqn:E; cbn [bind];
      [|discriminate].
    intros H. apply Normal_inj in H. subst item.
    apply sized_onFirstChild; [intros c; apply sized_setTextContent|].
    exact (sized_makeBlockItem _ _ E).
  - destruct (blockNode (blockJoiner s)).
    + destruct (checkConnection h _ _); intros H; apply Normal_inj in H;
        subst item; [apply sized_makeConnectionItem|apply sized_makeTextItem].
    + intros H. apply Normal_inj in H. subst item. apply sized_makeTextItem.
Qed.

Lemma sized_innerInputItems (inlines withins : nat) (l : list Node) :
  forall tackVal insertVal,
    Forall sized (innerInputItems h s inlines withins tackVal insertVal l).
Proof.
  induction l as [|n l IH]; intros tackVal insertVal; cbn [innerInputItems];
    [constructor|].
  destruct (hasInputParent h n).
  - destruct (inlines <=? 1)%nat;
      (constructor; [apply sized_makeConnectionItem|apply IH]).
  - destruct (withins <=? 1)%nat;
      (constructor; [apply sized_makeConnectionItem|apply IH]).
Qed.

Lemma sized_makeInnerInputList (n : Node) (items : list El) :
  makeInnerInputList_ h s n = Normal items -> Forall sized items.
Proof.
  unfold makeInnerInputList_.
  destruct (blockNode (blockJoiner s)).
  2:{ intros H. apply Normal_inj in H. subst items. constructor. }
  destruct (in_ h n); cbn [deref bind]; [|discriminate].
  intros H. apply Normal_inj in H. subst items. apply sized_innerInputItems.
Qed.

Lemma sized_mapM_concat {A} (f : A -> Completion (list El)) (l : list A)
  (lists : list (list El)) :
  (forall a items, In a l -> f a = Normal items -> Forall sized items) ->
  mapM f l = Normal lists -> Forall sized (List.concat lists).
Proof.
  revert lists. induction l as [|a l IH]; intros lists Hf; cbn.
  - intros H. injection H as <-. constructor.
  - destruct (f a) as [items|] eqn:Ea; cbn [bind]; [|discriminate].
    destruct (mapM f l) as [rest|]; cbn [bind]; [|discriminate].
    intros H. injection H as <-. cbn. apply Forall_app. split.
    + apply (Hf a); [left; reflexivity|exact Ea].
    + apply IH; [|reflexivity]. intros a' items' Hin. apply Hf. right. exact Hin.
Qed.

Lemma sized_generateInnerBody (expand : Node -> Completion (list El)) (n : Node)
  (body : El) :
  (forall m items, expand m = Normal items -> Forall sized items) ->
  generateInnerBody h s expand n = Normal body -> sized body.
Proof.
  intros He. unfold generateInnerBody.
  destruct (mapM expand _) as [items|] eqn:E; cbn [bind]; [|discriminate].
  intros H. apply Normal_inj in H. subst body.
  apply sized_append; [apply sized_createElement|].
  eapply sized_mapM_concat; [|exact E]. intros a its _. apply He.
Qed.

Lemma sized_emptyBranchBody (br : Branch Node Block Connection) :
  sized (emptyBranchBody h s br).
Proof.
  unfold emptyBranchBody.
  destruct (blockNode (blockJoiner s)); [|apply sized_createElement].
  destruct (connectionNodeOf h _); [|apply sized_createElement].
  destruct (checkConnection h _ _); [|apply sized_createElement].
  unfold appendChild. apply sized_append; [apply sized_createElement|].
  constructor; [apply sized_makeConnectionItem|constructor].
Qed.

Lemma sized_expandBlock (expand : Node -> Completion (list El)) (n : Node)
  (b : Block) (items : list El) :
  (forall m items, expand m = Normal items -> Forall sized items) ->
  expandBlock h s expand n b (endLabelOf h s (LBlock b)) = Normal items ->
  Forall sized items.
Proof.
  intros He. unfold expandBlock.
  destruct (makeNodeItems_ h s n) as [basic|] eqn:Eb; cbn [bind]; [|discriminate].
  destruct (sized_makeNodeItems _ Eb) as [Hf [Hm Hl]].
  match goal with
  | |- context [bind ?m _] => destruct m as [middle|] eqn:Em
  end; cbn [bind]; [|discriminate].
  intros H. apply Normal_inj in H. subst items.
  apply Forall_app. split; [exact Hf|].
  apply Forall_app. split; [|apply Forall_app; split;
                              [apply sized_endLabelOf|exact Hl]].
  destruct (js_eqb (block_type h b) (str "controls_if")).
  - destruct (getIfBranches h n) as [branches|]; cbn [bind] in Em;
      [|discriminate].
    destruct (mapM _ branches) as [sections|] eqn:Es; cbn [bind] in Em;
      [|discriminate].
    apply Normal_inj in Em. subst middle.
    eapply sized_mapM_concat; [|exact Es].
    intros br its _. unfold ifSection.
    destruct (makeIfBracketItem_ h s n br) as [hd|] eqn:Eh; cbn [bind];
      [|discriminate].
    destruct (bodyNode br) as [bn|].
    + destruct (generateInnerBody h s expand bn) as [body|] eqn:Eg; cbn [bind];
        [|discriminate].
      intros H. apply Normal_inj in H. subst its.
      constructor; [apply sized_alterAriaLabel, (sized_makeIfBracketItem _ _ Eh)|].
      constructor; [|constructor]. exact (sized_generateInnerBody _ _ He Eg).
    + cbn [bind]. intros H. apply Normal_inj in H. subst its.
      constructor; [apply sized_alterAriaLabel, (sized_makeIfBracketItem _ _ Eh)|].
      constructor; [|constructor]. apply sized_emptyBranchBody.
  - destruct (inBlock h n) as [firstNested|].
    + destruct (generateInnerBody h s expand firstNested) as [body|] eqn:Eg;
        cbn [bind] in Em; [|discriminate].
      destruct (js_eqb (block_type h b) (str "procedures_defreturn")).
      * destruct (makeReturnItem_ h s n) as [ret|] eqn:Er; cbn [bind] in Em;
          [|discriminate].
        apply Normal_inj in Em. subst middle.
        constructor; [apply sized_cutReturnText, sized_alterAriaLabel, Hm|].
        constructor; [|constructor].
        apply sized_append; [exact (sized_generateInnerBody _ _ He Eg)|].
        constructor; [exact (sized_makeReturnItem _ Er)|constructor].
      * apply Normal_inj in Em. subst middle.
        constructor; [apply sized_alterAriaLabel, Hm|].
        constructor; [|constructor]. exact (sized_generateInnerBody _ _ He Eg).
    + destruct (isSome (blockNode (blockJoiner s)) && isSome (in_ h n)).
      * destruct (makeInnerInputList_ h s n) as [inner|] eqn:Ei; cbn [bind] in Em;
          [|discriminate].
        apply Normal_inj in Em. subst middle.
        constructor; [apply sized_alterAriaLabel, Hm|].
        constructor; [|constructor].
        apply sized_append; [apply sized_createElement|].
        exact (sized_makeInnerInputList _ Ei).
      * apply Normal_inj in Em. subst middle.
        constructor; [apply sized_alterAriaLabel, Hm|constructor].
Qed.

Lemma sized_makeBlockList (fuel : nat) :
  forall (n : Node) (rootBlock : Loc) (items : list El),
    makeBlockList_ h fuel s n rootBlock = Normal items -> Forall sized items.
Proof.
  induction fuel as [|fuel IH]; intros n rootBlock items; [discriminate|].
  cbn [makeBlockList_].
  destruct (negb (ASTNodeType_eqb (getType h n) BLOCK)).
  - intros H. apply Normal_inj in H. subst items. apply sized_endLabelOf.
  - destruct (getLocation h n) as [b| |] eqn:El; try discriminate.
    destruct (notRootOwned h rootBlock b).
    + intros H. apply Normal_inj in H. subst items. apply sized_endLabelOf.
    + apply sized_expandBlock. intros m its. apply IH.
Qed.

End SizedItems.

Lemma sized_makeStackItems (stacks : list Node) :
  forall (s s' : St) (items : list El),
    0 <= fontSize_ s ->
    makeStackItems h s stacks = Normal (items, s') ->
    Forall (sizedAt (fontSize_ s)) items.
Proof.
  induction stacks as [|stack rest IH]; intros s s' items Hsize.
  - cbn. intros H. injection H as <- _. constructor.
  - cbn [makeStackItems].
    destruct (makeStackItem_ h s stack) as [[item s1]|] eqn:E1;
      cbn [bind]; [|discriminate].
    destruct (makeStackItems h s1 rest) as [[items1 s2]|] eqn:E2;
      cbn [bind fst snd] in *; [|rewrite E2; discriminate].
    rewrite E2. cbn [bind fst snd]. intros H. injection H as <- _.
    assert (Hs1 : fontSize_ s1 = fontSize_ s).
    { pose proof (makeStackItem_kept _ _ _ E1) as K. unfold keptByRender in K.
      injection K as _ _ _ _ K5 _ _ _ _. exact K5. }
    constructor;
      [|rewrite <- Hs1; apply (IH _ _ _ ltac:(rewrite Hs1; exact Hsize) E2)].
    unfold makeStackItem_ in E1.
    destruct (marker s) as [m|]; cbn [deref bind] in E1; [|discriminate].
    destruct (in_ h stack) as [firstIn|]; cbn [deref bind] in E1; [|discriminate].
    destruct (if negb (ASTNodeType_eqb (getType h firstIn) BLOCK)
              then deref (nextBlock h firstIn) else Normal firstIn)
      as [blockNode|]; cbn [bind] in E1; [|discriminate].
    destruct (mapM _ _) as [lists|] eqn:El; cbn [bind] in E1; [|discriminate].
    apply Normal_inj, pair_equal_spec in E1. destruct E1 as [Hitem Hs1'].
    subst item s1.
    apply sized_append; [apply sized_createElement; exact Hsize|].
    constructor; [apply sized_makeTextItem; exact Hsize|].
    constructor; [|constructor].
    apply sized_append;
      [apply (@sized_createElement (setMarker s (Some (nextStackMarker m))));
       exact Hsize|].
    eapply (sized_mapM_concat (setMarker s (Some (nextStackMarker m))));
      [|exact El].
    intros n its _.
    apply (@sized_makeBlockList (setMarker s (Some (nextStackMarker m))) Hsize).
Qed.

(** X28.  [setFontSize(size)] reaches the whole list.  When nothing is
    selected and the workspace has blocks, after [setFontSize] has returned
    the list and every element below it, each stack, block, label and
    control, has the font size [size + 'pt'], for every size that is not
    negative; the font size of the linearization is [size] and the
    selection is still empty. *)
Theorem setFontSize_sizes_the_list (s s' : St) (size : Z) :
  0 <= size ->
  selected s = None -> workspaceIsEmpty h = false ->
  setFontSize h ctl s size = (Normal tt, s') ->
  sizedAt size (mainNavList s') /\ fontSize_ s' = size /\ selected s' = None.
Proof.
  intros Hsize Hsel Hne. unfold setFontSize. intros Hgen.
  pose proof (generateList_0_kept h ctl (withFontSize s size)) as K.
  rewrite Hgen in K. cbn [snd] in K. unfold keptByRender in K.
  injection K as _ K2 _ _ K5 _ _ _ _.
  cbn [selected fontSize_ withFontSize] in K2, K5.
  split; [|split; congruence].
  unfold generateList_0 in Hgen. rewrite Hne in Hgen. unfold renderViews in Hgen.
  destruct (generateParentNav_ h ctl _ _) as [nav|e]; [|discriminate].
  cbn zeta in Hgen. cbn [selected setParentNav withFontSize] in Hgen.
  rewrite Hsel in Hgen.
  destruct (makeWorkspaceView_ h _) as [[view s2]|e] eqn:Ev; [|discriminate].
  assert (Hview : sizedAt size view).
  { unfold makeWorkspaceView_ in Ev.
    destruct (in_ h (createWorkspaceNode h)) as [firstStack|];
      cbn [deref bind] in Ev; [|discriminate].
    destruct (makeStackItems _ _ _) as [[items s1]|] eqn:E;
      cbn [bind fst snd] in Ev; [|discriminate].
    apply Normal_inj, pair_equal_spec in Ev. destruct Ev as [Hv _]. subst view.
    apply sized_append.
    - apply (@sized_createElement
               (setParentNav (withFontSize s size) nav)). exact Hsize.
    - refine (sized_makeStackItems _ _ _ E). exact Hsize. }
  assert (Hid : sizedAt size (setAttribute (str "id") (str "mainNavList") view))
    by (apply sized_setAttribute; [reflexivity|exact Hview]).
  apply pair_equal_spec in Hgen. destruct Hgen as [_ Hs']. subst s'.
  destruct (enforceDefaultCss _); [|exact Hid].
  unfold applyNavStyle_. cbn [mainNavList setMainNavList].
  destruct (setAttribute (str "id") (str "mainNavList") view)
    as [t|tag attrs ls cs]; [exact Hid|].
  rewrite sized_Element in Hid |- *. destruct Hid as [H1 H2].
  split; [exact H1|]. apply Forall_map.
  eapply Forall_impl; [|exact H2]. intros c. apply sized_styleNav.
Qed.

End FontSizeFacts.

Lemma setFontSize_sizes_the_list_witness :
  exists s',
    setFontSize Demo.host Demo.controls Demo.fresh 20 = (Normal tt, s')
    /\ sizedAt 20 (mainNavList s') /\ fontSize_ s' = 20 /\ selected s' = None.
Proof.
  eexists. split; [vm_compute; reflexivity|].
  eapply (@setFontSize_sizes_the_list _ _ _ Demo.host Demo.controls Demo.fresh).
  - lia.
  - reflexivity.
  - reflexivity.
  - vm_compute. reflexivity.
Defined.
